(** * youtubeTranscripts: the transcript resolver and the format renderer

    A shallow embedding of [src/lib/youtube-transcript.ts] (rate limiter and
    transcript resolver) and [src/lib/transcript-formatter.ts] (format
    renderer), with the properties of the specification stated over it.

    Modelling conventions.

    - JavaScript strings are [string]s.  A character of code [c] stands for
      the UTF-16 code unit [c], so the model covers the strings whose code
      units are all below 256; [trim] and [toLowerCase] are the ECMAScript
      functions restricted to that range.
    - Segment timings are IEEE 754 binary64 values ([spec_float] with
      precision 53 and maximal exponent 1024), with the correctly rounded
      operations of the standard library's [SpecFloat].  Rounding is
      observable in [formatTime], so it is kept.
    - The failure counter and the clock readings are integers ([Z]): the
      program only ever adds or subtracts one from the counter, and
      [Date.now()] returns whole milliseconds.  Pacing delays are exact
      rationals ([Q]); on the values the limiter computes, binary64
      arithmetic is exact (see [dynamicDelay]).
    - A resolution runs against an [Environment] that fixes what the clock
      and the two caption services answer, and produces, besides its
      completion and the new module state, the trace of the waits it
      requested and of the attempts it made with their outcomes.
    - Exceptions are the [Throw] constructor of [completion]; what is
      thrown is [null] or [undefined], or a value whose [message] is a
      string or absent.
    - The URL helpers of [youtube-transcript.ts] and the three API routes
      ([transcript], [download], [search-youtube]) follow the renderer and
      the resolver.  Regular expressions are run by a backtracking matcher
      for the fragment the repository writes; a route takes its query
      parameters (or the outcome of reading its body) and answers with a
      [Response].
    - Of the extractor component, the three helpers that do not touch the
      user interface: its URL check, its file-name sanitiser, and
      [fetchWithRetry], which runs against what each request resolves to or
      rejects with and produces the requests sent and the delays asked
      for. *)

From Stdlib Require Import ZArith QArith Qminmax Qpower List String Ascii Bool Lia.
From Stdlib Require Import Floats.SpecFloat Numbers.DecimalString.
From Stdlib Require Import Lqa.
Import ListNotations.

Local Open Scope string_scope.
Local Open Scope Z_scope.

(** ** Completions: a value or a thrown [Error] with its message *)

(** What a program throws, as far as a [catch] that reads
    [error.message] can tell: [null] and [undefined], of which no property
    can be read, and every other value, with its [message] property when
    that is a string ([None] when the value has none). *)
Inductive thrown : Type :=
| Value (message : option string)
| Nullish (null : bool).

(** A message stands for a value thrown with it: [Throw (Some m)] is
    [Throw (Value (Some m))]. *)
#[warning="-uniform-inheritance"]
Coercion Value : option >-> thrown.

Inductive completion (A : Type) : Type :=
| Return (a : A)
| Throw (error : thrown).
Arguments Return {A} a.
Arguments Throw {A} error.

(** [throw new Error(message)] *)
Definition Error {A} (message : string) : completion A := Throw (Some message).

(** Reading [error.property] when [error] is [null] or [undefined] throws a
    [TypeError]; this is its message, in the wording of V8, the engine of
    Node.js. *)
Definition cannotRead (null : bool) (property : string) : string :=
  "Cannot read properties of " ++ (if null then "null" else "undefined")
  ++ " (reading '" ++ property ++ "')".

Definition throws {A} (c : completion A) : Prop :=
  exists message, c = Throw message.

Definition throwsb {A} (c : completion A) : bool :=
  match c with Throw _ => true | Return _ => false end.

(** ** Strings *)

Module JSString.

(** WhiteSpace and LineTerminator code units below 256: TAB, LF, VT, FF, CR,
    SP and NBSP. *)
Definition isWhiteSpace (c : ascii) : bool :=
  let n := N_of_ascii c in
  ((9 <=? n) && (n <=? 13) || (n =? 32) || (n =? 160))%N.

Fixpoint trimStart (s : string) : string :=
  match s with
  | EmptyString => EmptyString
  | String c r => if isWhiteSpace c then trimStart r else s
  end.

Fixpoint trimEnd (s : string) : string :=
  match s with
  | EmptyString => EmptyString
  | String c r =>
      match trimEnd r with
      | EmptyString => if isWhiteSpace c then EmptyString else String c EmptyString
      | r' => String c r'
      end
  end.

(** [String.prototype.trim] *)
Definition trim (s : string) : string := trimEnd (trimStart s).

(** [s] is truthy as a JavaScript value: it is not the empty string. *)
Definition truthy (s : string) : bool :=
  match s with EmptyString => false | _ => true end.

Definition lowerChar (c : ascii) : ascii :=
  let n := N_of_ascii c in
  if ((65 <=? n) && (n <=? 90)
      || (192 <=? n) && (n <=? 222) && negb (n =? 215))%N
  then ascii_of_N (n + 32) else c.

(** [String.prototype.toLowerCase] *)
Fixpoint toLowerCase (s : string) : string :=
  match s with
  | EmptyString => EmptyString
  | String c r => String (lowerChar c) (toLowerCase r)
  end.

(** [String.prototype.includes] *)
Fixpoint includes (s pat : string) : bool :=
  prefix pat s ||
  match s with
  | EmptyString => false
  | String _ r => includes r pat
  end.

(** [Array.prototype.join] on an array of strings *)
Definition join (sep : string) (l : list string) : string := concat sep l.

Fixpoint repeatTo (fill : string) (cur : string) (n : nat) : string :=
  match n with
  | O => EmptyString
  | S n' =>
      match cur with
      | EmptyString =>
          match fill with
          | EmptyString => EmptyString
          | String c r => String c (repeatTo fill r n')
          end
      | String c r => String c (repeatTo fill r n')
      end
  end.

(** [String.prototype.padStart] *)
Definition padStart (s : string) (targetLength : nat) (fill : string) : string :=
  if (targetLength <=? length s)%nat then s
  else repeatTo fill fill (targetLength - length s) ++ s.

(** [s.replace(/c/g, by)] for a one-character pattern *)
Fixpoint replaceAll (c : ascii) (by_ : string) (s : string) : string :=
  match s with
  | EmptyString => EmptyString
  | String d r =>
      if Ascii.eqb c d then by_ ++ replaceAll c by_ r
      else String d (replaceAll c by_ r)
  end.

(** Decimal numeral of a natural number, as [Number.prototype.toString]
    prints a non-negative integer. *)
Definition ofN (n : N) : string := NilZero.string_of_uint (N.to_uint n).

Definition LF : string := String (ascii_of_N 10) EmptyString.

End JSString.

(** ** Numbers: IEEE 754 binary64 *)

Module JSNumber.

Definition number : Type := spec_float.

Definition prec : Z := 53.
Definition emax : Z := 1024.

(** The Number value of an integer (round to nearest, ties to even). *)
Definition ofZ (z : Z) : number := binary_normalize prec emax z 0 false.

Definition add : number -> number -> number := SFadd prec emax.
Definition sub : number -> number -> number := SFsub prec emax.
Definition mul : number -> number -> number := SFmul prec emax.
Definition div : number -> number -> number := SFdiv prec emax.
Definition ltb : number -> number -> bool := SFltb.

Definition zero : number := S754_zero false.

(** A decimal literal [m / 10^k] denotes the Number value nearest to it;
    the correctly rounded quotient of two exactly representable integers
    is that value. *)
Definition literal (m : Z) (scale : Z) : number := div (ofZ m) (ofZ scale).

(** [x] is falsy: [+0], [-0] or [NaN]. *)
Definition falsy (x : number) : bool :=
  match x with
  | S754_zero _ | S754_nan => true
  | _ => false
  end.

(** [Math.floor] *)
Definition floor (x : number) : number :=
  match x with
  | S754_finite s m e =>
      if 0 <=? e then x
      else
        match Z.shiftr (cond_Zopp s (Zpos m)) (- e) with
        | Z0 => S754_zero s
        | q => ofZ q
        end
  | _ => x
  end.

(** The [%] operator: the remainder has the sign of the dividend and is
    computed exactly. *)
Definition rem (x y : number) : number :=
  match x, y with
  | S754_nan, _ | _, S754_nan => S754_nan
  | S754_infinity _, _ => S754_nan
  | _, S754_zero _ => S754_nan
  | S754_zero _, _ => x
  | _, S754_infinity _ => x
  | S754_finite sx mx ex, S754_finite _ my ey =>
      let e0 := Z.min ex ey in
      let X := Zpos mx * 2 ^ (ex - e0) in
      let Y := Zpos my * 2 ^ (ey - e0) in
      match Z.rem X Y with
      | Z0 => S754_zero sx
      | r => binary_normalize prec emax (cond_Zopp sx r) e0 false
      end
  end.

(** [Math.max(a, b)] *)
Definition max (a b : number) : number :=
  match a, b with
  | S754_nan, _ | _, S754_nan => S754_nan
  | S754_zero sa, S754_zero sb => S754_zero (sa && sb)
  | _, _ => if SFltb a b then b else a
  end.

(** The integer a finite Number denotes, when it denotes one. *)
Definition toInteger (x : number) : option Z :=
  match x with
  | S754_zero _ => Some 0
  | S754_finite s m e =>
      if 0 <=? e then Some (cond_Zopp s (Zpos m * 2 ^ e))
      else if Zpos m mod 2 ^ (- e) =? 0
           then Some (cond_Zopp s (Zpos m / 2 ^ (- e)))
           else None
  | _ => None
  end.

Section ToString.

(** [Number::toString] on the values that are not integers of magnitude
    below 2^53 (shortest round-trip digits, exponent notation) is left to
    the platform.  Below 2^53 every integer is a Number, and its shortest
    round-trip digits are its decimal digits. *)
Variable toStringOther : number -> string.

(** [Number.prototype.toString] *)
Definition toString (x : number) : string :=
  match x with
  | S754_nan => "NaN"
  | S754_infinity false => "Infinity"
  | S754_infinity true => "-Infinity"
  | S754_zero _ => "0"
  | S754_finite _ _ _ =>
      match toInteger x with
      | Some z =>
          if Z.abs z <? 2 ^ 53
          then (if z <? 0 then "-" else "") ++ JSString.ofN (Z.abs_N z)
          else toStringOther x
      | None => toStringOther x
      end
  end.

End ToString.

End JSNumber.

(** ** JavaScript values, as far as the renderer inspects them *)

Module JSValue.

Import JSNumber.

Inductive value : Type :=
| VUndefined
| VNull
| VBoolean (b : bool)
| VNumber (x : number)
| VString (s : string)
| VObject.

(** The [typeof] operator *)
Definition typeof (v : value) : string :=
  match v with
  | VUndefined => "undefined"
  | VNull => "object"
  | VBoolean _ => "boolean"
  | VNumber _ => "number"
  | VString _ => "string"
  | VObject => "object"
  end.

(** [ToBoolean] *)
Definition toBoolean (v : value) : bool :=
  match v with
  | VUndefined | VNull => false
  | VBoolean b => b
  | VNumber x => negb (falsy x)
  | VString s => JSString.truthy s
  | VObject => true
  end.

End JSValue.

(** ** The format renderer: [transcript-formatter.ts] *)

Module Formatter.

Import JSString JSNumber JSValue.

(** [interface TranscriptSegment] *)
Record TranscriptSegment : Type := {
  text : string;
  offset : number;
  duration : number
}.

(** A segment as it arrives at run time: an object whose three properties
    hold arbitrary values. *)
Record SegmentObject : Type := {
  text_ : value;
  offset_ : value;
  duration_ : value
}.

Definition toObject (s : TranscriptSegment) : SegmentObject :=
  {| text_ := VString (text s);
     offset_ := VNumber (offset s);
     duration_ := VNumber (duration s) |}.

(** Reading an object at the declared type [TranscriptSegment]. *)
Definition asSegment (o : SegmentObject) : option TranscriptSegment :=
  match text_ o, offset_ o, duration_ o with
  | VString t, VNumber off, VNumber dur =>
      Some {| text := t; offset := off; duration := dur |}
  | _, _, _ => None
  end.

Fixpoint asSegments (l : list SegmentObject) : option (list TranscriptSegment) :=
  match l with
  | [] => Some []
  | o :: r =>
      match asSegment o, asSegments r with
      | Some s, Some r' => Some (s :: r')
      | _, _ => None
      end
  end.

(** [array.map((element, index) => f(element, index))] *)
Fixpoint mapIndexFrom {A B} (f : A -> nat -> B) (index : nat) (l : list A) : list B :=
  match l with
  | [] => []
  | a :: r => f a index :: mapIndexFrom f (S index) r
  end.

Definition mapIndex {A B} (f : A -> nat -> B) (l : list A) : list B :=
  mapIndexFrom f 0 l.

Definition DQUOTE : string := String (ascii_of_N 34) EmptyString.

Section Render.

(** The platform's [Number::toString] outside the integers below 2^53,
    and [JSON.stringify(transcript, null, 2)]. *)
Variable toStringOther : number -> string.
Variable JSON_stringify : list TranscriptSegment -> string.

Definition str (x : number) : string := toString toStringOther x.

(** [formatTime(seconds, vtt = false)] *)
Definition formatTime (seconds : number) (vtt : bool) : string :=
  let hours := floor (div seconds (ofZ 3600)) in
  let minutes := floor (div (rem seconds (ofZ 3600)) (ofZ 60)) in
  let secs := floor (rem seconds (ofZ 60)) in
  let ms := floor (mul (rem seconds (ofZ 1)) (ofZ 1000)) in
  if vtt then
    padStart (str hours) 2 "0" ++ ":" ++ padStart (str minutes) 2 "0" ++ ":"
      ++ padStart (str secs) 2 "0" ++ "." ++ padStart (str ms) 3 "0"
  else
    padStart (str hours) 2 "0" ++ ":" ++ padStart (str minutes) 2 "0" ++ ":"
      ++ padStart (str secs) 2 "0" ++ "," ++ padStart (str ms) 3 "0".

Definition formatAsTxt (transcript : list TranscriptSegment) : string :=
  join (LF ++ LF) (map (fun segment => trim (text segment)) transcript).

Definition formatAsJson (transcript : list TranscriptSegment) : string :=
  JSON_stringify transcript.

Definition formatAsCsv (transcript : list TranscriptSegment) : string :=
  let headers := "Start Time,Duration,Text" ++ LF in
  let rows :=
    map (fun segment =>
           let startTime := formatTime (offset segment) false in
           let duration := formatTime (duration segment) false in
           let text :=
             trim (replaceAll (ascii_of_N 10) " "
                     (replaceAll (ascii_of_N 34) (DQUOTE ++ DQUOTE) (text segment))) in
           startTime ++ "," ++ duration ++ "," ++ DQUOTE ++ text ++ DQUOTE)
        transcript in
  headers ++ join LF rows.

Definition formatAsSrt (transcript : list TranscriptSegment) : string :=
  join LF
    (mapIndex
       (fun segment index =>
          let startTime := formatTime (offset segment) false in
          let endTime := formatTime (add (offset segment) (duration segment)) false in
          let text := trim (text segment) in
          ofN (N.of_nat (index + 1)) ++ LF ++ startTime ++ " --> " ++ endTime ++ LF
            ++ text ++ LF)
       transcript).

Definition formatAsVtt (transcript : list TranscriptSegment) : string :=
  let header := "WEBVTT" ++ LF ++ LF in
  let cues :=
    mapIndex
      (fun segment index =>
         let startTime := formatTime (offset segment) true in
         let endTime := formatTime (add (offset segment) (duration segment)) true in
         let text := trim (text segment) in
         startTime ++ " --> " ++ endTime ++ LF ++ text)
      transcript in
  header ++ join (LF ++ LF) cues.

(** One round of the [forEach] callback: the message of the error it
    throws on [segment], if it throws. *)
Definition checkSegment (segment : SegmentObject) (index : nat) : option string :=
  if negb (toBoolean (text_ segment))
     || negb (typeof (text_ segment) =? "string")%string
  then Some ("Invalid text in segment " ++ ofN (N.of_nat index))
  else if negb (typeof (duration_ segment) =? "number")%string
          || match duration_ segment with VNumber x => ltb x zero | _ => false end
  then Some ("Invalid duration in segment " ++ ofN (N.of_nat index))
  else if negb (typeof (offset_ segment) =? "number")%string
          || match offset_ segment with VNumber x => ltb x zero | _ => false end
  then Some ("Invalid offset in segment " ++ ofN (N.of_nat index))
  else None.

(** [transcript.forEach((segment, index) => { ... throw ... })]: the first
    error thrown, in index order. *)
Fixpoint checkFrom (index : nat) (transcript : list SegmentObject) : option string :=
  match transcript with
  | [] => None
  | segment :: rest =>
      match checkSegment segment index with
      | Some message => Some message
      | None => checkFrom (S index) rest
      end
  end.

(** The [switch (format.toLowerCase())] of [formatTranscript]. *)
Definition dispatch (transcript : list TranscriptSegment) (format : string) : string :=
  let f := toLowerCase format in
  if (f =? "txt")%string then formatAsTxt transcript
  else if (f =? "json")%string then formatAsJson transcript
  else if (f =? "csv")%string then formatAsCsv transcript
  else if (f =? "srt")%string then formatAsSrt transcript
  else if (f =? "vtt")%string then formatAsVtt transcript
  else formatAsTxt transcript.

(** [formatTranscript(transcript, format)].  The formatters are typed on
    [TranscriptSegment]; reading a property at the wrong type there (as in
    [segment.text.trim()] on a non-string) is a [TypeError]. *)
Definition formatTranscript (transcript : list SegmentObject) (format : string)
  : completion string :=
  match transcript with
  | [] => Error "Empty transcript provided"
  | _ =>
      match checkFrom 0 transcript with
      | Some message => Error message
      | None =>
          match asSegments transcript with
          | Some segments => Return (dispatch segments format)
          | None => Error "TypeError"
          end
      end
  end.

End Render.

End Formatter.

(** ** The rate limiter and the transcript resolver: [youtube-transcript.ts] *)

Module Resolver.

Import JSString JSNumber Formatter.

(** *** The collaborators *)

(** An element of the array [YoutubeTranscript.fetchTranscript] resolves
    to; a property that is [undefined] is [None]. *)
Record TranscriptResponse : Type := {
  response_text : option string;
  response_offset : option number;
  response_duration : option number
}.

(** What [fetchTranscriptWithYoutubeI] reads of the object that
    [info.getTranscript()] resolves to. *)
Record Run : Type := { run_text : option string }.

Record Snippet : Type := {
  snippet_text : option string;
  snippet_runs : option (list Run)
}.

Inductive Item : Type :=
| Primitive
| Node (type : option string) (snippet : option Snippet)
       (start_ms end_ms : option string).

(** Each field is the array found at that path, [None] when the path does
    not lead to an array; [elements] is the object itself when it is an
    array. *)
Record TranscriptObject : Type := {
  body_content : option (list Item);
  transcript_content_body_initial_segments : option (list Item);
  content : option (list Item);
  elements : option (list Item)
}.

(** One resolution runs against an environment: the successive readings
    of the clock, the answer of strategy A ([youtube-transcript]) to each
    argument, and the answer of strategy B ([youtubei.js]: [create],
    [getInfo] and [getTranscript] in sequence) to each video id. *)
Record Environment : Type := {
  Date_now : nat -> Z;
  fetchTranscript : string -> completion (option (list TranscriptResponse));
  getTranscript : string -> completion (option TranscriptObject)
}.

(** *** Module state and observable events *)

Record World : Type := {
  lastRequestTime : Z;
  consecutiveFailures : Z;
  clockReads : nat
}.

Inductive Event : Type :=
| Wait (ms : Q)
| AttemptA (argument : string)
           (outcome : completion (option (list TranscriptResponse)))
| AttemptB (videoId : string) (outcome : completion (list TranscriptSegment)).

Definition isAttempt (e : Event) : bool :=
  match e with Wait _ => false | _ => true end.

Definition attempts (events : list Event) : list Event := filter isAttempt events.

(** Computations: state passing, with the events emitted and a completion. *)
Definition M (A : Type) : Type := World -> completion A * World * list Event.

Definition ret {A} (a : A) : M A := fun w => (Return a, w, []).

Definition throw {A} (message : option string) : M A := fun w => (Throw message, w, []).

Definition bind {A B} (m : M A) (k : A -> M B) : M B :=
  fun w =>
    match m w with
    | (Return a, w', ev) => let '(r, w'', ev') := k a w' in (r, w'', (ev ++ ev')%list)
    | (Throw e, w', ev) => (Throw e, w', ev)
    end.

Definition tryCatch {A} (body : M A) (handler : thrown -> M A) : M A :=
  fun w =>
    match body w with
    | (Throw e, w', ev) => let '(r, w'', ev') := handler e w' in (r, w'', (ev ++ ev')%list)
    | done => done
    end.

Notation "x <- m ;; k" := (bind m (fun x => k))
  (at level 61, m at next level, right associativity).
Notation "m ;;; k" := (bind m (fun _ => k))
  (at level 61, right associativity).

Definition emit (e : Event) : M unit := fun w => (Return tt, w, [e]).

Definition getFailures : M Z := fun w => (Return (consecutiveFailures w), w, []).

Definition setFailures (n : Z) : M unit :=
  fun w => (Return tt,
            {| lastRequestTime := lastRequestTime w;
               consecutiveFailures := n;
               clockReads := clockReads w |}, []).

Definition getLastRequestTime : M Z := fun w => (Return (lastRequestTime w), w, []).

Definition setLastRequestTime (t : Z) : M unit :=
  fun w => (Return tt,
            {| lastRequestTime := t;
               consecutiveFailures := consecutiveFailures w;
               clockReads := clockReads w |}, []).

(** [RATE_LIMIT_CONFIG] *)
Definition baseDelay : Q := 500.
Definition maxDelay : Q := 5000.
Definition maxRetries : Z := 3.
Definition backoffMultiplier : Q := 3 # 2.

(** [baseDelay * Math.pow(backoffMultiplier, consecutiveFailures)] capped
    at [maxDelay].  Up to five failures the product is a multiple of 1/8
    below 5000, which binary64 holds exactly; from six failures on it
    exceeds 5000 and the minimum is [maxDelay]. *)
Definition dynamicDelay (failures : Z) : Q :=
  Qmin (baseDelay * backoffMultiplier ^ failures) maxDelay.

Definition errorMessage (videoId : string) : string :=
  "No transcript available for video " ++ videoId ++ ". This could be because:" ++ LF
  ++ "- The video doesn't have captions enabled" ++ LF
  ++ "- The video is private, restricted, or unavailable  " ++ LF
  ++ "- Transcripts are disabled by the video owner" ++ LF
  ++ "- There's a temporary issue with YouTube's caption service" ++ LF
  ++ LF
  ++ "Please try a different video or check if the video has captions available on YouTube directly.".

(** [parseInt(string)]: leading white space, a sign, [0x] for radix 16,
    then the longest run of digits; [NaN] when there is none.  The
    mathematical value is rounded to the nearest Number, as engines do
    (ECMAScript lets them approximate beyond the twentieth digit). *)
Definition digitValue (radix : Z) (c : ascii) : option Z :=
  let n := Z.of_N (N_of_ascii c) in
  let d := if (48 <=? n) && (n <=? 57) then n - 48
           else if (97 <=? n) && (n <=? 122) then n - 87
           else if (65 <=? n) && (n <=? 90) then n - 55
           else radix in
  if d <? radix then Some d else None.

Fixpoint digitsFrom (radix : Z) (acc : option Z) (s : string) : option Z :=
  match s with
  | EmptyString => acc
  | String c r =>
      match digitValue radix c with
      | Some d =>
          digitsFrom radix (Some (match acc with Some a => a * radix + d | None => d end)) r
      | None => acc
      end
  end.

Definition parseInt (input : string) : number :=
  let s := trimStart input in
  let '(negative, s) :=
    match s with
    | String "-" r => (true, r)
    | String "+" r => (false, r)
    | _ => (false, s)
    end in
  let '(radix, s) :=
    match s with
    | String "0" (String "x" r) => (16, r)
    | String "0" (String "X" r) => (16, r)
    | _ => (10, s)
    end in
  match digitsFrom radix None s with
  | None => S754_nan
  | Some 0 => S754_zero negative
  | Some v => ofZ (if negative then - v else v)
  end.

Section Run.

Variable env : Environment.

(** [Date.now()] *)
Definition now : M Z :=
  fun w => (Return (Date_now env (clockReads w)),
            {| lastRequestTime := lastRequestTime w;
               consecutiveFailures := consecutiveFailures w;
               clockReads := S (clockReads w) |}, []).

(** [smartRateLimit()] *)
Definition smartRateLimit : M unit :=
  now_ <- now ;;
  failures <- getFailures ;;
  let delay := dynamicDelay failures in
  last <- getLastRequestTime ;;
  let timeSinceLastRequest := inject_Z (now_ - last) in
  (if Qlt_le_dec timeSinceLastRequest delay
   then let waitTime := (delay - timeSinceLastRequest)%Q in emit (Wait waitTime)
   else ret tt) ;;;
  t <- now ;;
  setLastRequestTime t.

(** The text of one item: [snippet.text] when truthy, else the texts of
    [snippet.runs] joined. *)
Definition itemText (snippet : option Snippet) : string :=
  match snippet with
  | None => ""
  | Some sn =>
      match snippet_text sn with
      | Some ((String _ _) as t) => t
      | _ =>
          match snippet_runs sn with
          | Some runs =>
              join "" (map (fun run => match run_text run with
                                       | Some ((String _ _) as t) => t
                                       | _ => ""
                                       end) runs)
          | None => ""
          end
      end
  end.

Definition orString (v : option string) (default : string) : string :=
  match v with Some ((String _ _) as s) => s | _ => default end.

(** The body of the [for (const item of transcriptContent)] loop. *)
Definition segmentOfItem (item : Item) : option TranscriptSegment :=
  match item with
  | Node (Some "TranscriptSegment") snippet start_ms end_ms =>
      let text := itemText snippet in
      let startMs := parseInt (orString start_ms "0") in
      let endMs := parseInt (orString end_ms "0") in
      let durationMs := sub endMs startMs in
      if truthy text && truthy (trim text)
      then Some {| text := trim text;
                   offset := floor (div startMs (ofZ 1000));
                   duration := floor (div durationMs (ofZ 1000)) |}
      else None
  | _ => None
  end.

Fixpoint collectSegments (items : list Item) : list TranscriptSegment :=
  match items with
  | [] => []
  | item :: rest =>
      match segmentOfItem item with
      | Some segment => segment :: collectSegments rest
      | None => collectSegments rest
      end
  end.

(** The array the shape probes of [fetchTranscriptWithYoutubeI] settle on. *)
Definition transcriptContent (transcriptObj : TranscriptObject) : list Item :=
  match body_content transcriptObj with
  | Some items => items
  | None =>
      match transcript_content_body_initial_segments transcriptObj with
      | Some items => items
      | None =>
          match content transcriptObj with
          | Some items => items
          | None =>
              match elements transcriptObj with
              | Some items => items
              | None => []
              end
          end
      end
  end.

(** [fetchTranscriptWithYoutubeI(videoId)], without its event. *)
Definition parseYoutubeI (videoId : string) : completion (list TranscriptSegment) :=
  match getTranscript env videoId with
  | Throw e => Throw e
  | Return None => Error "No transcript data returned from youtubei.js"
  | Return (Some transcriptObj) =>
      match transcriptContent transcriptObj with
      | [] => Error "No transcript content found in response"
      | items => Return (collectSegments items)
      end
  end.

Definition fetchTranscriptWithYoutubeI (videoId : string) : M (list TranscriptSegment) :=
  fun w => (parseYoutubeI videoId, w, [AttemptB videoId (parseYoutubeI videoId)]).

(** [await YoutubeTranscript.fetchTranscript(argument)] *)
Definition callFetchTranscript (argument : string)
  : M (option (list TranscriptResponse)) :=
  fun w => (fetchTranscript env argument, w,
            [AttemptA argument (fetchTranscript env argument)]).

Definition orZero (v : option number) : number :=
  match v with
  | Some x => if falsy x then zero else x
  | None => zero
  end.

(** The callback of [transcript.map] in [getYouTubeTranscript]. *)
Definition formatSegment (segment : TranscriptResponse) : TranscriptSegment :=
  {| text := match response_text segment with
             | Some t => if truthy (trim t) then trim t else ""
             | None => ""
             end;
     offset := max zero (orZero (response_offset segment));
     duration := max zero (orZero (response_duration segment)) |}.

(** [consecutiveFailures = Math.max(0, consecutiveFailures - 1)] *)
Definition decrementFailures : M unit :=
  failures <- getFailures ;;
  setFailures (Z.max 0 (failures - 1)).

(** The body of a [try] around strategy A: the formatted transcript when
    the answer is a non-empty array. *)
Definition tryStrategyA (argument : string) : M (option (list TranscriptSegment)) :=
  transcript <- callFetchTranscript argument ;;
  match transcript with
  | Some ((_ :: _) as segments) =>
      decrementFailures ;;;
      ret (Some (map formatSegment segments))
  | _ => ret None
  end.

(** The tests of the [catch] of the first attempt on [error.message]:
    the message it throws instead, if any. *)
Definition permanentFailure (message : option string) : option string :=
  match message with
  | None => None
  | Some m =>
      if includes m "Transcript is disabled"
      then Some "Transcripts are disabled for this video"
      else if includes m "Video unavailable"
      then Some "Video is unavailable or has been removed"
      else if includes m "private"
      then Some "Video is private or restricted"
      else None
  end.

Definition urlFormats (videoId : string) : list string :=
  [ "https://www.youtube.com/watch?v=" ++ videoId;
    "https://youtu.be/" ++ videoId ].

(** The [for] loop over [urlFormats]. *)
Fixpoint tryUrlFormats (urls : list string) : M (option (list TranscriptSegment)) :=
  match urls with
  | [] => ret None
  | url :: rest =>
      found <- tryCatch (smartRateLimit ;;; tryStrategyA url) (fun _ => ret None) ;;
      match found with
      | Some transcript => ret (Some transcript)
      | None => tryUrlFormats rest
      end
  end.

(** [getYouTubeTranscript(videoId)] *)
Definition getYouTubeTranscript (videoId : string) : M (list TranscriptSegment) :=
  startTime <- now ;;
  if negb (truthy videoId) then throw (Some "Invalid video ID provided")
  else
    smartRateLimit ;;;
    first <- tryCatch (tryStrategyA videoId)
               (fun error =>
                  match error with
                  | Nullish null => throw (Some (cannotRead null "message"))
                  | Value message =>
                      match permanentFailure message with
                      | Some mapped => throw (Some mapped)
                      | None => ret None
                      end
                  end) ;;
    match first with
    | Some transcript => ret transcript
    | None =>
        second <- tryCatch
                    (smartRateLimit ;;;
                     youtubeITranscript <- fetchTranscriptWithYoutubeI videoId ;;
                     match youtubeITranscript with
                     | _ :: _ =>
                         decrementFailures ;;;
                         ret (Some youtubeITranscript)
                     | [] => ret None
                     end)
                    (fun _ => ret None) ;;
        match second with
        | Some transcript => ret transcript
        | None =>
            third <- tryUrlFormats (urlFormats videoId) ;;
            match third with
            | Some transcript => ret transcript
            | None =>
                failures <- getFailures ;;
                setFailures (failures + 1) ;;;
                finish <- now ;;
                let processingTime := finish - startTime in
                throw (Some (errorMessage videoId))
            end
        end
    end.

End Run.

(** Successive resolutions, each against its own environment. *)
Fixpoint resolveAll (requests : list (Environment * string)) (w : World) : World :=
  match requests with
  | [] => w
  | (env, videoId) :: rest =>
      let '(_, w', _) := getYouTubeTranscript env videoId w in
      resolveAll rest w'
  end.

End Resolver.

(** * Specification-side definitions *)

Module Spec.

Import JSString JSNumber JSValue Formatter Resolver.

(** ** Renderer *)

(** "a non-string or falsy text" *)
Definition invalidText (v : value) : Prop :=
  (forall s, v <> VString s) \/ toBoolean v = false.

(** "a non-number or negative duration / offset" *)
Definition invalidNumber (v : value) : Prop :=
  (forall x, v <> VNumber x) \/ (exists x, v = VNumber x /\ ltb x zero = true).

Definition invalidSegment (o : SegmentObject) : Prop :=
  invalidText (text_ o) \/ invalidNumber (duration_ o) \/ invalidNumber (offset_ o).

(** A validation-passing segment list. *)
Definition valid (transcript : list SegmentObject) : Prop :=
  transcript <> [] /\ Forall (fun o => ~ invalidSegment o) transcript.

Definition knownFormats : list string := ["txt"; "json"; "csv"; "srt"; "vtt"].

(** "trimmed text" *)
Definition trimmed (s : string) : Prop := trim s = s.

(** A non-empty string made of white space only. *)
Definition blank (s : string) : Prop :=
  s <> "" /\ Forall (fun c => isWhiteSpace c = true) (list_ascii_of_string s).

(** A typed segment that passes validation. *)
Definition wellTyped (s : TranscriptSegment) : Prop :=
  text s <> "" /\ ltb (duration s) zero = false /\ ltb (offset s) zero = false.

(** *** Reading a rendering back

    An SRT or WebVTT document is read by lines, and its lines in blocks:
    the maximal runs of non-empty lines, which empty lines separate. *)

(** The lines of a text: what stands between its line feeds. *)
Fixpoint lines (s : string) : list string :=
  match s with
  | EmptyString => [EmptyString]
  | String c r =>
      if Ascii.eqb c (ascii_of_N 10) then EmptyString :: lines r
      else match lines r with
           | l :: more => String c l :: more
           | [] => [String c EmptyString]
           end
  end.

(** The runs of lines between empty lines, empty runs included. *)
Fixpoint groups (ls : list string) : list (list string) :=
  match ls with
  | [] => [[]]
  | l :: more =>
      match l with
      | EmptyString => [] :: groups more
      | String _ _ =>
          match groups more with
          | g :: gs => (l :: g) :: gs
          | [] => [[l]]
          end
      end
  end.

Definition blocks (document : string) : list (list string) :=
  filter (fun g => match g with [] => false | _ :: _ => true end)
    (groups (lines document)).

(** Every character of the string passes the test. *)
Definition every (p : ascii -> bool) (s : string) : bool :=
  forallb p (list_ascii_of_string s).

(** The string holds no line feed. *)
Definition oneLine (s : string) : bool :=
  every (fun c => negb (Ascii.eqb c (ascii_of_N 10))) s.

(** The characters of a line [start --> end]. *)
Definition timingChar (c : ascii) : bool :=
  existsb (Ascii.eqb c) (list_ascii_of_string "0123456789:,. ->").

(** *** The time format

    "[HH:MM:SS] (two-digit, zero-padded, unbounded hours) plus
    milliseconds, separated by [,] for SRT/CSV style or [.] for VTT style,
    milliseconds zero-padded to 3 digits". *)

Fixpoint zeros (n : nat) : string :=
  match n with
  | O => EmptyString
  | S n' => String "0" (zeros n')
  end.

(** A numeral padded with zeros on the left to at least [width] digits. *)
Definition zeroPad (width : nat) (numeral : string) : string :=
  zeros (width - String.length numeral) ++ numeral.

Definition clock (separator : string) (fields : N * N * N * N) : string :=
  let '(hours, minutes, seconds, milliseconds) := fields in
  zeroPad 2 (ofN hours) ++ ":" ++ zeroPad 2 (ofN minutes) ++ ":"
  ++ zeroPad 2 (ofN seconds) ++ separator ++ zeroPad 3 (ofN milliseconds).

(** The whole number a Number is, when it is one from 0 to below 2^53. *)
Definition wholeNumber (x : number) : option N :=
  match toInteger x with
  | Some z => if (0 <=? z) && (z <? 2 ^ 53) then Some (Z.to_N z) else None
  | None => None
  end.

(** The hours, minutes, seconds and milliseconds that [formatTime] computes
    from a number of seconds, when all four are whole numbers.  (They are
    not when the number is [NaN] or [Infinity], which pass validation.) *)
Definition timeFields (seconds : number) : option (N * N * N * N) :=
  match wholeNumber (floor (div seconds (ofZ 3600))),
        wholeNumber (floor (div (rem seconds (ofZ 3600)) (ofZ 60))),
        wholeNumber (floor (rem seconds (ofZ 60))),
        wholeNumber (floor (mul (rem seconds (ofZ 1)) (ofZ 1000))) with
  | Some h, Some m, Some s, Some ms => Some (h, m, s, ms)
  | _, _, _, _ => None
  end.

(** The fields of a whole number of seconds, in integer arithmetic. *)
Definition wholeFields (n : Z) : N * N * N * N :=
  (Z.to_N (n / 3600), Z.to_N ((n mod 3600) / 60), Z.to_N (n mod 60), 0%N).

(** [timeFields] gives the fields of integer arithmetic at [n], and at the
    [count] whole numbers from [n] on. *)
Definition fieldsAgree (n : Z) : bool :=
  match timeFields (ofZ n) with
  | Some (h, m, s, ms) =>
      let '(h', m', s', ms') := wholeFields n in
      (h =? h')%N && (m =? m')%N && (s =? s')%N && (ms =? ms')%N
  | None => false
  end.

Fixpoint agreeFrom (count : nat) (n : Z) : bool :=
  match count with
  | O => true
  | S c => fieldsAgree n && agreeFrom c (n + 1)
  end.

(** The time in the format above; empty when the fields are not whole
    numbers. *)
Definition timestamp (separator : string) (seconds : number) : string :=
  match timeFields seconds with
  | Some fields => clock separator fields
  | None => EmptyString
  end.

(** A segment whose rendering can be read back: no line of its trimmed
    text is empty, and its start and end times have whole fields. *)
Definition legible (s : TranscriptSegment) : Prop :=
  Forall (fun l => l <> EmptyString) (lines (trim (text s)))
  /\ timeFields (offset s) <> None
  /\ timeFields (add (offset s) (duration s)) <> None.

(** Blocks written out with one empty line between consecutive blocks. *)
Fixpoint separated (bs : list (list string)) : list string :=
  match bs with
  | [] => []
  | [b] => b
  | b :: rest => b ++ EmptyString :: separated rest
  end.

(** A block in the sense of [blocks]: some lines, none of them empty. *)
Definition solid (b : list string) : Prop :=
  b <> [] /\ Forall (fun l => l <> EmptyString) b.

(** The line [start --> end] of a segment, "[end = offset + duration]". *)
Definition timing (separator : string) (s : TranscriptSegment) : string :=
  timestamp separator (offset s) ++ " --> "
  ++ timestamp separator (add (offset s) (duration s)).

(** The lines of the SRT block of the segment at [index]: "1-based
    sequence number, then [start --> end] using non-VTT time format, then
    text", with "[end = offset + duration]". *)
Definition srtBlock (index : nat) (s : TranscriptSegment) : list string :=
  ofN (N.of_nat (index + 1))
  :: timing "," s
  :: lines (trim (text s)).

(** ** Resolver *)

(** Strategy A "fails or returns an empty segment list". *)
Definition unsuccessfulA (o : completion (option (list TranscriptResponse))) : Prop :=
  match o with
  | Return (Some (_ :: _)) => False
  | _ => True
  end.

(** The first attempt "fails or returns an empty segment list" and the
    resolver goes on to the next: it resolves to no segment, or it rejects
    with a value other than [null] and [undefined] whose message holds none
    of the three substrings the [catch] looks for. *)
Definition passedOver (o : completion (option (list TranscriptResponse))) : Prop :=
  match o with
  | Return (Some (_ :: _)) => False
  | Return _ => True
  | Throw (Value message) => permanentFailure message = None
  | Throw (Nullish _) => False
  end.

(** Strategy B "fails or returns an empty segment list". *)
Definition unsuccessfulB (o : completion (list TranscriptSegment)) : Prop :=
  match o with
  | Return (_ :: _) => False
  | _ => True
  end.

(** The total requested waiting time of a trace. *)
Fixpoint waited (events : list Event) : Q :=
  match events with
  | [] => 0
  | Wait ms :: rest => ms + waited rest
  | _ :: rest => waited rest
  end.

(** One pacing step: the state it leaves and the wait it requests. *)
Definition paced (env : Environment) (w : World) : World :=
  {| lastRequestTime := Date_now env (S (clockReads w));
     consecutiveFailures := consecutiveFailures w;
     clockReads := S (S (clockReads w)) |}.

Definition pause (env : Environment) (w : World) : list Event :=
  if Qlt_le_dec (inject_Z (Date_now env (clockReads w) - lastRequestTime w))
                (dynamicDelay (consecutiveFailures w))
  then [Wait (dynamicDelay (consecutiveFailures w)
              - inject_Z (Date_now env (clockReads w) - lastRequestTime w))]
  else [].

End Spec.

(** * Example data *)

Module Examples.

Import JSString JSNumber JSValue Formatter Resolver.

Definition plainToString (x : number) : string := "".
Definition plainJson (t : list TranscriptSegment) : string := "".

Definition hello : TranscriptSegment :=
  {| text := " hello "; offset := ofZ 1; duration := ofZ 2 |}.

Definition world : TranscriptSegment :=
  {| text := "world"; offset := ofZ 3; duration := ofZ 4 |}.

Definition spaces : TranscriptSegment :=
  {| text := " "; offset := ofZ 7; duration := ofZ 1 |}.

(** A caption of two stanzas, and one whose duration is not a number. *)
Definition stanzas : TranscriptSegment :=
  {| text := "a" ++ LF ++ LF ++ "b"; offset := ofZ 1; duration := ofZ 2 |}.

Definition endless : TranscriptSegment :=
  {| text := "x"; offset := ofZ 0; duration := S754_nan |}.

Definition idle : World :=
  {| lastRequestTime := 0; consecutiveFailures := 0; clockReads := 0 |}.

Definition ticking (n : nat) : Z := 1000 + Z.of_nat n.

(** Strategy A reports an unavailable video. *)
Definition unavailable : Environment :=
  {| Date_now := ticking;
     fetchTranscript := fun _ => Throw (Some "Video unavailable");
     getTranscript := fun _ => Throw None |}.

(** Both strategies fail with transient errors. *)
Definition offline : Environment :=
  {| Date_now := ticking;
     fetchTranscript := fun _ => Throw (Some "fetch failed");
     getTranscript := fun _ => Throw (Some "fetch failed") |}.

(** Strategy A fails with a transient error; strategy B answers with one
    caption whose [end_ms] precedes its [start_ms]. *)
Definition reversedItem : Item :=
  Node (Some "TranscriptSegment")
       (Some {| snippet_text := Some "hi"; snippet_runs := None |})
       (Some "3000") (Some "1000").

Definition reversed : Environment :=
  {| Date_now := ticking;
     fetchTranscript := fun _ => Throw (Some "fetch failed");
     getTranscript := fun _ =>
       Return (Some {| body_content := None;
                       transcript_content_body_initial_segments := Some [reversedItem];
                       content := None;
                       elements := None |}) |}.

(** The same with a well-ordered caption, its text given as runs. *)
Definition forwardItem : Item :=
  Node (Some "TranscriptSegment")
       (Some {| snippet_text := None;
                snippet_runs := Some [ {| run_text := Some " good " |};
                                       {| run_text := None |};
                                       {| run_text := Some "day " |} ] |})
       (Some "1000") (Some "3000").

Definition forward : Environment :=
  {| Date_now := ticking;
     fetchTranscript := fun _ => Throw (Some "fetch failed");
     getTranscript := fun _ =>
       Return (Some {| body_content := None;
                       transcript_content_body_initial_segments :=
                         Some [Primitive; forwardItem;
                               Node (Some "TranscriptSectionHeader") None None None];
                       content := None;
                       elements := None |}) |}.

(** Strategy A answers the bare id with one caption. *)
Definition captioned : Environment :=
  {| Date_now := ticking;
     fetchTranscript := fun _ =>
       Return (Some [{| response_text := Some " hi ";
                        response_offset := Some (ofZ 1);
                        response_duration := Some (ofZ 2) |}]);
     getTranscript := fun _ => Throw None |}.

End Examples.

(** * Further code of the repository *)

(** ** Regular expressions, as far as the repository writes them

    A backtracking matcher for the fragment used: characters, classes,
    sequence, ordered alternation, greedy repetition of a class, capturing
    groups and the two anchors.  No flag is modelled: every expression
    below is written without flags, or with [g] in a [replace] that is
    modelled on its own. *)

Module RegExp.

Inductive pattern : Type :=
| Empty
| Char (c : ascii)
| Class (accepts : ascii -> bool)
| Seq (p q : pattern)
| Alt (p q : pattern)
| Star (accepts : ascii -> bool)
| Group (index : nat) (p : pattern)
| Start
| Finish.

(** A string literal inside an expression. *)
Fixpoint Lit (s : string) : pattern :=
  match s with
  | EmptyString => Empty
  | String c r => Seq (Char c) (Lit r)
  end.

(** [p{n}] *)
Fixpoint Times (n : nat) (p : pattern) : pattern :=
  match n with
  | O => Empty
  | S n' => Seq p (Times n' p)
  end.

(** [p?] *)
Definition Opt (p : pattern) : pattern := Alt p Empty.

(** [c+] for a class [c] *)
Definition Plus (accepts : ascii -> bool) : pattern :=
  Seq (Class accepts) (Star accepts).

(** Where the matcher stands: the index in the input, what is left of the
    input, and the groups captured so far. *)
Record state : Type := {
  position : nat;
  rest : string;
  captures : list (nat * string)
}.

(** Greedy [c*]: take as many characters as possible, give them back one
    by one while the continuation fails. *)
Fixpoint star {A} (accepts : ascii -> bool) (s : string) (pos : nat)
  (caps : list (nat * string)) (k : state -> option A) : option A :=
  let here := {| position := pos; rest := s; captures := caps |} in
  match s with
  | EmptyString => k here
  | String c r =>
      if accepts c
      then match star accepts r (S pos) caps k with
           | Some a => Some a
           | None => k here
           end
      else k here
  end.

Fixpoint run {A} (p : pattern) (st : state) (k : state -> option A) : option A :=
  match p with
  | Empty => k st
  | Char c =>
      match rest st with
      | String d r =>
          if Ascii.eqb c d
          then k {| position := S (position st); rest := r; captures := captures st |}
          else None
      | EmptyString => None
      end
  | Class accepts =>
      match rest st with
      | String d r =>
          if accepts d
          then k {| position := S (position st); rest := r; captures := captures st |}
          else None
      | EmptyString => None
      end
  | Seq p q => run p st (fun st' => run q st' k)
  | Alt p q =>
      match run p st k with
      | Some a => Some a
      | None => run q st k
      end
  | Star accepts => star accepts (rest st) (position st) (captures st) k
  | Group index p =>
      run p st
        (fun st' =>
           k {| position := position st';
                rest := rest st';
                captures :=
                  (index, substring 0 (position st' - position st) (rest st))
                  :: captures st' |})
  | Start => if (position st =? 0)%nat then k st else None
  | Finish =>
      match rest st with
      | EmptyString => k st
      | String _ _ => None
      end
  end.

(** The first match, scanning start positions from the left. *)
Fixpoint execFrom (p : pattern) (pos : nat) (s : string) : option state :=
  match run p {| position := pos; rest := s; captures := [] |} Some with
  | Some st => Some st
  | None =>
      match s with
      | EmptyString => None
      | String _ r => execFrom p (S pos) r
      end
  end.

(** [s.match(p)] and [p.exec(s)] for an expression without the [g] flag:
    the state at the end of the first match. *)
Definition exec (p : pattern) (s : string) : option state := execFrom p 0 s.

(** [p.test(s)] *)
Definition test (p : pattern) (s : string) : bool :=
  match exec p s with Some _ => true | None => false end.

(** [match[index]] *)
Fixpoint group (index : nat) (caps : list (nat * string)) : option string :=
  match caps with
  | [] => None
  | (i, s) :: more => if (i =? index)%nat then Some s else group index more
  end.

(** Character classes. *)
Definition inRange (lo hi : N) (c : ascii) : bool :=
  let n := N_of_ascii c in ((lo <=? n) && (n <=? hi))%N.

(** [[a-zA-Z0-9_-]] *)
Definition idChar (c : ascii) : bool :=
  inRange 97 122 c || inRange 65 90 c || inRange 48 57 c
  || Ascii.eqb c "_" || Ascii.eqb c "-".

(** [[^#\&\?]] *)
Definition notSeparator (c : ascii) : bool :=
  negb (Ascii.eqb c "#" || Ascii.eqb c "&" || Ascii.eqb c "?").

(** [.]: anything but a line terminator. *)
Definition dot (c : ascii) : bool :=
  negb (Ascii.eqb c (ascii_of_N 10) || Ascii.eqb c (ascii_of_N 13)).

(** [[&?]] *)
Definition ampersandOrQuestion (c : ascii) : bool :=
  Ascii.eqb c "&" || Ascii.eqb c "?".

End RegExp.

(** ** The URL helpers of [youtube-transcript.ts] *)

Module Urls.

Import JSString JSNumber RegExp.

(** [interface VideoInfo] *)
Module VideoInfo.

Record t : Type := {
  videoId : string;
  title : string;
  duration : number;
  thumbnail : string
}.

End VideoInfo.

(** [getVideoInfo(videoId)] *)
Definition getVideoInfo (videoId : string) : completion VideoInfo.t :=
  if negb (truthy videoId) then Error "Invalid video ID provided"
  else Return {| VideoInfo.videoId := videoId;
                 VideoInfo.title := "Video " ++ videoId;
                 VideoInfo.duration := ofZ 0;
                 VideoInfo.thumbnail := "https://img.youtube.com/vi/" ++ videoId
                                        ++ "/maxresdefault.jpg" |}.

(** The first expression of [extractVideoId]. *)
Definition videoUrlPattern : pattern :=
  Seq (Alt (Lit "youtube.com/watch?v=")
      (Alt (Lit "youtu.be/")
      (Alt (Lit "youtube.com/embed/")
      (Alt (Lit "youtube.com/v/")
      (Alt (Lit "m.youtube.com/watch?v=")
           (Seq (Lit "youtube.com/watch?") (Seq (Star dot) (Lit "&v="))))))))
      (Group 1 (Times 11 (Class notSeparator))).

(** [/^([a-zA-Z0-9_-]{11})$/] *)
Definition bareIdPattern : pattern :=
  Seq Start (Seq (Group 1 (Times 11 (Class idChar))) Finish).

(** [/^https?:\/\/(www\.)?(youtube\.com|youtu\.be|m\.youtube\.com)/] *)
Definition hostPattern : pattern :=
  Seq Start
    (Seq (Lit "http")
    (Seq (Opt (Char "s"))
    (Seq (Lit "://")
    (Seq (Opt (Group 1 (Lit "www.")))
         (Group 2 (Alt (Lit "youtube.com")
                  (Alt (Lit "youtu.be") (Lit "m.youtube.com")))))))).

(** [/[&?]list=([a-zA-Z0-9_-]+)/] *)
Definition playlistPattern : pattern :=
  Seq (Class ampersandOrQuestion) (Seq (Lit "list=") (Group 1 (Plus idChar))).

(** [url.match(pattern)] followed by [match[1]] *)
Definition firstGroup (p : pattern) (url : string) : option (option string) :=
  match exec p url with
  | Some st => Some (group 1 (captures st))
  | None => None
  end.

(** [extractVideoId(url)]; [None] is [null]. *)
Definition extractVideoId (url : string) : option string :=
  if negb (truthy url) then None
  else
    match firstGroup videoUrlPattern url with
    | Some found => found
    | None =>
        match firstGroup bareIdPattern url with
        | Some found => found
        | None => None
        end
    end.

(** [isValidYouTubeUrl(url)] *)
Definition isValidYouTubeUrl (url : string) : bool :=
  if negb (truthy url) then false
  else test hostPattern url || test bareIdPattern url.

(** [getYouTubeUrlType(url)] *)
Definition getYouTubeUrlType (url : string) : string :=
  if negb (truthy url) then "unknown"
  else if includes url "list=" then "playlist"
  else match extractVideoId url with
       | Some (String _ _) => "video"
       | _ => "unknown"
       end.

(** [extractPlaylistId(url)] *)
Definition extractPlaylistId (url : string) : option string :=
  if negb (truthy url) then None
  else
    match firstGroup playlistPattern url with
    | Some found => found
    | None => None
    end.

End Urls.

(** ** The route handlers that call the resolver, the renderer and the
       URL helpers *)

Module Routes.

Import JSString JSNumber JSValue Formatter Resolver RegExp Urls.

(** What a handler answers.  [Json] is [NextResponse.json] of an error
    object with its status; a property that is absent or [undefined] is
    [None].  The other three are the successful answers, of status 200. *)
Inductive Response : Type :=
| Json (status : Z) (error : string) (message details : option string)
| TranscriptJson (videoId : string) (transcript : list TranscriptSegment)
| Attachment (contentType contentDisposition contentLength body : string)
| VideoJson (videoId title url : string) (duration : number) (thumbnail : string).

Definition statusOf (r : Response) : Z :=
  match r with
  | Json status _ _ _ => status
  | _ => 200
  end.

(** [/^[a-zA-Z0-9_-]{11}$/], the test both [GET] handlers apply. *)
Definition idFormatPattern : pattern :=
  Seq Start (Seq (Times 11 (Class idChar)) Finish).

(** [error.message?.toLowerCase() || ""] *)
Definition lowered (message : option string) : string :=
  match message with
  | Some m => toLowerCase m
  | None => ""
  end.

(** The [catch] block of the download route. *)
Definition downloadCatch (message : option string) : Response :=
  let errorMessage := lowered message in
  if includes errorMessage "video is unavailable"
     || includes errorMessage "video is private"
     || includes errorMessage "video is restricted"
     || includes errorMessage "video has been removed"
  then Json 404 "Video unavailable" message None
  else if includes errorMessage "no transcript available"
          || includes errorMessage "captions are disabled"
          || includes errorMessage "captions or transcripts enabled"
          || includes errorMessage "transcript is disabled"
  then Json 404 "No transcript" message None
  else if includes errorMessage "live stream"
          || includes errorMessage "live video"
  then Json 400 "Live video" message None
  else if includes errorMessage "shorts"
  then Json 400 "Shorts" message None
  else if includes errorMessage "rate limit"
          || includes errorMessage "too many requests"
  then Json 429 "Rate limited" message None
  else Json 500 "Failed to download transcript" message None.

(** The [catch] block of the transcript route. *)
Definition transcriptCatch (message : option string) : Response :=
  let errorMessage := lowered message in
  if includes errorMessage "video is unavailable"
     || includes errorMessage "video is private"
     || includes errorMessage "video is restricted"
     || includes errorMessage "video has been removed"
  then Json 404 "Video unavailable" message None
  else if includes errorMessage "no transcript available"
          || includes errorMessage "captions are disabled"
          || includes errorMessage "captions or transcripts enabled"
          || includes errorMessage "transcript is disabled"
  then Json 404 "No transcript" message None
  else if includes errorMessage "live stream"
          || includes errorMessage "live video"
  then Json 400 "Live video" message None
  else if includes errorMessage "shorts"
  then Json 400 "Shorts" message None
  else if includes errorMessage "rate limit"
          || includes errorMessage "too many requests"
  then Json 429 "Rate limited" message None
  else if includes errorMessage "invalid youtube video id format"
  then Json 400 "Invalid format" message None
  else Json 500 "Server error"
         (Some "An unexpected error occurred while fetching the transcript")
         message.

(** [getContentType(format)] *)
Definition getContentType (format : string) : string :=
  let f := toLowerCase format in
  if (f =? "json")%string then "application/json"
  else if (f =? "csv")%string then "text/csv"
  else if (f =? "srt")%string then "application/x-subrip"
  else if (f =? "vtt")%string then "text/vtt"
  else "text/plain".

Definition validFormats : list string := ["txt"; "json"; "csv"; "srt"; "vtt"].

(** [array.includes(x)] on strings *)
Definition includesString (l : list string) (x : string) : bool :=
  existsb (String.eqb x) l.

(** [title.replace(/[^a-zA-Z0-9-_]/g, "_")] *)
Fixpoint sanitize (title : string) : string :=
  match title with
  | EmptyString => EmptyString
  | String c r => String (if idChar c then c else "_"%char) (sanitize r)
  end.

Section Handlers.

Variable env : Environment.
Variable toStringOther : number -> string.
Variable JSON_stringify : list TranscriptSegment -> string.

(** [GET] of the transcript route; the argument is
    [searchParams.get("videoId")]. *)
Definition transcriptRoute (videoIdParam : option string) : M Response :=
  startTime <- now env ;;
  tryCatch
    (match videoIdParam with
     | Some ((String _ _) as videoId) =>
         if negb (test idFormatPattern videoId)
         then ret (Json 400 "Invalid format" (Some "Invalid video ID format") None)
         else
           transcript <- getYouTubeTranscript env videoId ;;
           match transcript with
           | [] => ret (Json 404 "No transcript"
                          (Some "No captions available for this video") None)
           | _ :: _ => ret (TranscriptJson videoId transcript)
           end
     | _ => ret (Json 400 "Missing parameter" (Some "Video ID is required") None)
     end)
    (fun error =>
       finish <- now env ;;
       let processingTime := finish - startTime in
       match error with
       | Nullish null => throw (Some (cannotRead null "message"))
       | Value message => ret (transcriptCatch message)
       end).

(** [GET] of the download route; the arguments are the three query
    parameters. *)
Definition downloadRoute (videoIdParam formatParam titleParam : option string)
  : M Response :=
  tryCatch
    (let format := orString formatParam "txt" in
     let title := orString titleParam "transcript" in
     match videoIdParam with
     | Some ((String _ _) as videoId) =>
         if negb (test idFormatPattern videoId)
         then ret (Json 400 "Invalid video ID format" None None)
         else if negb (includesString validFormats (toLowerCase format))
         then ret (Json 400 "Invalid format. Supported formats: txt, json, csv, srt, vtt"
                     None None)
         else
           transcript <- getYouTubeTranscript env videoId ;;
           match transcript with
           | [] => ret (Json 404 "No transcript available for this video" None None)
           | _ :: _ =>
               formattedTranscript <-
                 (fun w => (formatTranscript toStringOther JSON_stringify
                              (map toObject transcript) format, w, [])) ;;
               if negb (truthy formattedTranscript)
                  || (String.length (trim formattedTranscript) =? 0)%nat
               then ret (Json 500 "Failed to format transcript" None None)
               else
                 let contentType := getContentType format in
                 let filename := sanitize title ++ "." ++ format in
                 ret (Attachment contentType
                        ("attachment; filename=" ++ DQUOTE ++ filename ++ DQUOTE)
                        (ofN (N.of_nat (String.length formattedTranscript)))
                        formattedTranscript)
           end
     | _ => ret (Json 400 "Video ID is required" None None)
     end)
    (fun error =>
       match error with
       | Nullish null => throw (Some (cannotRead null "message"))
       | Value message => ret (downloadCatch message)
       end).

End Handlers.

(** [POST] of the search route; the argument is the outcome of
    [const { url } = await req.json()].  The [catch] block reads
    [error.message], which throws when the caught value is [null] or
    [undefined]. *)
Definition searchRoute (body : completion value) : completion Response :=
  match body with
  | Throw (Nullish null) => Error (cannotRead null "message")
  | Throw (Value message) =>
      Return (Json 500 "Failed to process YouTube URL" message None)
  | Return url =>
      Return (
      if negb (toBoolean url) then Json 400 "URL is required" None None
      else
        match url with
        | VString u =>
            if negb (isValidYouTubeUrl u)
            then Json 400 "Please provide a valid YouTube URL" None None
            else
              let urlType := getYouTubeUrlType u in
              if (urlType =? "playlist")%string
              then Json 400 "Playlist support is temporarily disabled"
                     (Some "Please extract videos individually. Copy the video URL from the playlist and paste it here.")
                     None
              else if (urlType =? "video")%string
              then
                match extractVideoId u with
                | Some ((String _ _) as videoId) =>
                    match getVideoInfo videoId with
                    | Return videoInfo =>
                        VideoJson videoId (VideoInfo.title videoInfo) u
                          (VideoInfo.duration videoInfo)
                          (VideoInfo.thumbnail videoInfo)
                    | Throw _ =>
                        VideoJson videoId ("Video " ++ videoId) u (ofZ 0)
                          ("https://img.youtube.com/vi/" ++ videoId
                           ++ "/maxresdefault.jpg")
                    end
                | _ => Json 400 "Invalid video URL - could not extract video ID"
                         None None
                end
              else if (urlType =? "channel")%string
              then Json 400 "Channel URLs are not supported"
                     (Some "Please provide a direct link to a specific video instead of a channel URL")
                     None
              else Json 400 "Unsupported YouTube URL type" None None
        | _ => Json 400 "Please provide a valid YouTube URL" None None
        end)
  end.

End Routes.

(** ** The client: the helpers of the transcript extractor component *)

Module Client.

Import JSString RegExp.

(** [https?:\/\/] at the start *)
Definition scheme : pattern :=
  Seq Start (Seq (Lit "http") (Seq (Opt (Char "s")) (Lit "://"))).

(** [(www\.)?] *)
Definition www : pattern := Opt (Group 1 (Lit "www.")).

(** The five expressions of [isValidYouTubeUrl]; [[\w-]] is the class
    [[a-zA-Z0-9_-]]. *)
Definition patterns : list pattern :=
  [ Seq scheme (Seq www (Seq (Lit "youtube.com/@") (Plus idChar)));
    Seq scheme (Seq www (Seq (Lit "youtube.com/playlist?list=") (Plus idChar)));
    Seq scheme (Seq www (Seq (Lit "youtube.com/watch?v=") (Plus idChar)));
    Seq scheme (Seq (Lit "youtu.be/") (Plus idChar));
    Seq scheme (Seq www (Seq (Lit "youtube.com/channel/") (Plus idChar))) ].

(** [isValidYouTubeUrl(url)] of the component *)
Definition isValidYouTubeUrl (url : string) : bool :=
  existsb (fun p => test p url) patterns.

(** The class of the first [replace]: the characters that file names
    may not hold (angle brackets, colon, double quote, slash, backslash,
    bar, question mark, asterisk). *)
Definition invalidCharacter (c : ascii) : bool :=
  existsb (Ascii.eqb c)
    ["<"; ">"; ":"; ascii_of_N 34; "/"; "\"; "|"; "?"; "*"]%char.

(** [s.replace(/[...]/g, "")] for a class *)
Fixpoint removeAll (f : ascii -> bool) (s : string) : string :=
  match s with
  | EmptyString => EmptyString
  | String c r => if f c then removeAll f r else String c (removeAll f r)
  end.

(** [s.replace(/\s+/g, " ")]: [inRun] tells that the run of white space
    being read has been replaced already. *)
Fixpoint collapseFrom (inRun : bool) (s : string) : string :=
  match s with
  | EmptyString => EmptyString
  | String c r =>
      if isWhiteSpace c
      then if inRun then collapseFrom true r
           else String " " (collapseFrom true r)
      else String c (collapseFrom false r)
  end.

Definition collapse (s : string) : string := collapseFrom false s.

(** [sanitizeFilename(filename)] *)
Definition sanitizeFilename (filename : string) : string :=
  substring 0 100 (trim (collapse (removeAll invalidCharacter filename))).

(** What [fetch] resolves to, as far as [fetchWithRetry] reads it. *)
Record HttpResponse : Type := {
  status : N;
  statusText : string
}.

(** [response.ok] *)
Definition ok (response : HttpResponse) : bool :=
  ((200 <=? status response) && (status response <=? 299))%N.

Definition MAX_RETRIES : nat := 3.
Definition RETRY_DELAY : Z := 1000.

(** What [fetchWithRetry] does that can be seen from outside: the requests
    it sends, by attempt, and the delays it asks for. *)
Inductive Action : Type :=
| Fetch (attempt : nat)
| Sleep (ms : Z).

(** The body of the [try] of one round. *)
Definition round (answer : completion HttpResponse) : completion HttpResponse :=
  match answer with
  | Throw error => Throw error
  | Return response =>
      if ok response then Return response
      else if ((400 <=? status response) && (status response <? 500))%N
      then Return response
      else Error ("HTTP " ++ ofN (status response) ++ ": " ++ statusText response)
  end.

(** The [for] loop from round [i] on, with [remaining = retries - i]
    rounds to go. *)
Fixpoint retryFrom (fetch : nat -> completion HttpResponse) (retries : nat)
  (i remaining : nat) : completion HttpResponse * list Action :=
  match remaining with
  | O => (Error "Max retries exceeded", [])
  | S remaining' =>
      match round (fetch i) with
      | Return response => (Return response, [Fetch i])
      | Throw error =>
          if (i =? retries - 1)%nat then (Throw error, [Fetch i])
          else
            let '(r, actions) := retryFrom fetch retries (S i) remaining' in
            (r, Fetch i :: Sleep (RETRY_DELAY * (Z.of_nat i + 1)) :: actions)
      end
  end.

(** [fetchWithRetry(url, options, retries)]; [fetch i] is what the [i]-th
    request resolves to or rejects with. *)
Definition fetchWithRetry (fetch : nat -> completion HttpResponse) (retries : nat)
  : completion HttpResponse * list Action :=
  retryFrom fetch retries 0 retries.

End Client.

(** ** Specification-side definitions for the further code *)

Module Spec2.

Import JSString JSNumber JSValue Formatter Resolver RegExp Urls Routes.

(** Every character of [s] is accepted by [f]. *)
Definition all (f : ascii -> bool) (s : string) : Prop :=
  Forall (fun c => f c = true) (list_ascii_of_string s).

(** Eleven characters from [a-zA-Z0-9_-]. *)
Definition isId (s : string) : Prop :=
  String.length s = 11%nat /\ all idChar s.

(** The longest prefix accepted by [f], and what follows it. *)
Fixpoint takeWhile (f : ascii -> bool) (s : string) : string :=
  match s with
  | EmptyString => EmptyString
  | String c r => if f c then String c (takeWhile f r) else EmptyString
  end.

Fixpoint dropWhile (f : ascii -> bool) (s : string) : string :=
  match s with
  | EmptyString => EmptyString
  | String c r => if f c then dropWhile f r else s
  end.

(** The caption text as it is written between the quotes of a CSV row. *)
Definition csvText (text : string) : string :=
  trim (replaceAll (ascii_of_N 10) " "
          (replaceAll (ascii_of_N 34) (DQUOTE ++ DQUOTE) text)).

(** Reading a quoted CSV field back: a doubled quote is one quote, a
    single quote is not allowed inside. *)
Fixpoint unescapeQuotes (s : string) : option string :=
  match s with
  | EmptyString => Some EmptyString
  | String c r =>
      if Ascii.eqb c (ascii_of_N 34)
      then match r with
           | String d r' =>
               if Ascii.eqb d (ascii_of_N 34)
               then option_map (String c) (unescapeQuotes r')
               else None
           | EmptyString => None
           end
      else option_map (String c) (unescapeQuotes r)
  end.

Definition notLineFeed (c : ascii) : bool := negb (Ascii.eqb c (ascii_of_N 10)).

(** The lines of a WebVTT cue: the line [start --> end] in the dot time
    format, then the text. *)
Definition vttCue (s : TranscriptSegment) : list string :=
  Spec.timing "." s :: Spec.lines (trim (text s)).

(** The attempt sequence of the resolver as a pure chain: the first
    answer with segments wins, a permanent failure of the first attempt
    ends it, a first attempt rejected with [null] or [undefined] ends it
    with the [TypeError] of reading [message], and exhaustion gives the
    diagnostic error. *)
Definition fallbackChain (env : Environment) (videoId : string)
  : completion (list TranscriptSegment) :=
  match videoId with
  | EmptyString => Error "Invalid video ID provided"
  | String _ _ =>
      let viaA (argument : string) (otherwise : completion (list TranscriptSegment)) :=
        match fetchTranscript env argument with
        | Return (Some ((_ :: _) as raw)) => Return (map formatSegment raw)
        | _ => otherwise
        end in
      let afterFirst :=
        match parseYoutubeI env videoId with
        | Return ((_ :: _) as segments) => Return segments
        | _ =>
            viaA ("https://www.youtube.com/watch?v=" ++ videoId)
              (viaA ("https://youtu.be/" ++ videoId)
                 (Error (errorMessage videoId)))
        end in
      match fetchTranscript env videoId with
      | Throw (Nullish null) => Error (cannotRead null "message")
      | Throw (Value message) =>
          match permanentFailure message with
          | Some mapped => Error mapped
          | None => afterFirst
          end
      | _ => viaA videoId afterFirst
      end
  end.

(** The four attempts in their order, with what the environment answers. *)
Definition attemptSequence (env : Environment) (videoId : string) : list Event :=
  [ AttemptA videoId (fetchTranscript env videoId);
    AttemptB videoId (parseYoutubeI env videoId);
    AttemptA ("https://www.youtube.com/watch?v=" ++ videoId)
      (fetchTranscript env ("https://www.youtube.com/watch?v=" ++ videoId));
    AttemptA ("https://youtu.be/" ++ videoId)
      (fetchTranscript env ("https://youtu.be/" ++ videoId)) ].

(** The attempt was answered with at least one segment. *)
Definition successful (e : Event) : bool :=
  match e with
  | AttemptA _ (Return (Some (_ :: _))) => true
  | AttemptB _ (Return (_ :: _)) => true
  | _ => false
  end.

(** A caption of strategy A without text, or with white space only. *)
Definition blankCaption (c : TranscriptResponse) : Prop :=
  match response_text c with
  | None => True
  | Some t => trim t = ""
  end.

(** The clock never runs backwards. *)
Definition monotone (env : Environment) : Prop :=
  forall i j, (i <= j)%nat -> Date_now env i <= Date_now env j.

(** The messages of the errors a resolution can throw: its own five, and
    the two of the [TypeError] of reading [message] of [null] or of
    [undefined]. *)
Definition resolverErrors (videoId : string) : list (option string) :=
  match videoId with
  | EmptyString => [Some "Invalid video ID provided"]
  | String _ _ =>
      [ Some "Transcripts are disabled for this video";
        Some "Video is unavailable or has been removed";
        Some "Video is private or restricted";
        Some (errorMessage videoId);
        Some (cannotRead true "message");
        Some (cannotRead false "message") ]
  end.

Definition isDigit (c : ascii) : bool := inRange 48 57 c.

(** The string is not empty and does not begin with white space. *)
Definition startsVisibly (s : string) : Prop :=
  match s with
  | EmptyString => False
  | String c _ => isWhiteSpace c = false
  end.

(** The formats whose rendering does not go through [JSON.stringify]. *)
Definition textFormats : list string := ["txt"; "csv"; "srt"; "vtt"].

(** What it is for an expression to match between two states of the
    matcher, without the order in which the matcher tries things. *)
Inductive matches : pattern -> state -> state -> Prop :=
| matches_Empty st : matches Empty st st
| matches_Char c r st :
    rest st = String c r ->
    matches (Char c) st
      {| position := S (position st); rest := r; captures := captures st |}
| matches_Class f c r st :
    rest st = String c r -> f c = true ->
    matches (Class f) st
      {| position := S (position st); rest := r; captures := captures st |}
| matches_Seq p q st1 st2 st3 :
    matches p st1 st2 -> matches q st2 st3 -> matches (Seq p q) st1 st3
| matches_Alt_l p q st st' : matches p st st' -> matches (Alt p q) st st'
| matches_Alt_r p q st st' : matches q st st' -> matches (Alt p q) st st'
| matches_Star f t r st :
    rest st = t ++ r -> all f t ->
    matches (Star f) st
      {| position := position st + String.length t; rest := r;
         captures := captures st |}
| matches_Group i p st st' :
    matches p st st' ->
    matches (Group i p) st
      {| position := position st'; rest := rest st';
         captures := (i, substring 0 (position st' - position st) (rest st))
                     :: captures st' |}
| matches_Start st : position st = 0%nat -> matches Start st st
| matches_Finish st : rest st = "" -> matches Finish st st.

(** The beginnings [isValidYouTubeUrl] looks for. *)
Definition hostPrefixes : list string :=
  flat_map
    (fun scheme =>
       flat_map
         (fun www =>
            map (fun host => scheme ++ www ++ host)
              ["youtube.com"; "youtu.be"; "m.youtube.com"])
         [""; "www."])
    ["http://"; "https://"].

(** White space occurs as single spaces only; [afterSpace] tells that the
    character before was one. *)
Fixpoint spacedFrom (afterSpace : bool) (s : string) : bool :=
  match s with
  | EmptyString => true
  | String c r =>
      if isWhiteSpace c
      then Ascii.eqb c " " && negb afterSpace && spacedFrom true r
      else spacedFrom false r
  end.

Definition singleSpaced (s : string) : Prop := spacedFrom false s = true.

(** The requests sent and the time slept, of a list of client actions. *)
Definition fetches (actions : list Client.Action) : list nat :=
  flat_map (fun a => match a with Client.Fetch i => [i] | Client.Sleep _ => [] end)
    actions.

Fixpoint slept (actions : list Client.Action) : Z :=
  match actions with
  | [] => 0
  | Client.Sleep ms :: more => ms + slept more
  | Client.Fetch _ :: more => slept more
  end.

(** A round of [fetchWithRetry] fails on this answer. *)
Definition failing (answer : completion Client.HttpResponse) : bool :=
  throwsb (Client.round answer).

End Spec2.

(** ** Example data for the further code *)

Module Examples2.

Import JSString JSNumber JSValue Formatter Resolver.

(** A well-formed video id. *)
Definition sampleId : string := "dQw4w9WgXcQ".

(** A segment without text. *)
Definition silent : TranscriptSegment :=
  {| text := ""; offset := ofZ 5; duration := ofZ 1 |}.

(** A caption of strategy A with text, and one with white space only. *)
Definition spoken : TranscriptResponse :=
  {| response_text := Some " hi ";
     response_offset := Some (ofZ 1);
     response_duration := Some (ofZ 2) |}.

Definition hushed : TranscriptResponse :=
  {| response_text := Some "  ";
     response_offset := Some (ofZ 3);
     response_duration := Some (ofZ 1) |}.

(** A server that is unavailable once and then answers. *)
Definition flaky (attempt : nat) : completion Client.HttpResponse :=
  match attempt with
  | O => Return {| Client.status := 503; Client.statusText := "Service Unavailable" |}
  | _ => Return {| Client.status := 200; Client.statusText := "OK" |}
  end.

(** Strategy A rejects with [undefined]. *)
Definition voided : Environment :=
  {| Date_now := Examples.ticking;
     fetchTranscript := fun _ => Throw (Nullish false);
     getTranscript := fun _ => Throw None |}.

End Examples2.

(** * Properties *)

Import JSString JSNumber JSValue Formatter Resolver Spec.

(** ** Strings *)

Lemma append_assoc' (a b c : string) : (a ++ b) ++ c = a ++ (b ++ c).
Proof.
  induction a as [|x a IH]; simpl; [reflexivity | now rewrite IH].
Qed.

Lemma append_empty_r (a : string) : a ++ "" = a.
Proof.
  induction a as [|x a IH]; simpl; [reflexivity | now rewrite IH].
Qed.

Lemma trimStart_blank (s : string) :
  Forall (fun c => isWhiteSpace c = true) (list_ascii_of_string s) ->
  trimStart s = "".
Proof.
  induction s as [|c s IH]; simpl; intros H; [reflexivity|].
  inversion H as [|? ? Hc Hs]; subst. rewrite Hc. auto.
Qed.

Lemma trim_blank (s : string) :
  Forall (fun c => isWhiteSpace c = true) (list_ascii_of_string s) ->
  trim s = "".
Proof.
  intros H. unfold trim. now rewrite trimStart_blank.
Qed.

Lemma prefix_refl_app (p s : string) : prefix p (p ++ s) = true.
Proof.
  induction p as [|c p IH]; simpl.
  - now destruct s.
  - destruct (ascii_dec c c) as [_|n]; [exact IH | now elim n].
Qed.

Lemma includes_prefix (s p : string) : prefix p s = true -> includes s p = true.
Proof.
  intros H. destruct s; cbn [includes]; rewrite H; reflexivity.
Qed.

Lemma includes_app (a p b : string) : includes (a ++ p ++ b) p = true.
Proof.
  induction a as [|c a IH].
  - apply includes_prefix. exact (prefix_refl_app p b).
  - cbn [append includes]. rewrite IH. apply orb_true_r.
Qed.

(** ** The renderer's validation *)

Section Renderer.

Variable toStringOther : number -> string.
Variable JSON_stringify : list TranscriptSegment -> string.

Ltac split_segment o :=
  let t := fresh "t" in
  let off := fresh "off" in
  let dur := fresh "dur" in
  destruct o as [t off dur];
  destruct t as [| | ? | ? | [|? ?] |];
  destruct dur as [| | ? | ? | ? |];
  destruct off as [| | ? | ? | ? |];
  unfold checkSegment;
  cbn [text_ offset_ duration_ toBoolean typeof negb orb
       JSString.truthy String.eqb Ascii.eqb Bool.eqb andb];
  rewrite ?orb_true_r;
  repeat match goal with
         | |- context [ltb ?x zero] => destruct (ltb x zero) eqn:?
         end;
  cbn [negb orb].

Lemma checkSegment_rejects (o : SegmentObject) (index : nat) (message : string) :
  checkSegment o index = Some message -> invalidSegment o.
Proof.
  unfold invalidSegment, invalidText, invalidNumber.
  split_segment o; intros H; try discriminate H;
    cbn [text_ offset_ duration_ toBoolean JSString.truthy];
    first
      [ left; left; discriminate
      | left; right; reflexivity
      | right; left; left; discriminate
      | right; right; left; discriminate
      | right; left; right; eexists; split; [reflexivity | assumption]
      | right; right; right; eexists; split; [reflexivity | assumption] ].
Qed.

Lemma checkSegment_accepts (o : SegmentObject) (index : nat) :
  checkSegment o index = None ->
  ~ invalidSegment o /\ exists s, asSegment o = Some s.
Proof.
  unfold invalidSegment, invalidText, invalidNumber.
  split_segment o; intros H; try discriminate H.
  split.
  - cbn [text_ offset_ duration_ toBoolean JSString.truthy].
    intros [[F | F] | [[F | [y [E L]]] | [F | [y [E L]]]]].
    + now eapply F.
    + discriminate F.
    + now eapply F.
    + injection E as <-. congruence.
    + now eapply F.
    + injection E as <-. congruence.
  - eexists. reflexivity.
Qed.

Lemma checkFrom_rejects (transcript : list SegmentObject) :
  forall index message,
    checkFrom index transcript = Some message -> Exists invalidSegment transcript.
Proof.
  induction transcript as [|o rest IH]; intros index message H; [discriminate|].
  cbn [checkFrom] in H.
  destruct (checkSegment o index) as [m|] eqn:E.
  - left. eapply checkSegment_rejects; eassumption.
  - right. eapply IH; eassumption.
Qed.

Lemma checkFrom_accepts (transcript : list SegmentObject) :
  forall index,
    checkFrom index transcript = None ->
    Forall (fun o => ~ invalidSegment o) transcript
    /\ exists segments, asSegments transcript = Some segments.
Proof.
  induction transcript as [|o rest IH]; intros index H.
  - split; [constructor | now exists []].
  - cbn [checkFrom] in H.
    destruct (checkSegment o index) as [m|] eqn:E; [discriminate|].
    destruct (checkSegment_accepts _ _ E) as [Ho [s Hs]].
    destruct (IH _ H) as [Hrest [segments Hsegments]].
    split; [now constructor|].
    exists (s :: segments). cbn [asSegments]. now rewrite Hs, Hsegments.
Qed.

Lemma valid_checked (transcript : list SegmentObject) :
  valid transcript ->
  forall index, checkFrom index transcript = None.
Proof.
  intros [_ H]. induction H as [|o rest Ho _ IH]; intros index; [reflexivity|].
  cbn [checkFrom].
  destruct (checkSegment o index) as [m|] eqn:E.
  - elim Ho. eapply checkSegment_rejects; eassumption.
  - apply IH.
Qed.

(** A validation-passing list is rendered by the format dispatch on its
    typed reading. *)
Lemma valid_formatTranscript (transcript : list SegmentObject) (format : string) :
  valid transcript ->
  exists segments,
    asSegments transcript = Some segments
    /\ formatTranscript toStringOther JSON_stringify transcript format
       = Return (dispatch toStringOther JSON_stringify segments format).
Proof.
  intros V. pose proof (valid_checked _ V 0%nat) as C.
  destruct (checkFrom_accepts _ _ C) as [_ [segments Hs]].
  exists segments. split; [assumption|].
  unfold formatTranscript. destruct transcript as [|o rest].
  - now destruct V.
  - now rewrite C, Hs.
Qed.

(** C5.  [formatTranscript] throws exactly when the list is empty or some
    segment has a text that is not a string or is falsy, a duration that is
    not a number or is negative, or an offset that is not a number or is
    negative; whenever it throws, it throws the same error for every other
    format string, recognised or not: validation precedes the dispatch. *)
Theorem formatTranscript_throws_iff
  (transcript : list SegmentObject) (format : string) :
  (throws (formatTranscript toStringOther JSON_stringify transcript format)
   <-> transcript = [] \/ Exists invalidSegment transcript)
  /\ (forall format',
        throws (formatTranscript toStringOther JSON_stringify transcript format) ->
        formatTranscript toStringOther JSON_stringify transcript format'
        = formatTranscript toStringOther JSON_stringify transcript format).
Proof.
  split.
  - split.
    + intros [message H]. destruct transcript as [|o rest]; [now left | right].
      unfold formatTranscript in H.
      destruct (checkFrom 0 (o :: rest)) as [m|] eqn:C.
      * eapply checkFrom_rejects; eassumption.
      * destruct (checkFrom_accepts _ _ C) as [_ [segments Hs]].
        rewrite Hs in H. discriminate H.
    + intros [-> | H].
      * eexists. reflexivity.
      * destruct transcript as [|o rest]; [inversion H|].
        unfold formatTranscript.
        destruct (checkFrom 0 (o :: rest)) as [m|] eqn:C.
        -- eexists. reflexivity.
        -- destruct (checkFrom_accepts _ _ C) as [F _].
           apply Exists_exists in H. destruct H as [x [Hin Hx]].
           rewrite Forall_forall in F. now elim (F x Hin).
  - intros format' [message H]. unfold formatTranscript in *.
    destruct transcript as [|o rest]; [reflexivity|].
    destruct (checkFrom 0 (o :: rest)) as [m|]; [reflexivity|].
    destruct (asSegments (o :: rest)); [discriminate H | reflexivity].
Qed.

(** ** Format dispatch *)

Lemma dispatch_unknown (segments : list TranscriptSegment) (format : string) :
  ~ In (toLowerCase format) knownFormats ->
  dispatch toStringOther JSON_stringify segments format = formatAsTxt segments.
Proof.
  intros H. unfold dispatch. cbv zeta.
  destruct (String.eqb_spec (toLowerCase format) "txt") as [E|_]; [reflexivity|].
  destruct (String.eqb_spec (toLowerCase format) "json") as [E|_];
    [elim H; rewrite E; cbn; tauto|].
  destruct (String.eqb_spec (toLowerCase format) "csv") as [E|_];
    [elim H; rewrite E; cbn; tauto|].
  destruct (String.eqb_spec (toLowerCase format) "srt") as [E|_];
    [elim H; rewrite E; cbn; tauto|].
  destruct (String.eqb_spec (toLowerCase format) "vtt") as [E|_];
    [elim H; rewrite E; cbn; tauto|].
  reflexivity.
Qed.

(** C8.  On a validation-passing list, a format string whose lower-case
    form is none of txt, json, csv, srt and vtt is rendered exactly as
    txt. *)
Theorem unknown_format_renders_txt
  (transcript : list SegmentObject) (format : string) :
  valid transcript ->
  ~ In (toLowerCase format) knownFormats ->
  formatTranscript toStringOther JSON_stringify transcript format
  = formatTranscript toStringOther JSON_stringify transcript "txt".
Proof.
  intros V U.
  destruct (valid_formatTranscript transcript format V) as [s1 [H1 ->]].
  destruct (valid_formatTranscript transcript "txt" V) as [s2 [H2 ->]].
  rewrite H1 in H2. injection H2 as <-.
  now rewrite dispatch_unknown.
Qed.

(** ** Typed segments as run-time objects *)

Lemma asSegments_toObject (segments : list TranscriptSegment) :
  asSegments (map toObject segments) = Some segments.
Proof.
  induction segments as [|[t off dur] rest IH]; [reflexivity|].
  cbn [map asSegments]. rewrite IH. reflexivity.
Qed.

Lemma asSegment_toObject (o : SegmentObject) (s : TranscriptSegment) :
  asSegment o = Some s -> o = toObject s.
Proof.
  destruct o as [[| | | |t|] [| | |off| |] [| | |dur| |]]; try discriminate.
  cbn. now intros [= <-].
Qed.

Lemma asSegments_inv (transcript : list SegmentObject) :
  forall segments,
    asSegments transcript = Some segments -> transcript = map toObject segments.
Proof.
  induction transcript as [|o rest IH]; intros segments H.
  - injection H as <-. reflexivity.
  - cbn [asSegments] in H.
    destruct (asSegment o) as [s|] eqn:E; [|discriminate].
    destruct (asSegments rest) as [r|]; [|discriminate].
    injection H as <-. cbn [map].
    now rewrite (asSegment_toObject _ _ E), (IH r).
Qed.

Lemma wellTyped_accepted (s : TranscriptSegment) :
  wellTyped s -> ~ invalidSegment (toObject s).
Proof.
  intros [Ht [Hd Ho]].
  intros [[F | F] | [[F | [y [E L]]] | [F | [y [E L]]]]]; cbn in *.
  - now eapply F.
  - destruct (text s); [now elim Ht | discriminate F].
  - now eapply F.
  - injection E as <-. congruence.
  - now eapply F.
  - injection E as <-. congruence.
Qed.

Lemma wellTyped_valid (segments : list TranscriptSegment) :
  segments <> [] -> Forall wellTyped segments -> valid (map toObject segments).
Proof.
  intros N F. split.
  - destruct segments; [now elim N | discriminate].
  - apply Forall_map. eapply Forall_impl; [|exact F].
    intros s. apply wellTyped_accepted.
Qed.

(** ** Plain text *)

(** C10.  A segment whose text is a non-empty run of white space passes
    validation: a list of otherwise valid segments that contains it is
    rendered without error, and in the txt rendering that segment
    contributes the empty string. *)
Theorem blank_text_is_accepted
  (before after : list TranscriptSegment) (s : TranscriptSegment) :
  Forall wellTyped before ->
  Forall wellTyped after ->
  blank (text s) ->
  ltb (duration s) zero = false ->
  ltb (offset s) zero = false ->
  ~ invalidSegment (toObject s)
  /\ trim (text s) = ""
  /\ formatTranscript toStringOther JSON_stringify
       (map toObject (before ++ s :: after)) "txt"
     = Return (join (LF ++ LF)
                 (map (fun x => trim (text x)) before
                  ++ "" :: map (fun x => trim (text x)) after)).
Proof.
  intros Hb Ha [Hne Hws] Hd Ho.
  assert (W : wellTyped s) by (repeat split; assumption).
  split; [now apply wellTyped_accepted|].
  split; [now apply trim_blank|].
  assert (V : valid (map toObject (before ++ s :: after))).
  { apply wellTyped_valid.
    - now destruct before.
    - apply Forall_app. split; [assumption | now constructor]. }
  destruct (valid_formatTranscript _ "txt" V) as [segments [Hs ->]].
  rewrite asSegments_toObject in Hs. injection Hs as <-.
  unfold dispatch. cbn [toLowerCase]. cbv zeta.
  change (toLowerCase "txt" =? "txt")%string with true. cbv iota.
  unfold formatAsTxt. rewrite map_app. cbn [map].
  now rewrite (trim_blank _ Hws).
Qed.

(** ** Lines and blocks *)

Lemma LF_app (s : string) : LF ++ s = String (ascii_of_N 10) s.
Proof. reflexivity. Qed.

Lemma lines_not_nil (s : string) : lines s <> [].
Proof.
  destruct s as [|c r]; [discriminate|]. cbn [lines].
  destruct (Ascii.eqb c (ascii_of_N 10)); [discriminate|].
  destruct (lines r); discriminate.
Qed.

Lemma lines_app_LF (a b : string) :
  lines (a ++ LF ++ b) = (lines a ++ lines b)%list.
Proof.
  rewrite LF_app.
  induction a as [|c r IH]; [reflexivity|].
  cbn [append lines].
  destruct (Ascii.eqb c (ascii_of_N 10)).
  - now rewrite IH.
  - rewrite IH. pose proof (lines_not_nil r) as N.
    destruct (lines r) as [|l more]; [contradiction | reflexivity].
Qed.

Lemma every_app (p : ascii -> bool) (a b : string) :
  every p (a ++ b) = every p a && every p b.
Proof.
  unfold every. induction a as [|c r IH]; [reflexivity|].
  cbn [append list_ascii_of_string forallb]. now rewrite IH, andb_assoc.
Qed.

Lemma lines_oneLine (s : string) : oneLine s = true -> lines s = [s].
Proof.
  unfold oneLine, every. induction s as [|c r IH]; [reflexivity|].
  cbn [list_ascii_of_string forallb lines]. intros H.
  apply andb_prop in H. destruct H as [Hc Hr].
  apply negb_true_iff in Hc. rewrite Hc, (IH Hr). reflexivity.
Qed.

Lemma lines_join_LF (l : list string) :
  l <> [] -> lines (join LF l) = flat_map lines l.
Proof.
  unfold join. induction l as [|x rest IH]; [congruence|]. intros _.
  destruct rest as [|y rest'].
  - cbn [concat flat_map]. now rewrite app_nil_r.
  - change (concat LF (x :: y :: rest')) with (x ++ LF ++ concat LF (y :: rest')).
    rewrite lines_app_LF, IH by discriminate. reflexivity.
Qed.

Lemma lines_join_LFLF (l : list string) :
  l <> [] -> lines (join (LF ++ LF) l) = separated (map lines l).
Proof.
  unfold join. induction l as [|x rest IH]; [congruence|]. intros _.
  destruct rest as [|y rest'].
  - reflexivity.
  - change (concat (LF ++ LF) (x :: y :: rest'))
      with (x ++ LF ++ (LF ++ concat (LF ++ LF) (y :: rest'))).
    rewrite lines_app_LF, LF_app.
    change (lines (String (ascii_of_N 10) ?s)) with (EmptyString :: lines s).
    rewrite IH by discriminate. reflexivity.
Qed.

Lemma groups_not_nil (ls : list string) : groups ls <> [].
Proof.
  destruct ls as [|l more]; [discriminate|]. cbn [groups].
  destruct l; [discriminate|]. destruct (groups more); discriminate.
Qed.

Lemma groups_run (b rest : list string) :
  Forall (fun l => l <> EmptyString) b ->
  groups (b ++ EmptyString :: rest) = b :: groups rest.
Proof.
  induction 1 as [|l b' Hl Hb IH]; [reflexivity|].
  cbn [app groups]. rewrite IH. destruct l; [contradiction | reflexivity].
Qed.

Lemma groups_last (b : list string) :
  Forall (fun l => l <> EmptyString) b -> groups b = [b].
Proof.
  induction 1 as [|l b' Hl Hb IH]; [reflexivity|].
  cbn [groups]. rewrite IH. destruct l; [contradiction | reflexivity].
Qed.

Lemma blocks_separated (bs : list (list string)) (tail : list string) :
  Forall solid bs ->
  tail = [] \/ tail = [EmptyString] ->
  filter (fun g => match g with [] => false | _ :: _ => true end)
    (groups (separated bs ++ tail)) = bs.
Proof.
  induction 1 as [|b rest [Hn Hb] Hrest IH]; intros Ht.
  - destruct Ht as [-> | ->]; reflexivity.
  - destruct rest as [|b2 rest'].
    + cbn [separated]. destruct Ht as [-> | ->].
      * rewrite app_nil_r, (groups_last b Hb). cbn [filter].
        destruct b; [contradiction | reflexivity].
      * rewrite (groups_run b [] Hb). cbn [groups filter].
        destruct b; [contradiction | reflexivity].
    + change (separated (b :: b2 :: rest'))
        with (b ++ EmptyString :: separated (b2 :: rest'))%list.
      rewrite <- app_assoc.
      change ((EmptyString :: separated (b2 :: rest')) ++ tail)%list
        with (EmptyString :: separated (b2 :: rest') ++ tail)%list.
      rewrite (groups_run b _ Hb).
      destruct b as [|l b']; [contradiction|].
      cbn [filter]. now rewrite (IH Ht).
Qed.

Lemma flat_map_separated (bs : list (list string)) :
  bs <> [] ->
  flat_map (fun b => (b ++ [EmptyString])%list) bs
  = (separated bs ++ [EmptyString])%list.
Proof.
  induction bs as [|b rest IH]; [congruence|]. intros _.
  destruct rest as [|b2 rest'].
  - cbn. now rewrite app_nil_r.
  - change (separated (b :: b2 :: rest'))
      with (b ++ EmptyString :: separated (b2 :: rest'))%list.
    cbn [flat_map] in *. rewrite IH by discriminate.
    rewrite <- !app_assoc. reflexivity.
Qed.

(** ** Index maps *)

Lemma mapIndexFrom_length {A B} (f : A -> nat -> B) (l : list A) :
  forall k, List.length (mapIndexFrom f k l) = List.length l.
Proof.
  induction l as [|a r IH]; intros k; cbn; [reflexivity | now rewrite IH].
Qed.

Lemma mapIndexFrom_nth {A B} (f : A -> nat -> B) (l : list A) :
  forall k i a,
    nth_error l i = Some a ->
    nth_error (mapIndexFrom f k l) i = Some (f a (k + i)%nat).
Proof.
  induction l as [|x r IH]; intros k i a H.
  - now destruct i.
  - destruct i as [|i]; cbn in *.
    + injection H as <-. now rewrite Nat.add_0_r.
    + rewrite (IH (S k) i a H). do 2 f_equal. lia.
Qed.

Lemma mapIndexFrom_map {A B C} (f : A -> nat -> B) (g : B -> C) (l : list A) :
  forall k, map g (mapIndexFrom f k l) = mapIndexFrom (fun a i => g (f a i)) k l.
Proof.
  induction l as [|x r IH]; intros k; cbn; [reflexivity | now rewrite IH].
Qed.

Lemma mapIndexFrom_ext {A B} (P : A -> Prop) (f g : A -> nat -> B) (l : list A) :
  (forall a i, P a -> f a i = g a i) ->
  Forall P l ->
  forall k, mapIndexFrom f k l = mapIndexFrom g k l.
Proof.
  intros E. induction 1 as [|a r Ha Hr IH]; intros k; cbn; [reflexivity|].
  now rewrite (E a k Ha), IH.
Qed.

Lemma mapIndexFrom_Forall {A B} (P : A -> Prop) (Q : B -> Prop)
      (f : A -> nat -> B) (l : list A) :
  (forall a i, P a -> Q (f a i)) ->
  Forall P l ->
  forall k, Forall Q (mapIndexFrom f k l).
Proof.
  intros E. induction 1 as [|a r Ha Hr IH]; intros k; cbn; constructor; auto.
Qed.

(** ** The time format *)

Lemma repeatTo_zeros (n : nat) :
  repeatTo "0" "" n = zeros n /\ repeatTo "0" "0" n = zeros n.
Proof.
  induction n as [|n [IH _]]; [split; reflexivity|].
  split; cbn [repeatTo zeros]; now rewrite IH.
Qed.

Lemma padStart_zeroPad (s : string) (width : nat) :
  padStart s width "0" = zeroPad width s.
Proof.
  unfold padStart, zeroPad.
  destruct (Nat.leb_spec width (String.length s)) as [H|H].
  - replace (width - String.length s)%nat with 0%nat by lia. reflexivity.
  - now rewrite (proj2 (repeatTo_zeros _)).
Qed.

Lemma toString_wholeNumber (x : number) (n : N) :
  wholeNumber x = Some n -> str toStringOther x = ofN n.
Proof.
  unfold wholeNumber, str, toString.
  destruct (toInteger x) as [z|] eqn:E; [|discriminate].
  destruct (Z.leb_spec 0 z) as [H0|]; [|discriminate].
  destruct (Z.ltb_spec z (2 ^ 53)) as [H1|]; [|discriminate].
  cbn [andb]. intros [= <-].
  destruct x as [s| | |s m e]; try discriminate.
  - cbn in E. injection E as <-. reflexivity.
  - destruct (Z.ltb_spec (Z.abs z) (2 ^ 53)) as [_|]; [|lia].
    destruct (Z.ltb_spec z 0) as [|_]; [lia|].
    cbn [append]. f_equal. lia.
Qed.

Lemma fieldsAgree_sound (n : Z) :
  fieldsAgree n = true -> timeFields (ofZ n) = Some (wholeFields n).
Proof.
  unfold fieldsAgree, wholeFields.
  destruct (timeFields (ofZ n)) as [[[[h m] s] ms]|]; [|discriminate].
  intros H. repeat (apply andb_prop in H; destruct H as [H ?]).
  repeat match goal with
         | E : (_ =? _)%N = true |- _ => apply N.eqb_eq in E
         end.
  now subst.
Qed.

Lemma agreeFrom_sound (count : nat) :
  forall n k,
    agreeFrom count n = true ->
    n <= k < n + Z.of_nat count ->
    fieldsAgree k = true.
Proof.
  induction count as [|c IH]; intros n k H R; [lia|].
  cbn [agreeFrom] in H. apply andb_prop in H. destruct H as [Hn Hc].
  destruct (Z.eq_dec k n) as [->|N]; [exact Hn|].
  apply (IH (n + 1)); [exact Hc | lia].
Qed.

(** Up to four hours, the fields of a whole number of seconds are those
    of integer arithmetic: the quotient by 3600, the minutes and the
    seconds that remain, and no milliseconds. *)
Lemma timeFields_whole_seconds (n : Z) :
  0 <= n < 14400 -> timeFields (ofZ n) = Some (wholeFields n).
Proof.
  intros R. apply fieldsAgree_sound.
  apply (agreeFrom_sound (Z.to_nat 14400) 0 n); [|lia].
  vm_compute. reflexivity.
Qed.

Lemma formatTime_timestamp (seconds : number) (vtt : bool) :
  timeFields seconds <> None ->
  formatTime toStringOther seconds vtt
  = timestamp (if vtt then "." else ",") seconds.
Proof.
  unfold timestamp, timeFields, formatTime. cbv zeta.
  destruct (wholeNumber (floor (div seconds (ofZ 3600)))) as [h|] eqn:Eh;
    [|congruence].
  destruct (wholeNumber (floor (div (rem seconds (ofZ 3600)) (ofZ 60))))
    as [m|] eqn:Em; [|congruence].
  destruct (wholeNumber (floor (rem seconds (ofZ 60)))) as [s|] eqn:Es;
    [|congruence].
  destruct (wholeNumber (floor (mul (rem seconds (ofZ 1)) (ofZ 1000))))
    as [ms|] eqn:Ems; [|congruence].
  intros _.
  rewrite (toString_wholeNumber _ _ Eh), (toString_wholeNumber _ _ Em),
    (toString_wholeNumber _ _ Es), (toString_wholeNumber _ _ Ems).
  rewrite !padStart_zeroPad. unfold clock. now destruct vtt.
Qed.

Section Every.

Variable p : ascii -> bool.
Hypothesis digits : every p "0123456789" = true.

Lemma string_of_uint_every (d : Decimal.uint) :
  every p (NilEmpty.string_of_uint d) = true.
Proof.
  pose proof digits as H. unfold every in *.
  cbn [list_ascii_of_string forallb] in H.
  repeat (apply andb_prop in H; destruct H as [? H]).
  induction d; cbn [NilEmpty.string_of_uint list_ascii_of_string forallb];
    [reflexivity | apply andb_true_intro; split; assumption ..].
Qed.

Lemma ofN_every (n : N) : every p (ofN n) = true.
Proof.
  unfold ofN, NilZero.string_of_uint.
  pose proof (string_of_uint_every (N.to_uint n)) as H.
  destruct (N.to_uint n); try exact H.
  pose proof digits as D. unfold every in *.
  cbn [list_ascii_of_string forallb] in *.
  apply andb_prop in D. destruct D as [-> _]. reflexivity.
Qed.

Lemma zeros_every (n : nat) : every p (zeros n) = true.
Proof.
  pose proof digits as D. unfold every in *.
  cbn [list_ascii_of_string forallb] in D.
  apply andb_prop in D. destruct D as [D _].
  induction n as [|n IH]; [reflexivity|].
  cbn [zeros list_ascii_of_string forallb]. now rewrite D, IH.
Qed.

Lemma zeroPad_every (width : nat) (n : N) : every p (zeroPad width (ofN n)) = true.
Proof.
  unfold zeroPad. now rewrite every_app, zeros_every, ofN_every.
Qed.

Lemma clock_every (separator : string) (fields : N * N * N * N) :
  p ":" = true -> every p separator = true ->
  every p (clock separator fields) = true.
Proof.
  intros Hc Hs. destruct fields as [[[h m] s] ms]. unfold clock.
  rewrite !every_app, !zeroPad_every, Hs.
  unfold every. cbn [list_ascii_of_string forallb]. now rewrite Hc.
Qed.

Lemma timestamp_every (separator : string) (seconds : number) :
  p ":" = true -> every p separator = true ->
  every p (timestamp separator seconds) = true.
Proof.
  intros Hc Hs. unfold timestamp.
  destruct (timeFields seconds); [now apply clock_every | reflexivity].
Qed.

End Every.

Lemma ofN_oneLine (n : N) : oneLine (ofN n) = true.
Proof.
  now apply ofN_every.
Qed.

Lemma timing_oneLine (separator : string) (s : TranscriptSegment) :
  oneLine separator = true -> oneLine (timing separator s) = true.
Proof.
  intros H. unfold timing, oneLine.
  rewrite !every_app, !timestamp_every by (reflexivity || exact H). reflexivity.
Qed.

Lemma ofN_not_empty (n : N) : ofN n <> EmptyString.
Proof.
  unfold ofN, NilZero.string_of_uint.
  destruct (N.to_uint n); discriminate.
Qed.

Lemma append_not_empty_r (a b : string) : b <> EmptyString -> a ++ b <> EmptyString.
Proof.
  destruct a; [trivial | discriminate].
Qed.

Lemma timing_not_empty (separator : string) (s : TranscriptSegment) :
  timing separator s <> EmptyString.
Proof.
  unfold timing. now apply append_not_empty_r.
Qed.

(** ** SubRip *)

Lemma srtBlock_solid (index : nat) (s : TranscriptSegment) :
  legible s -> solid (srtBlock index s).
Proof.
  intros [Ht _]. split; [discriminate|].
  unfold srtBlock. constructor; [apply ofN_not_empty|].
  constructor; [apply timing_not_empty | exact Ht].
Qed.

Lemma srtBlock_lines (index : nat) (s : TranscriptSegment) :
  legible s ->
  lines (ofN (N.of_nat (index + 1)) ++ LF
         ++ formatTime toStringOther (offset s) false ++ " --> "
         ++ formatTime toStringOther (add (offset s) (duration s)) false
         ++ LF ++ trim (text s) ++ LF)
  = (srtBlock index s ++ [EmptyString])%list.
Proof.
  intros [_ [Ho Hd]].
  rewrite (formatTime_timestamp _ false Ho), (formatTime_timestamp _ false Hd).
  rewrite lines_app_LF, (lines_oneLine _ (ofN_oneLine _)).
  change (timestamp "," (offset s) ++ " --> "
          ++ timestamp "," (add (offset s) (duration s)) ++ LF ++ trim (text s) ++ LF)
    with (timestamp "," (offset s)
          ++ (" --> " ++ timestamp "," (add (offset s) (duration s))
              ++ (LF ++ trim (text s) ++ LF))).
  rewrite <- (append_assoc' " --> "), <- append_assoc'.
  fold (timing "," s).
  rewrite lines_app_LF, (lines_oneLine _ (timing_oneLine "," s eq_refl)).
  rewrite <- (append_empty_r LF) at 1.
  rewrite lines_app_LF. reflexivity.
Qed.

Lemma formatAsSrt_blocks (segments : list TranscriptSegment) :
  segments <> [] ->
  Forall legible segments ->
  lines (formatAsSrt toStringOther segments)
  = (separated (mapIndex (fun s index => srtBlock index s) segments)
     ++ [EmptyString])%list
  /\ blocks (formatAsSrt toStringOther segments)
     = mapIndex (fun s index => srtBlock index s) segments.
Proof.
  intros Hne Hl.
  assert (L : lines (formatAsSrt toStringOther segments)
              = (separated (mapIndex (fun s index => srtBlock index s) segments)
                 ++ [EmptyString])%list).
  { unfold formatAsSrt, mapIndex. cbv zeta.
    rewrite lines_join_LF by (destruct segments; [congruence | discriminate]).
    rewrite flat_map_concat_map, mapIndexFrom_map.
    rewrite (mapIndexFrom_ext legible _
               (fun s index => (srtBlock index s ++ [EmptyString])%list)
               segments (fun a i H => srtBlock_lines i a H) Hl).
    rewrite <- (mapIndexFrom_map (fun s index => srtBlock index s)
                  (fun b => (b ++ [EmptyString])%list)).
    rewrite <- flat_map_concat_map.
    apply flat_map_separated. destruct segments; [congruence | discriminate]. }
  split; [exact L|].
  unfold blocks. rewrite L.
  apply blocks_separated; [|now right].
  apply (mapIndexFrom_Forall legible); [|exact Hl].
  intros a i. apply srtBlock_solid.
Qed.

(** C9, amended.  For a validation-passing list of legible segments (no
    line of a trimmed text is empty, and the fields of every start and end
    time are whole numbers), the SRT rendering read back by lines has
    exactly one block per segment, in input order; one empty line stands
    between consecutive blocks (and the document ends with a line feed).
    Block [i] (counting from 0) is the numeral of [i + 1], then the line
    [start --> end] with both times as [HH:MM:SS,mmm] (zero-padded fields
    of the offset and of the Number sum offset + duration), then the lines
    of the trimmed text.  The numbers increase strictly. *)
Theorem srt_one_block_per_segment (segments : list TranscriptSegment) :
  valid (map toObject segments) ->
  Forall legible segments ->
  exists document,
    formatTranscript toStringOther JSON_stringify (map toObject segments) "srt"
    = Return document
    /\ List.length (blocks document) = List.length segments
    /\ lines document = (separated (blocks document) ++ [EmptyString])%list
    /\ (forall i s,
          nth_error segments i = Some s ->
          exists start finish,
            timeFields (offset s) = Some start
            /\ timeFields (add (offset s) (duration s)) = Some finish
            /\ nth_error (blocks document) i
               = Some (ofN (N.of_nat (i + 1))
                       :: (clock "," start ++ " --> " ++ clock "," finish)
                       :: lines (trim (text s))))
    /\ (forall i j bi bj,
          (i < j)%nat ->
          nth_error (blocks document) i = Some bi ->
          nth_error (blocks document) j = Some bj ->
          exists ni nj,
            hd_error bi = Some (ofN ni) /\ hd_error bj = Some (ofN nj)
            /\ (ni < nj)%N).
Proof.
  intros V Hl.
  destruct (valid_formatTranscript _ "srt" V) as [segments' [Hs ->]].
  rewrite asSegments_toObject in Hs. injection Hs as <-.
  assert (Hne : segments <> []).
  { intros ->. now apply V. }
  destruct (formatAsSrt_blocks segments Hne Hl) as [L B].
  assert (D : dispatch toStringOther JSON_stringify segments "srt"
              = formatAsSrt toStringOther segments).
  { unfold dispatch. cbv zeta.
    change (toLowerCase "srt" =? "txt")%string with false.
    change (toLowerCase "srt" =? "json")%string with false.
    change (toLowerCase "srt" =? "csv")%string with false.
    change (toLowerCase "srt" =? "srt")%string with true.
    reflexivity. }
  rewrite D. eexists. split; [reflexivity|].
  rewrite B. unfold mapIndex.
  split; [apply mapIndexFrom_length|].
  split; [rewrite L; reflexivity|].
  split.
  - intros i s H.
    pose proof (proj1 (Forall_forall _ _) Hl s (nth_error_In _ _ H)) as [_ [Ho Hd]].
    destruct (timeFields (offset s)) as [start|] eqn:Es; [|congruence].
    destruct (timeFields (add (offset s) (duration s))) as [finish|] eqn:Ef;
      [|congruence].
    exists start, finish. split; [reflexivity|]. split; [reflexivity|].
    rewrite (mapIndexFrom_nth _ _ 0%nat i s H).
    unfold srtBlock, timing, timestamp. rewrite Es, Ef. reflexivity.
  - intros i j bi bj Hij Hi Hj.
    assert (Li : (i < List.length segments)%nat).
    { rewrite <- (mapIndexFrom_length (fun s index => srtBlock index s) segments 0%nat).
      apply nth_error_Some. congruence. }
    assert (Lj : (j < List.length segments)%nat).
    { rewrite <- (mapIndexFrom_length (fun s index => srtBlock index s) segments 0%nat).
      apply nth_error_Some. congruence. }
    destruct (nth_error segments i) as [si|] eqn:Ei;
      [|apply nth_error_None in Ei; lia].
    destruct (nth_error segments j) as [sj|] eqn:Ej;
      [|apply nth_error_None in Ej; lia].
    rewrite (mapIndexFrom_nth _ _ 0%nat i si Ei) in Hi.
    rewrite (mapIndexFrom_nth _ _ 0%nat j sj Ej) in Hj.
    injection Hi as <-. injection Hj as <-.
    exists (N.of_nat (i + 1)), (N.of_nat (j + 1)).
    split; [reflexivity|]. split; [reflexivity | lia].
Qed.

(** ** Time stamps *)

(** The Number value of the literal [3661.234] is
    [8051138710017671 * 2^-41], which lies strictly below 3661.234. *)
Lemma literal_3661_234 :
  literal 3661234 1000 = S754_finite false 8051138710017671 (-41)
  /\ 8051138710017671 * 1000 < 3661234 * 2 ^ 41.
Proof.
  split; [vm_compute; reflexivity | vm_compute; reflexivity].
Qed.

(** Its fractional part [seconds % 1] is computed exactly; the product
    with 1000 is a Number strictly below 234, and its floor is 233. *)
Lemma milliseconds_3661_234 :
  let fraction := rem (literal 3661234 1000) (ofZ 1) in
  fraction = S754_finite false 8430738502434816 (-55)
  /\ mul fraction (ofZ 1000) = S754_finite false 8233143068784000 (-45)
  /\ 8233143068784000 < 234 * 2 ^ 45
  /\ floor (mul fraction (ofZ 1000)) = ofZ 233.
Proof.
  repeat split; vm_compute; reflexivity.
Qed.

(** C7.  At 3661.234 seconds [formatTime] prints 233 milliseconds in both
    styles: [seconds % 1] is exact, it is slightly below 0.234, and
    [Math.floor] cuts its product with 1000 down to 233.  At 0 seconds it
    prints [00:00:00,000]. *)
Theorem formatTime_3661_234 :
  formatTime toStringOther (literal 3661234 1000) false = "01:01:01,233"
  /\ formatTime toStringOther (literal 3661234 1000) true = "01:01:01.233"
  /\ formatTime toStringOther (ofZ 0) false = "00:00:00,000".
Proof.
  repeat split; vm_compute; reflexivity.
Qed.

(** Whole seconds are printed as the specification says, and hours do not
    wrap at 24. *)
Lemma formatTime_whole_seconds :
  formatTime toStringOther (ofZ 3661) false = "01:01:01,000"
  /\ formatTime toStringOther (ofZ 3661) true = "01:01:01.000"
  /\ formatTime toStringOther (ofZ 90000) false = "25:00:00,000"
  /\ formatTime toStringOther (ofZ 360000) false = "100:00:00,000".
Proof.
  repeat split; vm_compute; reflexivity.
Qed.

End Renderer.

(** ** The rate limiter *)

Section Limiter.

Variable env : Environment.

Lemma smartRateLimit_run (w : World) :
  smartRateLimit env w = (Return tt, paced env w, pause env w).
Proof.
  unfold smartRateLimit, pause, paced, bind, now, getFailures, getLastRequestTime,
    setLastRequestTime, emit, ret.
  cbn.
  destruct (Qlt_le_dec _ _); reflexivity.
Qed.

Lemma attempts_pause (w : World) : attempts (pause env w) = [].
Proof.
  unfold pause. destruct (Qlt_le_dec _ _); reflexivity.
Qed.

End Limiter.

(** The delay values the counter can produce: multiples of 1/8 up to five
    failures, the cap from six on. *)
Lemma dynamicDelay_small :
  (dynamicDelay 0 == 500)%Q /\ (dynamicDelay 1 == 750)%Q
  /\ (dynamicDelay 2 == 1125)%Q /\ (dynamicDelay 3 == 13500 # 8)%Q
  /\ (dynamicDelay 4 == 20250 # 8)%Q /\ (dynamicDelay 5 == 30375 # 8)%Q.
Proof.
  repeat split; vm_compute; reflexivity.
Qed.

Lemma dynamicDelay_capped (n : Z) : 6 <= n -> (dynamicDelay n == 5000)%Q.
Proof.
  intros H. unfold dynamicDelay, baseDelay, maxDelay, backoffMultiplier.
  apply Q.min_r.
  assert (P : ((3 # 2) ^ 6 <= (3 # 2) ^ n)%Q).
  { apply Qpower_le_compat_l; [exact H | discriminate]. }
  apply Qle_trans with (500 * (3 # 2) ^ 6)%Q.
  - vm_compute. discriminate.
  - apply Qmult_le_l; [reflexivity | exact P].
Qed.

(** C6.  In the state with [n] consecutive failures and last-attempt time
    [t], [smartRateLimit] reads the clock ([now]), computes the delay
    [min(5000, 500 * 1.5^n)], requests a wait of [delay - (now - t)]
    exactly when [now - t < delay] and none otherwise, so that the time
    waited is [max(0, delay - (now - t))], and stores the next clock reading
    as the last-attempt time; the counter is left as it was. *)
Theorem smartRateLimit_waits (env : Environment) (w : World) :
  let n := consecutiveFailures w in
  let elapsed := inject_Z (Date_now env (clockReads w) - lastRequestTime w) in
  let delay := Qmin 5000 (500 * (3 # 2) ^ n)%Q in
  exists w' events,
    smartRateLimit env w = (Return tt, w', events)
    /\ (dynamicDelay n == delay)%Q
    /\ ((elapsed < delay)%Q -> events = [Wait (dynamicDelay n - elapsed)])
    /\ (~ (elapsed < delay)%Q -> events = [])
    /\ (waited events == Qmax 0 (delay - elapsed))%Q
    /\ lastRequestTime w' = Date_now env (S (clockReads w))
    /\ consecutiveFailures w' = n.
Proof.
  intros n elapsed delay.
  assert (D : (dynamicDelay n == delay)%Q).
  { unfold dynamicDelay, delay, baseDelay, maxDelay, backoffMultiplier.
    apply Q.min_comm. }
  exists (paced env w), (pause env w).
  split; [apply smartRateLimit_run|].
  split; [exact D|].
  unfold pause. fold n. fold elapsed.
  destruct (Qlt_le_dec elapsed (dynamicDelay n)) as [L | L].
  - split; [reflexivity|].
    split; [intros N; elim N; now rewrite <- D|].
    split; [|split; reflexivity].
    cbn [waited]. rewrite Qplus_0_r, D.
    symmetry. apply Q.max_r.
    rewrite D in L. apply Qlt_le_weak in L.
    rewrite <- (Qplus_opp_r elapsed). now apply Qplus_le_l.
  - split; [intros N; rewrite <- D in N; now elim (Qlt_not_le _ _ N)|].
    split; [reflexivity|].
    split; [|split; reflexivity].
    cbn [waited]. symmetry. apply Q.max_l.
    rewrite D in L.
    rewrite <- (Qplus_opp_r elapsed). now apply Qplus_le_l.
Qed.

(** ** The resolver *)

Lemma attempts_app (a b : list Event) :
  attempts (a ++ b) = (attempts a ++ attempts b)%list.
Proof.
  apply filter_app.
Qed.

Lemma attempts_cons_A (argument : string) outcome (rest : list Event) :
  attempts (AttemptA argument outcome :: rest)
  = AttemptA argument outcome :: attempts rest.
Proof.
  reflexivity.
Qed.

Lemma attempts_cons_B (videoId : string) outcome (rest : list Event) :
  attempts (AttemptB videoId outcome :: rest)
  = AttemptB videoId outcome :: attempts rest.
Proof.
  reflexivity.
Qed.

Lemma attempts_nil : attempts [] = [].
Proof.
  reflexivity.
Qed.

Lemma permanentFailure_mapped (message : string) :
  includes message "Transcript is disabled"
  || includes message "Video unavailable"
  || includes message "private" = true ->
  permanentFailure (Some message)
  = Some (if includes message "Transcript is disabled"
          then "Transcripts are disabled for this video"
          else if includes message "Video unavailable"
               then "Video is unavailable or has been removed"
               else "Video is private or restricted").
Proof.
  unfold permanentFailure.
  destruct (includes message "Transcript is disabled"); [reflexivity|].
  destruct (includes message "Video unavailable"); [reflexivity|].
  destruct (includes message "private"); [reflexivity | discriminate].
Qed.

Section Resolution.

Variable env : Environment.

Ltac run_step E :=
  first
    [ rewrite smartRateLimit_run in E
    | match type of E with
      | context [match fetchTranscript env (String ?c ?s) with _ => _ end] =>
          destruct (fetchTranscript env (String c s)) as [[[|? ?]|]|[?|?]] eqn:?
      | context [match permanentFailure ?e with _ => _ end] =>
          destruct (permanentFailure e) as [?|] eqn:?
      | context [match parseYoutubeI env ?a with _ => _ end] =>
          destruct (parseYoutubeI env a) as [[|? ?]|?] eqn:?
      | context [match fetchTranscript env ("https://www.youtube.com/watch?v=" ++ ?a)
                 with _ => _ end] =>
          destruct (fetchTranscript env ("https://www.youtube.com/watch?v=" ++ a))
            as [[[|? ?]|]|?] eqn:?
      | context [match fetchTranscript env ?a with _ => _ end] =>
          destruct (fetchTranscript env a) as [[[|? ?]|]|?] eqn:?
      end ];
  cbv beta iota zeta in E.

Ltac run_all E :=
  cbv [getYouTubeTranscript bind tryCatch ret throw now tryStrategyA
       callFetchTranscript decrementFailures getFailures setFailures
       fetchTranscriptWithYoutubeI tryUrlFormats urlFormats JSString.truthy negb] in E;
  repeat run_step E;
  injection E as <- <- <-.

Ltac trace H :=
  repeat first
    [ rewrite attempts_app in H
    | rewrite attempts_pause in H
    | rewrite attempts_cons_A in H
    | rewrite attempts_cons_B in H
    | rewrite attempts_nil in H ];
  cbn [app] in H.

Lemma invalid_videoId (w : World) :
  getYouTubeTranscript env "" w
  = (Error "Invalid video ID provided",
     {| lastRequestTime := lastRequestTime w;
        consecutiveFailures := consecutiveFailures w;
        clockReads := S (clockReads w) |}, []).
Proof.
  reflexivity.
Qed.

(** What one resolution does to the state: the counter stays
    non-negative, and on success it is decremented with floor 0 while the
    time stamp is the limiter's latest clock reading. *)
Lemma resolution_state (videoId : string) (w : World) r w' events :
  getYouTubeTranscript env videoId w = (r, w', events) ->
  (0 <= consecutiveFailures w -> 0 <= consecutiveFailures w')
  /\ (throwsb r = false ->
      w' = {| lastRequestTime := Date_now env (clockReads w' - 1);
              consecutiveFailures := Z.max 0 (consecutiveFailures w - 1);
              clockReads := clockReads w' |}).
Proof.
  intros E. destruct videoId as [|c s].
  - rewrite invalid_videoId in E. injection E as <- <- <-.
    split; [auto | discriminate].
  - run_all E.
    all: split; [cbn; lia | cbn; try discriminate].
    all: intros _; rewrite ?Nat.sub_0_r; reflexivity.
Qed.

(** C2.  When the first attempt of a resolution is strategy A raising
    an error whose message contains "Transcript is disabled", "Video
    unavailable" or "private", the resolution fails with the message mapped
    to the first of these that occurs, that attempt is the only one made
    (strategy B and the two URL forms are not tried), and the failure
    counter is untouched. *)
Theorem permanent_failure_aborts
  (videoId : string) (w : World) r w' events argument message rest :
  getYouTubeTranscript env videoId w = (r, w', events) ->
  attempts events = AttemptA argument (Throw (Some message)) :: rest ->
  includes message "Transcript is disabled"
  || includes message "Video unavailable"
  || includes message "private" = true ->
  argument = videoId
  /\ rest = []
  /\ r = Error (if includes message "Transcript is disabled"
                then "Transcripts are disabled for this video"
                else if includes message "Video unavailable"
                     then "Video is unavailable or has been removed"
                     else "Video is private or restricted")
  /\ consecutiveFailures w' = consecutiveFailures w.
Proof.
  intros E T P. apply permanentFailure_mapped in P.
  destruct videoId as [|c s].
  - rewrite invalid_videoId in E. injection E as <- <- <-. discriminate T.
  - run_all E; trace T; inversion T; subst; try congruence.
    all: unfold Error; repeat split; solve [reflexivity | congruence].
Qed.

(** The environment's view of the same situation. *)
Lemma permanent_failure_run (c : ascii) (s : string) (w : World)
  (message : option string) (mapped : string) :
  fetchTranscript env (String c s) = Throw message ->
  permanentFailure message = Some mapped ->
  exists w' events,
    getYouTubeTranscript env (String c s) w = (Error mapped, w', events)
    /\ attempts events = [AttemptA (String c s) (Throw message)]
    /\ consecutiveFailures w' = consecutiveFailures w.
Proof.
  intros F P. eexists. eexists. split; [|split].
  - cbv [getYouTubeTranscript bind tryCatch ret throw now tryStrategyA
         callFetchTranscript JSString.truthy negb].
    rewrite smartRateLimit_run. cbv beta iota zeta.
    rewrite F. cbv beta iota zeta. rewrite P. reflexivity.
  - repeat rewrite attempts_app. repeat rewrite attempts_pause. reflexivity.
  - reflexivity.
Qed.

Ltac trace_goal :=
  repeat first
    [ rewrite attempts_app
    | rewrite attempts_pause
    | rewrite attempts_cons_A
    | rewrite attempts_cons_B
    | rewrite attempts_nil ];
  cbn [app].

(** A rejection of the first attempt with [null] or [undefined] ends the
    resolution as well: the [catch] reads [error.message], which throws a
    [TypeError]; no other attempt is made and the counter is untouched. *)
Lemma nullish_rejection_run (c : ascii) (s : string) (w : World) (null : bool) :
  fetchTranscript env (String c s) = Throw (Nullish null) ->
  exists w' events,
    getYouTubeTranscript env (String c s) w
    = (Error (cannotRead null "message"), w', events)
    /\ attempts events = [AttemptA (String c s) (Throw (Nullish null))]
    /\ consecutiveFailures w' = consecutiveFailures w.
Proof.
  intros F. eexists. eexists. split; [|split].
  - cbv [getYouTubeTranscript bind tryCatch ret throw now tryStrategyA
         callFetchTranscript JSString.truthy negb].
    rewrite smartRateLimit_run. cbv beta iota zeta.
    rewrite F. cbv beta iota zeta. reflexivity.
  - repeat rewrite attempts_app. repeat rewrite attempts_pause. reflexivity.
  - reflexivity.
Qed.

(** C3.  For a non-empty id: when strategy A on the bare id fails or
    answers with no segment in a way the resolver passes over, and strategy
    B and strategy A on the two URL forms each fail or answer with no
    segment, the resolution makes these four attempts in this order, the
    failure counter grows by exactly one, and the resolution fails with the
    diagnostic message below, which names the video id. *)
Theorem exhausted_increments (videoId : string) (w : World) :
  videoId <> "" ->
  passedOver (fetchTranscript env videoId) ->
  unsuccessfulB (parseYoutubeI env videoId) ->
  unsuccessfulA (fetchTranscript env ("https://www.youtube.com/watch?v=" ++ videoId)) ->
  unsuccessfulA (fetchTranscript env ("https://youtu.be/" ++ videoId)) ->
  exists w' events,
    getYouTubeTranscript env videoId w
    = (Error ("No transcript available for video " ++ videoId
              ++ ". This could be because:" ++ LF
              ++ "- The video doesn't have captions enabled" ++ LF
              ++ "- The video is private, restricted, or unavailable  " ++ LF
              ++ "- Transcripts are disabled by the video owner" ++ LF
              ++ "- There's a temporary issue with YouTube's caption service" ++ LF
              ++ LF
              ++ "Please try a different video or check if the video has captions available on YouTube directly."),
       w', events)
    /\ attempts events
       = [AttemptA videoId (fetchTranscript env videoId);
          AttemptB videoId (parseYoutubeI env videoId);
          AttemptA ("https://www.youtube.com/watch?v=" ++ videoId)
            (fetchTranscript env ("https://www.youtube.com/watch?v=" ++ videoId));
          AttemptA ("https://youtu.be/" ++ videoId)
            (fetchTranscript env ("https://youtu.be/" ++ videoId))]
    /\ consecutiveFailures w' = consecutiveFailures w + 1.
Proof.
  intros N U1 U2 U3 U4. destruct videoId as [|c s]; [now elim N|]. clear N.
  destruct (getYouTubeTranscript env (String c s) w) as [[r w'] events] eqn:E.
  exists w', events.
  run_all E;
    repeat match goal with
           | H : fetchTranscript env ?a = _, U : passedOver (fetchTranscript env ?a) |- _ =>
               rewrite H in U; cbn in U
           | H : fetchTranscript env ?a = _, U : unsuccessfulA (fetchTranscript env ?a) |- _ =>
               rewrite H in U; cbn in U
           | H : parseYoutubeI env ?a = _, U : unsuccessfulB (parseYoutubeI env ?a) |- _ =>
               rewrite H in U; cbn in U
           end;
    try contradiction; try congruence;
    trace_goal;
    repeat match goal with
           | H : fetchTranscript env ?a = _ |- context [fetchTranscript env ?a] =>
               rewrite H
           | H : parseYoutubeI env ?a = _ |- context [parseYoutubeI env ?a] =>
               rewrite H
           end;
    (split; [reflexivity | split; reflexivity]).
Qed.

(** Where a result comes from: either strategy A answered some argument
    with a non-empty array, which is returned formatted, or strategy B's
    segments are returned as they are. *)
Lemma successful_resolution (videoId : string) (w : World) segments w' events :
  getYouTubeTranscript env videoId w = (Return segments, w', events) ->
  (exists argument raw,
      fetchTranscript env argument = Return (Some raw)
      /\ segments = map formatSegment raw)
  \/ parseYoutubeI env videoId = Return segments.
Proof.
  intros E. destruct videoId as [|c s].
  - rewrite invalid_videoId in E. discriminate E.
  - cbv [getYouTubeTranscript bind tryCatch ret throw now tryStrategyA
         callFetchTranscript decrementFailures getFailures setFailures
         fetchTranscriptWithYoutubeI tryUrlFormats urlFormats
         JSString.truthy negb] in E.
    repeat run_step E.
    all: try discriminate E.
    all: injection E as <- _ _.
    all: first
           [ right; reflexivity
           | match goal with
             | H : fetchTranscript env _ = Return (Some (_ :: _)) |- _ =>
                 left; do 2 eexists; split; [exact H | reflexivity]
             end ].
Qed.

End Resolution.

(** C4.  From a non-negative failure counter, a resolution leaves the
    counter non-negative; when it succeeds the counter is decremented by
    one with floor 0, and the state it leaves differs from that only by the
    limiter's time stamp; any sequence of resolutions keeps the counter
    non-negative, and pacing does not change it. *)
Theorem failure_counter_never_negative
  (env : Environment) (videoId : string) (w : World)
  (requests : list (Environment * string)) :
  0 <= consecutiveFailures w ->
  (forall r w' events,
      getYouTubeTranscript env videoId w = (r, w', events) ->
      0 <= consecutiveFailures w'
      /\ (throwsb r = false ->
          consecutiveFailures w' = Z.max 0 (consecutiveFailures w - 1)
          /\ w' = {| lastRequestTime := Date_now env (clockReads w' - 1);
                     consecutiveFailures := Z.max 0 (consecutiveFailures w - 1);
                     clockReads := clockReads w' |}))
  /\ 0 <= consecutiveFailures (resolveAll requests w)
  /\ (forall r w' events,
        smartRateLimit env w = (r, w', events) ->
        consecutiveFailures w' = consecutiveFailures w).
Proof.
  intros H. split; [|split].
  - intros r w' events E.
    destruct (resolution_state _ _ _ _ _ _ E) as [A B].
    split; [auto|]. intros S. specialize (B S).
    split; [|exact B]. rewrite B. reflexivity.
  - clear env videoId. revert w H.
    induction requests as [|[env videoId] rest IH]; intros w H; [exact H|].
    cbn [resolveAll].
    destruct (getYouTubeTranscript env videoId w) as [[r w'] events] eqn:E.
    apply IH. now apply (resolution_state _ _ _ _ _ _ E).
  - intros r w' events E. rewrite smartRateLimit_run in E.
    injection E as <- <- <-. reflexivity.
Qed.

(** ** Normalisation of the segments returned *)

Lemma trimEnd_cons (c : ascii) (r : string) :
  trimEnd (String c r)
  = match trimEnd r with
    | EmptyString => if isWhiteSpace c then EmptyString else String c EmptyString
    | r' => String c r'
    end.
Proof.
  reflexivity.
Qed.

Lemma trimEnd_idem (s : string) : trimEnd (trimEnd s) = trimEnd s.
Proof.
  induction s as [|c r IH]; [reflexivity|].
  rewrite trimEnd_cons.
  destruct (trimEnd r) as [|d r'] eqn:E.
  - destruct (isWhiteSpace c) eqn:W; [reflexivity|].
    rewrite trimEnd_cons. cbn [trimEnd]. now rewrite W.
  - rewrite trimEnd_cons, IH. reflexivity.
Qed.

Lemma trimStart_head (s : string) :
  match trimStart s with
  | EmptyString => True
  | String c _ => isWhiteSpace c = false
  end.
Proof.
  induction s as [|c r IH]; cbn [trimStart]; [exact I|].
  destruct (isWhiteSpace c) eqn:W; [exact IH | exact W].
Qed.

Lemma trimEnd_head (s : string) :
  match s with
  | EmptyString => True
  | String c _ => isWhiteSpace c = false
  end ->
  trimStart (trimEnd s) = trimEnd s.
Proof.
  destruct s as [|c r]; [reflexivity|]. intros W.
  rewrite trimEnd_cons.
  destruct (trimEnd r); rewrite ?W; cbn [trimStart]; now rewrite W.
Qed.

Lemma trim_trimmed (s : string) : trimmed (trim s).
Proof.
  unfold trimmed, trim.
  rewrite (trimEnd_head _ (trimStart_head s)). apply trimEnd_idem.
Qed.

Lemma max_zero_not_negative (x : number) : ltb (max zero x) zero = false.
Proof.
  destruct x as [[|] | [|] | | [|] m e]; reflexivity.
Qed.

(** Strategy A's answers are normalised: trimmed text, offset and duration
    clamped to be non-negative. *)
Lemma strategyA_normalised (segment : TranscriptResponse) :
  trimmed (text (formatSegment segment))
  /\ ltb (offset (formatSegment segment)) zero = false
  /\ ltb (duration (formatSegment segment)) zero = false.
Proof.
  unfold formatSegment. cbn [text offset duration].
  repeat split; try apply max_zero_not_negative.
  destruct (response_text segment) as [t|]; [|reflexivity].
  destruct (JSString.truthy (trim t)); [apply trim_trimmed | reflexivity].
Qed.

(** Strategy B's segments have trimmed, non-empty text; their timing is
    whatever [start_ms] and [end_ms] give. *)
Lemma strategyB_text (item : Item) (segment : TranscriptSegment) :
  segmentOfItem item = Some segment ->
  trimmed (text segment) /\ text segment <> "".
Proof.
  unfold segmentOfItem.
  destruct item as [|[type|] snippet start_ms end_ms]; try discriminate.
  destruct (type =? "TranscriptSegment")%string eqn:T.
  - apply String.eqb_eq in T. subst type. cbv zeta.
    destruct (JSString.truthy (itemText snippet)); [|discriminate].
    destruct (trim (itemText snippet)) as [|c r] eqn:E; [discriminate|].
    cbn [JSString.truthy andb]. intros [= <-]. cbn [text].
    split; [|discriminate]. rewrite <- E. apply trim_trimmed.
  - intros H. exfalso. revert H.
    destruct type as [|a0 t0]; [discriminate|].
    repeat (match goal with
            | |- context [match ?x with _ => _ end] => destruct x
            end; try discriminate);
      cbn in T; discriminate T.
Qed.

(** A result obtained from strategy A satisfies the segment invariant. *)
Lemma strategyA_result_normalised (raw : list TranscriptResponse) :
  Forall (fun segment =>
            trimmed (text segment)
            /\ ltb (offset segment) zero = false
            /\ ltb (duration segment) zero = false)
         (map formatSegment raw).
Proof.
  apply Forall_map, Forall_forall. intros segment _.
  apply strategyA_normalised.
Qed.

(** The two paths at work. *)
Example resolves_with_strategyB :
  getYouTubeTranscript Examples.forward "abc" Examples.idle
  = (Return [{| text := "good day"; offset := ofZ 1; duration := ofZ 2 |}],
     {| lastRequestTime := 1004; consecutiveFailures := 0; clockReads := 5 |},
     [AttemptA "abc" (Throw (Some "fetch failed"));
      Wait 499;
      AttemptB "abc"
        (Return [{| text := "good day"; offset := ofZ 1; duration := ofZ 2 |}])]).
Proof.
  vm_compute. reflexivity.
Qed.

Example resolves_with_strategyA :
  fst (fst (getYouTubeTranscript Examples.captioned "abc" Examples.idle))
  = Return [{| text := "hi"; offset := ofZ 1; duration := ofZ 2 |}].
Proof.
  vm_compute. reflexivity.
Qed.

(** C1.  Strategy A fails with a transient error and strategy B answers
    with one caption whose [start_ms] is 3000 and whose [end_ms] is 1000:
    the resolution succeeds and the segment it returns has duration -2. *)
Theorem strategyB_duration_not_clamped :
  fst (fst (getYouTubeTranscript Examples.reversed "abc" Examples.idle))
  = Return [{| text := "hi"; offset := ofZ 3; duration := ofZ (-2) |}]
  /\ ltb (ofZ (-2)) zero = true.
Proof.
  split; vm_compute; reflexivity.
Qed.

(** ** The theorems at concrete inputs *)

Lemma hello_wellTyped : wellTyped Examples.hello.
Proof.
  split; [discriminate | split; reflexivity].
Qed.

Lemma world_wellTyped : wellTyped Examples.world.
Proof.
  split; [discriminate | split; reflexivity].
Qed.

Lemma hello_world_valid :
  valid (map toObject [Examples.hello; Examples.world]).
Proof.
  apply wellTyped_valid; [discriminate|].
  repeat constructor; [apply hello_wellTyped | apply world_wellTyped].
Qed.

Lemma xml_unknown : ~ In (toLowerCase "XML") knownFormats.
Proof.
  cbn. intros [H | [H | [H | [H | [H | []]]]]]; discriminate H.
Qed.

Lemma spaces_blank : blank (text Examples.spaces).
Proof.
  split; [discriminate | repeat constructor].
Qed.

Example renders_srt :
  formatTranscript Examples.plainToString Examples.plainJson
    (map toObject [Examples.hello; Examples.world]) "SRT"
  = Return ("1" ++ LF ++ "00:00:01,000 --> 00:00:03,000" ++ LF ++ "hello" ++ LF
            ++ LF
            ++ "2" ++ LF ++ "00:00:03,000 --> 00:00:07,000" ++ LF ++ "world" ++ LF).
Proof.
  vm_compute. reflexivity.
Qed.

Example renders_vtt :
  formatTranscript Examples.plainToString Examples.plainJson
    (map toObject [Examples.hello; Examples.world]) "vtt"
  = Return ("WEBVTT" ++ LF ++ LF
            ++ "00:00:01.000 --> 00:00:03.000" ++ LF ++ "hello" ++ LF
            ++ LF
            ++ "00:00:03.000 --> 00:00:07.000" ++ LF ++ "world").
Proof.
  vm_compute. reflexivity.
Qed.

Example rejects_negative_offset :
  formatTranscript Examples.plainToString Examples.plainJson
    [toObject Examples.hello;
     {| text_ := VString "x"; offset_ := VNumber (ofZ (-1)); duration_ := VNumber (ofZ 1) |}]
    "json"
  = Error "Invalid offset in segment 1".
Proof.
  vm_compute. reflexivity.
Qed.

(** [NaN] has type number and is not below zero: validation lets it
    through. *)
Example accepts_NaN_duration :
  formatTranscript Examples.plainToString Examples.plainJson
    [{| text_ := VString "x"; offset_ := VNumber (ofZ 1); duration_ := VNumber S754_nan |}]
    "txt"
  = Return "x".
Proof.
  vm_compute. reflexivity.
Qed.

Lemma unknown_format_renders_txt_witness :
  valid (map toObject [Examples.hello; Examples.world])
  /\ ~ In (toLowerCase "XML") knownFormats
  /\ formatTranscript Examples.plainToString Examples.plainJson
       (map toObject [Examples.hello; Examples.world]) "XML"
     = formatTranscript Examples.plainToString Examples.plainJson
         (map toObject [Examples.hello; Examples.world]) "txt".
Proof.
  split; [exact hello_world_valid|].
  split; [exact xml_unknown|].
  exact (unknown_format_renders_txt Examples.plainToString Examples.plainJson
           (map toObject [Examples.hello; Examples.world]) "XML"
           hello_world_valid xml_unknown).
Defined.

Lemma hello_world_legible : Forall legible [Examples.hello; Examples.world].
Proof.
  repeat constructor; vm_compute; discriminate.
Qed.

Lemma srt_one_block_per_segment_witness :
  valid (map toObject [Examples.hello; Examples.world])
  /\ Forall legible [Examples.hello; Examples.world]
  /\ exists document,
       formatTranscript Examples.plainToString Examples.plainJson
         (map toObject [Examples.hello; Examples.world]) "srt"
       = Return document
       /\ List.length (blocks document) = 2%nat.
Proof.
  split; [exact hello_world_valid|].
  split; [exact hello_world_legible|].
  destruct (srt_one_block_per_segment Examples.plainToString Examples.plainJson
              [Examples.hello; Examples.world]
              hello_world_valid hello_world_legible)
    as [document [H1 [H2 _]]].
  exists document. split; [exact H1 | exact H2].
Defined.

(** C9, as stated, fails.  A caption whose text holds an empty line is
    rendered as two blocks; and a caption whose duration is [NaN], which
    validation accepts, gets an end time that is no time in the format:
    no line [start --> end] of two times [HH:MM:SS,mmm] equals it. *)
Lemma srt_blocks_miscounted :
  (valid (map toObject [Examples.stanzas])
   /\ exists document,
        formatTranscript Examples.plainToString Examples.plainJson
          (map toObject [Examples.stanzas]) "srt"
        = Return document
        /\ blocks document = [["1"; "00:00:01,000 --> 00:00:03,000"; "a"]; ["b"]]
        /\ List.length (blocks document) <> List.length [Examples.stanzas])
  /\ (valid (map toObject [Examples.endless])
      /\ exists document,
           formatTranscript Examples.plainToString Examples.plainJson
             (map toObject [Examples.endless]) "srt"
           = Return document
           /\ blocks document
              = [["1"; "00:00:00,000 --> NaN:NaN:NaN,NaN"; "x"]]
           /\ forall start finish,
                "00:00:00,000 --> NaN:NaN:NaN,NaN"
                <> clock "," start ++ " --> " ++ clock "," finish).
Proof.
  split.
  - split.
    + apply wellTyped_valid; [discriminate|].
      repeat constructor; [discriminate | reflexivity ..].
    + eexists. split; [vm_compute; reflexivity|].
      split; [vm_compute; reflexivity | vm_compute; discriminate].
  - split.
    + apply wellTyped_valid; [discriminate|].
      repeat constructor; [discriminate | reflexivity ..].
    + eexists. split; [vm_compute; reflexivity|].
      split; [vm_compute; reflexivity|].
      intros start finish E.
      apply (f_equal (every timingChar)) in E.
      rewrite !every_app, !clock_every in E by reflexivity.
      vm_compute in E. discriminate.
Qed.

Lemma blank_text_is_accepted_witness :
  blank (text Examples.spaces)
  /\ formatTranscript Examples.plainToString Examples.plainJson
       (map toObject ([Examples.hello] ++ Examples.spaces :: [Examples.world])) "txt"
     = Return (join (LF ++ LF) ["hello"; ""; "world"]).
Proof.
  split; [exact spaces_blank|].
  destruct (blank_text_is_accepted Examples.plainToString Examples.plainJson
              [Examples.hello] [Examples.world] Examples.spaces
              (Forall_cons _ hello_wellTyped (Forall_nil _))
              (Forall_cons _ world_wellTyped (Forall_nil _))
              spaces_blank eq_refl eq_refl)
    as [_ [_ H]].
  exact H.
Defined.

Lemma permanent_failure_aborts_witness :
  let r : completion (list TranscriptSegment) :=
    Error "Video is unavailable or has been removed" in
  let w' := {| lastRequestTime := 1002; consecutiveFailures := 0; clockReads := 3 |} in
  let events := [AttemptA "abc" (Throw (Some "Video unavailable"))] in
  getYouTubeTranscript Examples.unavailable "abc" Examples.idle = (r, w', events)
  /\ attempts events = [AttemptA "abc" (Throw (Some "Video unavailable"))]
  /\ consecutiveFailures w' = consecutiveFailures Examples.idle.
Proof.
  intros r w' events.
  assert (E : getYouTubeTranscript Examples.unavailable "abc" Examples.idle
              = (r, w', events)) by (vm_compute; reflexivity).
  split; [exact E|].
  split; [reflexivity|].
  destruct (permanent_failure_aborts Examples.unavailable "abc" Examples.idle
              r w' events "abc" "Video unavailable" [] E eq_refl eq_refl)
    as [_ [_ [_ H]]].
  exact H.
Defined.

Lemma offline_passedOver :
  passedOver (fetchTranscript Examples.offline "abc")
  /\ unsuccessfulB (parseYoutubeI Examples.offline "abc")
  /\ unsuccessfulA (fetchTranscript Examples.offline "https://www.youtube.com/watch?v=abc")
  /\ unsuccessfulA (fetchTranscript Examples.offline "https://youtu.be/abc").
Proof.
  repeat split.
Qed.

Lemma exhausted_increments_witness :
  "abc" <> ""
  /\ passedOver (fetchTranscript Examples.offline "abc")
  /\ unsuccessfulB (parseYoutubeI Examples.offline "abc")
  /\ unsuccessfulA (fetchTranscript Examples.offline "https://www.youtube.com/watch?v=abc")
  /\ unsuccessfulA (fetchTranscript Examples.offline "https://youtu.be/abc")
  /\ exists w' events,
       getYouTubeTranscript Examples.offline "abc" Examples.idle
       = (Error (errorMessage "abc"), w', events)
       /\ attempts events
          = [AttemptA "abc" (Throw (Some "fetch failed"));
             AttemptB "abc" (Throw (Some "fetch failed"));
             AttemptA "https://www.youtube.com/watch?v=abc" (Throw (Some "fetch failed"));
             AttemptA "https://youtu.be/abc" (Throw (Some "fetch failed"))]
       /\ consecutiveFailures w' = consecutiveFailures Examples.idle + 1.
Proof.
  assert (N : "abc" <> "") by discriminate.
  destruct offline_passedOver as [U1 [U2 [U3 U4]]].
  split; [exact N|]. split; [exact U1|]. split; [exact U2|].
  split; [exact U3|]. split; [exact U4|].
  exact (exhausted_increments Examples.offline "abc" Examples.idle N U1 U2 U3 U4).
Defined.

Lemma failure_counter_never_negative_witness :
  0 <= consecutiveFailures Examples.idle
  /\ 0 <= consecutiveFailures
            (resolveAll [(Examples.captioned, "abc"); (Examples.captioned, "abc");
                         (Examples.offline, "abc")] Examples.idle).
Proof.
  assert (H : 0 <= consecutiveFailures Examples.idle) by (cbn; lia).
  split; [exact H|].
  destruct (failure_counter_never_negative Examples.captioned "abc" Examples.idle
              [(Examples.captioned, "abc"); (Examples.captioned, "abc");
               (Examples.offline, "abc")] H)
    as [_ [G _]].
  exact G.
Defined.


(** * Properties of the further code *)

Import RegExp Urls Routes Spec2.

(** ** The matcher *)

Lemma all_nil (f : ascii -> bool) : all f "".
Proof.
  constructor.
Qed.

Lemma all_cons (f : ascii -> bool) (c : ascii) (s : string) :
  all f (String c s) <-> f c = true /\ all f s.
Proof.
  unfold all. cbn [list_ascii_of_string]. split.
  - intros H. inversion H; subst. now split.
  - intros [H1 H2]. now constructor.
Qed.

Lemma all_app (f : ascii -> bool) (a b : string) :
  all f (a ++ b) <-> all f a /\ all f b.
Proof.
  induction a as [|c a IH]; cbn [append].
  - split; [intros H; split; [apply all_nil | exact H] | now intros [_ H]].
  - rewrite !all_cons, IH. tauto.
Qed.

Lemma all_impl (f g : ascii -> bool) (s : string) :
  (forall c, f c = true -> g c = true) -> all f s -> all g s.
Proof.
  intros H. unfold all. apply Forall_impl. exact H.
Qed.

Lemma substring_prefix (t r : string) :
  substring 0 (String.length t) (t ++ r) = t.
Proof.
  induction t as [|c t IH]; cbn.
  - now destruct r.
  - now rewrite IH.
Qed.

Lemma run_Lit (L r : string) (A : Type) (k : state -> option A) :
  forall pos caps,
    run (Lit L) {| position := pos; rest := L ++ r; captures := caps |} k
    = k {| position := pos + String.length L; rest := r; captures := caps |}.
Proof.
  induction L as [|c L IH]; intros pos caps; cbn [Lit run append String.length rest position captures].
  - now rewrite Nat.add_0_r.
  - rewrite Ascii.eqb_refl, IH. now rewrite Nat.add_succ_comm.
Qed.

Lemma run_Lit_inv (L : string) (A : Type) (k : state -> option A) (a : A) :
  forall st,
    run (Lit L) st k = Some a ->
    exists r,
      rest st = L ++ r
      /\ k {| position := position st + String.length L; rest := r;
              captures := captures st |} = Some a.
Proof.
  induction L as [|c L IH]; intros [pos s caps] H;
    cbn [Lit run append String.length rest position captures] in *.
  - exists s. now rewrite Nat.add_0_r.
  - destruct s as [|d s]; [discriminate|].
    destruct (Ascii.eqb_spec c d) as [<-|]; [|discriminate].
    destruct (IH _ H) as [r [E K]]. cbn [rest position captures] in *.
    exists r. subst s. split; [reflexivity|].
    now rewrite <- Nat.add_succ_comm.
Qed.

Lemma run_Lit_reject (f : ascii -> bool) (L : string) (A : Type)
  (k : state -> option A) :
  existsb (fun c => negb (f c)) (list_ascii_of_string L) = true ->
  forall s pos caps,
    all f s ->
    run (Lit L) {| position := pos; rest := s; captures := caps |} k = None.
Proof.
  induction L as [|c L IH]; intros B s pos caps F; [discriminate|].
  cbn [Lit run rest position captures].
  destruct s as [|d s]; [reflexivity|].
  apply all_cons in F. destruct F as [Fd Fs].
  destruct (Ascii.eqb_spec c d) as [<-|]; [|reflexivity].
  cbn [list_ascii_of_string existsb] in B. rewrite Fd in B. cbn in B.
  now apply IH.
Qed.

Lemma run_Times_Class (f : ascii -> bool) (A : Type) (k : state -> option A) :
  forall n t r pos caps,
    String.length t = n ->
    all f t ->
    run (Times n (Class f)) {| position := pos; rest := t ++ r; captures := caps |} k
    = k {| position := pos + n; rest := r; captures := caps |}.
Proof.
  induction n as [|n IH]; intros t r pos caps L F.
  - destruct t; [|discriminate]. cbn. now rewrite Nat.add_0_r.
  - destruct t as [|c t]; [discriminate|]. injection L as L.
    apply all_cons in F. destruct F as [Fc Ft].
    cbn [Times run append rest position captures]. rewrite Fc.
    rewrite (IH t r (S pos) caps L Ft). now rewrite Nat.add_succ_comm.
Qed.

Lemma run_Times_Class_inv (f : ascii -> bool) (A : Type) (k : state -> option A)
  (a : A) :
  forall n st,
    run (Times n (Class f)) st k = Some a ->
    exists t r,
      rest st = t ++ r /\ String.length t = n /\ all f t
      /\ k {| position := position st + n; rest := r; captures := captures st |}
         = Some a.
Proof.
  induction n as [|n IH]; intros [pos s caps] H;
    cbn [Times run rest position captures] in *.
  - exists "", s. rewrite Nat.add_0_r. repeat split; [apply all_nil | exact H].
  - destruct s as [|c s]; [discriminate|].
    destruct (f c) eqn:Fc; [|discriminate].
    destruct (IH _ H) as [t [r [E [L [F K]]]]]. cbn [rest position captures] in *.
    exists (String c t), r. subst s. repeat split.
    + cbn. now rewrite L.
    + now apply all_cons.
    + now rewrite <- Nat.add_succ_comm.
Qed.

Lemma star_inv (f : ascii -> bool) (A : Type) (k : state -> option A) (a : A) :
  forall s pos caps,
    star f s pos caps k = Some a ->
    exists t r,
      s = t ++ r /\ all f t
      /\ k {| position := pos + String.length t; rest := r; captures := caps |}
         = Some a.
Proof.
  induction s as [|c s IH]; intros pos caps H; cbn [star] in H.
  - exists "", "". rewrite Nat.add_0_r. repeat split; [apply all_nil | exact H].
  - assert (Here : k {| position := pos; rest := String c s; captures := caps |} = Some a ->
                   exists t r, String c s = t ++ r /\ all f t
                     /\ k {| position := pos + String.length t; rest := r;
                             captures := caps |} = Some a).
    { intros K. exists "", (String c s). rewrite Nat.add_0_r.
      repeat split; [apply all_nil | exact K]. }
    destruct (f c) eqn:Fc; [|now apply Here].
    destruct (star f s (S pos) caps k) as [b|] eqn:E; [|now apply Here].
    injection H as ->.
    destruct (IH _ _ E) as [t [r [-> [F K]]]].
    exists (String c t), r. repeat split.
    + now apply all_cons.
    + cbn [String.length]. now rewrite <- Nat.add_succ_comm.
Qed.

Lemma take_drop_while (f : ascii -> bool) (s : string) :
  s = takeWhile f s ++ dropWhile f s.
Proof.
  induction s as [|c s IH]; cbn; [reflexivity|].
  destruct (f c); cbn; [now rewrite <- IH | reflexivity].
Qed.

Lemma takeWhile_all (f : ascii -> bool) (s : string) : all f (takeWhile f s).
Proof.
  induction s as [|c s IH]; cbn; [apply all_nil|].
  destruct (f c) eqn:E; [now apply all_cons | apply all_nil].
Qed.

(** Under a continuation that accepts everything, [c*] takes the longest
    run. *)
Lemma star_greedy (f : ascii -> bool) (A : Type) (k : state -> option A) :
  (forall st, k st <> None) ->
  forall s pos caps,
    star f s pos caps k
    = k {| position := pos + String.length (takeWhile f s);
           rest := dropWhile f s; captures := caps |}.
Proof.
  intros T. induction s as [|c s IH]; intros pos caps; cbn [star takeWhile dropWhile].
  - cbn. now rewrite Nat.add_0_r.
  - destruct (f c).
    + rewrite IH. cbn [String.length]. rewrite Nat.add_succ_comm.
      destruct (k _) eqn:E; [reflexivity | now elim (T _ E)].
    + cbn. now rewrite Nat.add_0_r.
Qed.

(** A successful run ends in its continuation, on a suffix of the input. *)
Lemma run_continues (A : Type) (a : A) (p : pattern) :
  forall st (k : state -> option A),
    run p st k = Some a ->
    exists st' consumed,
      k st' = Some a /\ rest st = consumed ++ rest st'.
Proof.
  induction p as [|c|f|p IHp q IHq|p IHp q IHq|f|i p IHp| |];
    intros [pos s caps] k H; cbn [run rest position captures] in H.
  - exists {| position := pos; rest := s; captures := caps |}, "". now split.
  - destruct s as [|d s]; [discriminate|].
    destruct (Ascii.eqb c d); [|discriminate].
    eexists; exists (String d ""). split; [exact H | reflexivity].
  - destruct s as [|d s]; [discriminate|].
    destruct (f d); [|discriminate].
    eexists; exists (String d ""). split; [exact H | reflexivity].
  - destruct (IHp _ _ H) as [st1 [c1 [H1 E1]]].
    destruct (IHq _ _ H1) as [st2 [c2 [H2 E2]]].
    exists st2, (c1 ++ c2). split; [exact H2|].
    cbn [rest] in *. now rewrite E1, E2, append_assoc'.
  - destruct (run p _ k) as [b|] eqn:E.
    + injection H as ->. exact (IHp _ _ E).
    + exact (IHq _ _ H).
  - destruct (star_inv _ _ _ _ _ _ _ H) as [t [r [E [_ K]]]].
    eexists; exists t. split; [exact K | exact E].
  - destruct (IHp _ _ H) as [st1 [c1 [H1 E1]]].
    eexists; exists c1. split; [exact H1 | exact E1].
  - destruct (pos =? 0)%nat; [|discriminate].
    eexists; exists "". split; [exact H | reflexivity].
  - destruct s; [|discriminate].
    eexists; exists "". split; [exact H | reflexivity].
Qed.

(** A match found by [exec] starts at some position of the input. *)
Lemma execFrom_inv (p : pattern) (st : state) :
  forall s pos,
    execFrom p pos s = Some st ->
    exists before after,
      s = before ++ after
      /\ run p {| position := pos + String.length before; rest := after;
                  captures := [] |} Some = Some st.
Proof.
  induction s as [|c s IH]; intros pos H; cbn [execFrom] in H.
  - destruct (run p _ Some) as [b|] eqn:E; [|discriminate].
    injection H as ->. exists "", "". rewrite Nat.add_0_r. now split.
  - destruct (run p _ Some) as [b|] eqn:E.
    + injection H as ->. exists "", (String c s). rewrite Nat.add_0_r. now split.
    + destruct (IH _ H) as [before [after [-> R]]].
      exists (String c before), after. split; [reflexivity|].
      cbn [String.length]. now rewrite <- Nat.add_succ_comm.
Qed.

Lemma execFrom_skip (p : pattern) (c : ascii) (s : string) (pos : nat) :
  run p {| position := pos; rest := String c s; captures := [] |} Some = None ->
  execFrom p pos (String c s) = execFrom p (S pos) s.
Proof.
  intros H. cbn [execFrom]. now rewrite H.
Qed.

Lemma execFrom_none (p : pattern) :
  forall s pos,
    (forall before after pos',
        s = before ++ after ->
        run p {| position := pos'; rest := after; captures := [] |} Some = None) ->
    execFrom p pos s = None.
Proof.
  induction s as [|c s IH]; intros pos H; cbn [execFrom].
  - now rewrite (H "" "" pos eq_refl).
  - rewrite (H "" (String c s) pos eq_refl).
    apply IH. intros before after pos' E.
    apply (H (String c before) after pos'). now rewrite E.
Qed.

Lemma execFrom_hit (p : pattern) (s : string) (pos : nat) (st : state) :
  run p {| position := pos; rest := s; captures := [] |} Some = Some st ->
  execFrom p pos s = Some st.
Proof.
  intros H. destruct s; cbn [execFrom]; now rewrite H.
Qed.

Lemma prefix_reject (f : ascii -> bool) (L : string) :
  existsb (fun c => negb (f c)) (list_ascii_of_string L) = true ->
  forall s, all f s -> prefix L s = false.
Proof.
  induction L as [|c L IH]; intros B s F; [discriminate|].
  destruct s as [|d s]; [reflexivity|].
  apply all_cons in F. destruct F as [Fd Fs].
  cbn [prefix]. destruct (ascii_dec c d) as [<-|]; [|reflexivity].
  cbn [list_ascii_of_string existsb] in B. rewrite Fd in B. cbn in B.
  now apply IH.
Qed.

Lemma includes_reject (f : ascii -> bool) (L : string) :
  existsb (fun c => negb (f c)) (list_ascii_of_string L) = true ->
  forall s, all f s -> includes s L = false.
Proof.
  intros B. induction s as [|d s IH]; intros F; cbn [includes].
  - now rewrite (prefix_reject f L B "" F).
  - rewrite (prefix_reject f L B _ F). apply all_cons in F. now apply IH.
Qed.

Lemma idChar_notSeparator (c : ascii) : idChar c = true -> notSeparator c = true.
Proof.
  destruct c as [[|] [|] [|] [|] [|] [|] [|] [|]]; cbv; congruence.
Qed.

(** ** The id test of the routes and the bare-id expression *)

Lemma length_all_split (s : string) (t r : string) :
  s = t ++ r -> r = "" -> s = t.
Proof.
  intros -> ->. apply append_empty_r.
Qed.

Lemma idFormat_test (s : string) : test idFormatPattern s = true <-> isId s.
Proof.
  unfold test, exec. split.
  - destruct (execFrom idFormatPattern 0 s) as [st|] eqn:E; [intros _ | discriminate].
    destruct (execFrom_inv _ _ _ _ E) as [before [after [-> R]]].
    unfold idFormatPattern in R. cbn [run position] in R.
    destruct before as [|c before]; [|discriminate R].
    cbn in R.
    change (run (Times 11 (Class idChar))
              {| position := 0; rest := after; captures := [] |}
              (fun st' => run Finish st' Some) = Some st) in R.
    destruct (run_Times_Class_inv _ _ _ _ _ _ R) as [t [r [Er [L [F K]]]]].
    cbn [run rest position captures] in *.
    destruct r; [|discriminate K].
    cbn [append]. rewrite Er, append_empty_r. now split.
  - intros [L F].
    assert (R : run idFormatPattern {| position := 0; rest := s; captures := [] |} Some
                = Some {| position := 11; rest := ""; captures := [] |}).
    { unfold idFormatPattern. cbn [run position]. cbn [Nat.eqb].
      rewrite <- (append_empty_r s) at 1.
      change (run (Times 11 (Class idChar))
                {| position := 0; rest := s ++ ""; captures := [] |}
                (fun st' => run Finish st' Some) = Some {| position := 11; rest := ""; captures := [] |}).
      now rewrite (run_Times_Class idChar _ _ 11%nat s "" 0%nat [] L F). }
    now rewrite (execFrom_hit _ _ _ _ R).
Qed.

(** X1.  The test [/^[a-zA-Z0-9_-]{11}$/] of the two [GET] routes accepts
    exactly the strings of eleven characters from [a-zA-Z0-9_-]. *)
Theorem idFormat_accepts_exactly (s : string) :
  test idFormatPattern s = true <-> isId s.
Proof.
  apply idFormat_test.
Qed.



Lemma run_Seq (A : Type) (p q : pattern) (st : state) (k : state -> option A) :
  run (Seq p q) st k = run p st (fun st' => run q st' k).
Proof.
  reflexivity.
Qed.

Lemma run_Start (A : Type) (s : string) (caps : list (nat * string))
  (k : state -> option A) :
  run Start {| position := 0; rest := s; captures := caps |} k
  = k {| position := 0; rest := s; captures := caps |}.
Proof.
  reflexivity.
Qed.

Lemma run_Alt (A : Type) (p q : pattern) (st : state) (k : state -> option A) :
  run (Alt p q) st k
  = match run p st k with Some a => Some a | None => run q st k end.
Proof.
  reflexivity.
Qed.

Lemma run_Group_Times (f : ascii -> bool) (A : Type) (k : state -> option A)
  (i n : nat) (t r : string) (pos : nat) (caps : list (nat * string)) :
  String.length t = n ->
  all f t ->
  run (Group i (Times n (Class f)))
    {| position := pos; rest := t ++ r; captures := caps |} k
  = k {| position := pos + n; rest := r; captures := (i, t) :: caps |}.
Proof.
  intros L F. cbn [run]. rewrite (run_Times_Class f _ _ n t r pos caps L F).
  cbn [position rest captures].
  replace (pos + n - pos)%nat with (String.length t) by lia.
  now rewrite substring_prefix.
Qed.

Lemma run_Group_Times_inv (f : ascii -> bool) (A : Type) (k : state -> option A)
  (a : A) (i n : nat) (st : state) :
  run (Group i (Times n (Class f))) st k = Some a ->
  exists t r,
    rest st = t ++ r /\ String.length t = n /\ all f t
    /\ k {| position := position st + n; rest := r;
            captures := (i, t) :: captures st |} = Some a.
Proof.
  intros H. cbn [run] in H.
  destruct (run_Times_Class_inv _ _ _ _ _ _ H) as [t [r [E [L [F K]]]]].
  cbn [position rest captures] in K.
  exists t, r. repeat split; try assumption.
  replace (position st + n - position st)%nat with (String.length t) in K by lia.
  now rewrite E, substring_prefix in K.
Qed.

Lemma exec_bareId (s : string) :
  isId s ->
  exec bareIdPattern s
  = Some {| position := 11; rest := ""; captures := [(1%nat, s)] |}.
Proof.
  intros [L F]. apply execFrom_hit.
  unfold bareIdPattern. rewrite run_Seq, run_Start, run_Seq.
  rewrite <- (append_empty_r s) at 1.
  rewrite (run_Group_Times idChar _ _ 1%nat 11%nat s "" 0%nat [] L F).
  reflexivity.
Qed.

Lemma exec_bareId_inv (s : string) (st : state) :
  exec bareIdPattern s = Some st -> isId s /\ captures st = [(1%nat, s)].
Proof.
  intros E. destruct (execFrom_inv _ _ _ _ E) as [before [after [-> R]]].
  unfold bareIdPattern in R. rewrite run_Seq in R.
  destruct before as [|c before]; [|discriminate R].
  cbn [String.length Nat.add append] in *.
  rewrite run_Start, run_Seq in R.
  destruct (run_Group_Times_inv _ _ _ _ _ _ _ R) as [t [r [Er [L [F K]]]]].
  cbn [run rest position captures] in *.
  destruct r; [|discriminate K]. injection K as <-.
  rewrite append_empty_r in Er. subst after.
  split; [now split | reflexivity].
Qed.

(** No alternative of the first expression of [extractVideoId] starts inside
    a string made of id characters: each needs a ['.']. *)
Lemma videoUrlPattern_rejects_ids (s : string) (pos : nat) :
  all idChar s ->
  run videoUrlPattern {| position := pos; rest := s; captures := [] |} Some = None.
Proof.
  intros F. unfold videoUrlPattern. rewrite run_Seq, !run_Alt.
  rewrite (run_Lit_reject idChar "youtube.com/watch?v=" _ _ eq_refl s pos [] F).
  rewrite (run_Lit_reject idChar "youtu.be/" _ _ eq_refl s pos [] F).
  rewrite (run_Lit_reject idChar "youtube.com/embed/" _ _ eq_refl s pos [] F).
  rewrite (run_Lit_reject idChar "youtube.com/v/" _ _ eq_refl s pos [] F).
  rewrite (run_Lit_reject idChar "m.youtube.com/watch?v=" _ _ eq_refl s pos [] F).
  rewrite run_Seq.
  rewrite (run_Lit_reject idChar "youtube.com/watch?" _ _ eq_refl s pos [] F).
  reflexivity.
Qed.

Lemma exec_videoUrl_id (s : string) :
  all idChar s -> exec videoUrlPattern s = None.
Proof.
  intros F. apply execFrom_none. intros before after pos' E.
  apply videoUrlPattern_rejects_ids. subst s. now apply all_app in F.
Qed.

Lemma isId_truthy (s : string) : isId s -> JSString.truthy s = true.
Proof.
  intros [L _]. now destruct s.
Qed.

(** X2.  A bare well-formed id is its own video id, is accepted by
    [isValidYouTubeUrl] and is classified as a video. *)
Theorem bare_id_is_recognised (id : string) :
  isId id ->
  extractVideoId id = Some id
  /\ isValidYouTubeUrl id = true
  /\ getYouTubeUrlType id = "video".
Proof.
  intros I. pose proof (isId_truthy _ I) as T. destruct I as [L F].
  assert (E : extractVideoId id = Some id).
  { unfold extractVideoId, firstGroup. rewrite T. cbn [negb].
    rewrite (exec_videoUrl_id _ F), (exec_bareId id (conj L F)).
    cbn. reflexivity. }
  split; [exact E|]. split.
  - unfold isValidYouTubeUrl, test. rewrite T. cbn [negb].
    rewrite (exec_bareId id (conj L F)). apply orb_true_r.
  - unfold getYouTubeUrlType. rewrite T. cbn [negb].
    rewrite (includes_reject idChar "list=" eq_refl id F), E.
    now destruct id.
Qed.

(** ** The URL forms of the resolver, read back *)

Lemma run_videoUrl_watch (id : string) (pos : nat) :
  isId id ->
  run videoUrlPattern
    {| position := pos; rest := "youtube.com/watch?v=" ++ id; captures := [] |} Some
  = Some {| position := pos + 20 + 11; rest := ""; captures := [(1%nat, id)] |}.
Proof.
  intros [L F]. unfold videoUrlPattern. rewrite run_Seq, run_Alt, run_Lit.
  rewrite <- (append_empty_r id) at 1.
  rewrite (run_Group_Times notSeparator _ _ 1%nat 11%nat id "" _ [] L
             (all_impl _ _ _ idChar_notSeparator F)).
  reflexivity.
Qed.

Lemma run_videoUrl_short (id : string) (pos : nat) :
  isId id ->
  run videoUrlPattern
    {| position := pos; rest := "youtu.be/" ++ id; captures := [] |} Some
  = Some {| position := pos + 9 + 11; rest := ""; captures := [(1%nat, id)] |}.
Proof.
  intros [L F]. unfold videoUrlPattern. rewrite run_Seq, run_Alt.
  replace (run (Lit "youtube.com/watch?v=")
             {| position := pos; rest := "youtu.be/" ++ id; captures := [] |}
             (fun st' => run (Group 1 (Times 11 (Class notSeparator))) st' Some))
    with (@None state) by reflexivity.
  rewrite run_Alt, run_Lit.
  rewrite <- (append_empty_r id) at 1.
  rewrite (run_Group_Times notSeparator _ _ 1%nat 11%nat id "" _ [] L
             (all_impl _ _ _ idChar_notSeparator F)).
  reflexivity.
Qed.

Lemma includes_cons (c : ascii) (s p : string) :
  includes (String c s) p = prefix p (String c s) || includes s p.
Proof.
  reflexivity.
Qed.

Ltac skip_includes :=
  repeat (rewrite includes_cons;
          match goal with
          | |- context [prefix ?p (String ?c ?s)] =>
              replace (prefix p (String c s)) with false by reflexivity
          end;
          cbn [orb]).

Lemma extract_watch_url (id : string) :
  isId id ->
  extractVideoId ("https://www.youtube.com/watch?v=" ++ id) = Some id
  /\ isValidYouTubeUrl ("https://www.youtube.com/watch?v=" ++ id) = true
  /\ getYouTubeUrlType ("https://www.youtube.com/watch?v=" ++ id) = "video".
Proof.
  intros I.
  assert (E : extractVideoId ("https://www.youtube.com/watch?v=" ++ id) = Some id).
  { unfold extractVideoId, firstGroup, exec. cbn [append JSString.truthy negb].
    do 12 (rewrite execFrom_skip by reflexivity).
    change (String "y" _) with ("youtube.com/watch?v=" ++ id).
    rewrite (execFrom_hit _ _ _ _ (run_videoUrl_watch id 12 I)). reflexivity. }
  split; [exact E|]. split.
  - reflexivity.
  - unfold getYouTubeUrlType. rewrite E. cbn [append JSString.truthy negb].
    skip_includes.
    rewrite (includes_reject idChar "list=" eq_refl id (proj2 I)).
    destruct I as [L _]. clear E. destruct id; [discriminate L | reflexivity].
Qed.

Lemma extract_short_url (id : string) :
  isId id ->
  extractVideoId ("https://youtu.be/" ++ id) = Some id
  /\ isValidYouTubeUrl ("https://youtu.be/" ++ id) = true
  /\ getYouTubeUrlType ("https://youtu.be/" ++ id) = "video".
Proof.
  intros I.
  assert (E : extractVideoId ("https://youtu.be/" ++ id) = Some id).
  { unfold extractVideoId, firstGroup, exec. cbn [append JSString.truthy negb].
    do 8 (rewrite execFrom_skip by reflexivity).
    change (String "y" _) with ("youtu.be/" ++ id).
    rewrite (execFrom_hit _ _ _ _ (run_videoUrl_short id 8 I)). reflexivity. }
  split; [exact E|]. split.
  - reflexivity.
  - unfold getYouTubeUrlType. rewrite E. cbn [append JSString.truthy negb].
    skip_includes.
    rewrite (includes_reject idChar "list=" eq_refl id (proj2 I)).
    destruct I as [L _]. clear E. destruct id; [discriminate L | reflexivity].
Qed.

(** X3.  The two URLs the resolver builds from a well-formed id are read
    back by the URL helpers: each is a valid YouTube URL of type video whose
    video id is the id it was built from. *)
Theorem urlFormats_round_trip (id : string) :
  isId id ->
  Forall (fun url =>
            extractVideoId url = Some id
            /\ isValidYouTubeUrl url = true
            /\ getYouTubeUrlType url = "video")
         (urlFormats id).
Proof.
  intros I. unfold urlFormats.
  repeat constructor;
    first [ apply (extract_watch_url id I) | apply (extract_short_url id I) ].
Qed.

(** ** What [extractVideoId] and [extractPlaylistId] return *)

Lemma includes_refl (s : string) : includes s s = true.
Proof.
  apply includes_prefix. rewrite <- (append_empty_r s) at 2.
  apply prefix_refl_app.
Qed.

Lemma includes_middle (a p b : string) (s : string) :
  s = a ++ p ++ b -> includes s p = true.
Proof.
  intros ->. apply includes_app.
Qed.

(** X4.  Whatever [extractVideoId] returns has exactly eleven characters,
    none of them ['#'], ['&'] or ['?'], and occurs in the URL. *)
Theorem extractVideoId_shape (url v : string) :
  extractVideoId url = Some v ->
  String.length v = 11%nat /\ all notSeparator v /\ includes url v = true.
Proof.
  unfold extractVideoId, firstGroup.
  destruct (negb (JSString.truthy url)); [discriminate|].
  destruct (exec videoUrlPattern url) as [st|] eqn:E.
  - intros G.
    destruct (execFrom_inv _ _ _ _ E) as [before [after [-> R]]].
    unfold videoUrlPattern in R. rewrite run_Seq in R.
    destruct (run_continues _ _ _ _ _ R) as [st1 [consumed [R1 S1]]].
    destruct (run_Group_Times_inv _ _ _ _ _ _ _ R1) as [t [r [Er [L [F K]]]]].
    injection K as <-. cbn [captures group Nat.eqb] in G. injection G as <-.
    repeat split; try assumption.
    cbn [rest] in S1. rewrite S1, Er.
    apply (includes_middle (before ++ consumed) t r).
    now rewrite !append_assoc'.
  - destruct (exec bareIdPattern url) as [st|] eqn:B; [|discriminate].
    destruct (exec_bareId_inv _ _ B) as [[L F] C]. rewrite C.
    cbn [group Nat.eqb]. intros [= <-].
    repeat split; [exact L | exact (all_impl _ _ _ idChar_notSeparator F)
                  | apply includes_refl].
Qed.

Lemma run_Class_inv (f : ascii -> bool) (A : Type) (k : state -> option A)
  (a : A) (st : state) :
  run (Class f) st k = Some a ->
  exists c r,
    rest st = String c r /\ f c = true
    /\ k {| position := S (position st); rest := r; captures := captures st |}
       = Some a.
Proof.
  cbn [run]. destruct (rest st) as [|c r]; [discriminate|].
  destruct (f c) eqn:F; [|discriminate].
  intros K. now exists c, r.
Qed.

Lemma run_Group (A : Type) (i : nat) (p : pattern) (st : state)
  (k : state -> option A) :
  run (Group i p) st k
  = run p st
      (fun st' =>
         k {| position := position st'; rest := rest st';
              captures :=
                (i, substring 0 (position st' - position st) (rest st))
                :: captures st' |}).
Proof.
  reflexivity.
Qed.

Lemma run_Star (A : Type) (f : ascii -> bool) (st : state) (k : state -> option A) :
  run (Star f) st k = star f (rest st) (position st) (captures st) k.
Proof.
  reflexivity.
Qed.

(** What a match of the playlist expression captures: the longest run of
    id characters after [list=]. *)
Lemma playlistPattern_inv (pos : nat) (s : string) (st : state) :
  run playlistPattern {| position := pos; rest := s; captures := [] |} Some = Some st ->
  exists c e r,
    s = String c ("list=" ++ String e r)
    /\ idChar e = true
    /\ captures st = [(1%nat, String e (takeWhile idChar r))].
Proof.
  unfold playlistPattern, Plus. rewrite run_Seq. intros R.
  destruct (run_Class_inv _ _ _ _ _ R) as [c [r0 [E0 [_ R1]]]].
  cbn [rest position captures] in *. subst s.
  rewrite run_Seq in R1.
  destruct (run_Lit_inv _ _ _ _ _ R1) as [r1 [E1 R2]].
  cbn [rest position captures] in *. subst r0.
  rewrite run_Group, run_Seq in R2.
  destruct (run_Class_inv _ _ _ _ _ R2) as [e [r [E2 [Fe R3]]]].
  cbn [rest position captures] in *. subst r1.
  rewrite run_Star in R3. cbn [rest position captures] in R3.
  rewrite star_greedy in R3 by discriminate.
  cbv beta in R3. cbn [position rest captures] in R3.
  assert (Sub : substring 0
                  (S (S pos + String.length "list=") + String.length (takeWhile idChar r)
                   - (S pos + String.length "list="))
                  (String e r)
                = String e (takeWhile idChar r)).
  { replace (S (S pos + String.length "list=") + String.length (takeWhile idChar r)
             - (S pos + String.length "list="))%nat
      with (String.length (String e (takeWhile idChar r)))
      by (cbn [String.length]; lia).
    replace (String e r)
      with (String e (takeWhile idChar r) ++ dropWhile idChar r)
      by (cbn [append]; now rewrite <- take_drop_while).
    apply substring_prefix. }
  rewrite Sub in R3. injection R3 as <-.
  exists c, e, r. repeat split. exact Fe.
Qed.

(** X5.  A playlist id returned by [extractPlaylistId] is a non-empty run
    of id characters that follows [list=] in the URL and is not continued by
    another id character; such a URL is classified as a playlist. *)
Theorem extractPlaylistId_shape (url p : string) :
  extractPlaylistId url = Some p ->
  p <> ""
  /\ all idChar p
  /\ (exists before after,
         url = before ++ "list=" ++ p ++ after
         /\ takeWhile idChar after = "")
  /\ getYouTubeUrlType url = "playlist".
Proof.
  unfold extractPlaylistId, firstGroup.
  destruct (JSString.truthy url) eqn:T; [|discriminate]. cbn [negb].
  destruct (exec playlistPattern url) as [st|] eqn:E; [|discriminate].
  intros G.
  destruct (execFrom_inv _ _ _ _ E) as [before [after [-> R]]].
  destruct (playlistPattern_inv _ _ _ R) as [c [e [r [-> [Fe C]]]]].
  rewrite C in G. cbn [group Nat.eqb] in G. injection G as <-.
  assert (U : before ++ String c ("list=" ++ String e r)
              = (before ++ String c "") ++ "list=" ++ String e (takeWhile idChar r)
                ++ dropWhile idChar r).
  { rewrite append_assoc'. cbn [append]. do 8 f_equal.
    apply take_drop_while. }
  split; [discriminate|]. split.
  - apply all_cons. split; [exact Fe | apply takeWhile_all].
  - split.
    + exists (before ++ String c ""), (dropWhile idChar r). split; [exact U|].
      clear. induction r as [|d r IH]; cbn; [reflexivity|].
      destruct (idChar d) eqn:D; [exact IH | cbn; now rewrite D].
    + unfold getYouTubeUrlType. rewrite T. cbn [negb].
      rewrite (includes_middle (before ++ String c "") "list="
                 (String e r) _).
      * reflexivity.
      * rewrite append_assoc'. reflexivity.
Qed.

(** ** The search route *)

(** X6.  The search route answers with a video exactly when the body
    carries a string that [isValidYouTubeUrl] accepts, that does not contain
    [list=], and from which a video id can be extracted; the answer then
    carries that id, the placeholder title and the thumbnail built from it.
    Every other answer is an error of status 400 or 500, and it is never
    the channel error nor the could-not-extract error.  The route throws
    only when reading the body was rejected with [null] or [undefined]:
    its [catch] block then fails to read [message]. *)
Theorem searchRoute_answers (body : completion value) :
  match searchRoute body with
  | Throw error =>
      exists null,
        body = Throw (Nullish null)
        /\ error = Value (Some (cannotRead null "message"))
  | Return (VideoJson id title u dur thumb) =>
      body = Return (VString u)
      /\ isValidYouTubeUrl u = true
      /\ includes u "list=" = false
      /\ extractVideoId u = Some id
      /\ String.length id = 11%nat
      /\ title = "Video " ++ id
      /\ dur = ofZ 0
      /\ thumb = "https://img.youtube.com/vi/" ++ id ++ "/maxresdefault.jpg"
  | Return (Json status error _ _) =>
      (status = 400 \/ status = 500)
      /\ error <> "Channel URLs are not supported"
      /\ error <> "Invalid video URL - could not extract video ID"
      /\ (forall u id,
             body = Return (VString u) ->
             isValidYouTubeUrl u = true ->
             includes u "list=" = false ->
             extractVideoId u <> Some id)
  | Return _ => False
  end.
Proof.
  destruct body as [url | [message | null]]; cbn [searchRoute].
  2: { repeat split; [now right | discriminate | discriminate | discriminate]. }
  2: { exists null. split; reflexivity. }
  destruct (toBoolean url) eqn:B; cbn [negb].
  2: { repeat split; [now left | discriminate | discriminate|].
       intros u id [= ->] V _ _. cbn in B. destruct u; [discriminate V | discriminate B]. }
  destruct url as [| | b | x | u |];
    try (repeat split; [now left | discriminate | discriminate | discriminate]).
  destruct (isValidYouTubeUrl u) eqn:V; cbn [negb].
  2: { repeat split; [now left | discriminate | discriminate|].
       intros u' id [= <-]. congruence. }
  unfold getYouTubeUrlType.
  destruct u as [|c0 u0]; [discriminate B|].
  cbn [JSString.truthy negb].
  destruct (includes (String c0 u0) "list=") eqn:I.
  { change ("playlist" =? "playlist")%string with true. cbv iota.
    repeat split; [now left | discriminate | discriminate|].
    intros u' id [= <-]. congruence. }
  destruct (extractVideoId (String c0 u0)) as [[|c1 v1]|] eqn:E.
  - change ("unknown" =? "playlist")%string with false.
    change ("unknown" =? "video")%string with false.
    change ("unknown" =? "channel")%string with false. cbv iota.
    repeat split; [now left | discriminate | discriminate|].
    intros u' id [= <-] _ _ H. rewrite E in H. injection H as <-.
    now destruct (extractVideoId_shape _ _ E).
  - change ("video" =? "playlist")%string with false.
    change ("video" =? "video")%string with true. cbv iota.
    cbn [getVideoInfo JSString.truthy negb VideoInfo.title VideoInfo.duration
         VideoInfo.thumbnail].
    destruct (extractVideoId_shape _ _ E) as [L _].
    repeat split; assumption.
  - change ("unknown" =? "playlist")%string with false.
    change ("unknown" =? "video")%string with false.
    change ("unknown" =? "channel")%string with false. cbv iota.
    repeat split; [now left | discriminate | discriminate|].
    intros u' id [= <-] _ _. congruence.
Qed.

(** ** More of the renderer *)

Section Renderer2.

Variable toStringOther : number -> string.
Variable JSON_stringify : list TranscriptSegment -> string.

Lemma checkSegment_valid (o : SegmentObject) (index : nat) :
  ~ invalidSegment o -> checkSegment o index = None.
Proof.
  intros V. destruct (checkSegment o index) as [m|] eqn:E; [|reflexivity].
  elim V. eapply checkSegment_rejects; eassumption.
Qed.

Lemma checkFrom_skip_valid (before rest : list SegmentObject) :
  Forall (fun x => ~ invalidSegment x) before ->
  forall index,
    checkFrom index (before ++ rest)%list
    = checkFrom (index + List.length before) rest.
Proof.
  induction 1 as [|o before Ho _ IH]; intros index; cbn [app List.length checkFrom].
  - now rewrite Nat.add_0_r.
  - rewrite (checkSegment_valid o index Ho), IH. f_equal. lia.
Qed.

Lemma checkSegment_kind (o : SegmentObject) (index : nat) :
  invalidSegment o ->
  exists kind,
    checkSegment o index
    = Some ("Invalid " ++ kind ++ " in segment " ++ ofN (N.of_nat index))
    /\ (kind = "text" /\ invalidText (text_ o)
        \/ kind = "duration" /\ ~ invalidText (text_ o)
           /\ invalidNumber (duration_ o)
        \/ kind = "offset" /\ ~ invalidText (text_ o)
           /\ ~ invalidNumber (duration_ o) /\ invalidNumber (offset_ o)).
Proof.
  intros I.
  destruct (checkSegment o index) as [m|] eqn:E.
  2: { destruct (checkSegment_accepts _ _ E) as [V _]. now elim V. }
  clear I. revert E. unfold checkSegment.
  assert (T : toBoolean (text_ o) = true /\ (typeof (text_ o) =? "string")%string = true
              -> ~ invalidText (text_ o)).
  { intros [B S] [F | F]; [|congruence].
    destruct (text_ o); try discriminate S. now eapply F. }
  assert (N : forall v,
             (typeof v =? "number")%string = true ->
             match v with VNumber x => ltb x zero | _ => false end = false ->
             ~ invalidNumber v).
  { intros v S L [F | [x [-> G]]]; [|congruence].
    destruct v; try discriminate S. now eapply F. }
  assert (T' : negb (toBoolean (text_ o))
               || negb (typeof (text_ o) =? "string")%string = true
               -> invalidText (text_ o)).
  { intros H. destruct (text_ o) as [| | b | x | s |]; cbn in *;
      try (left; discriminate). right. now destruct s. }
  assert (N' : forall v,
             negb (typeof v =? "number")%string
             || match v with VNumber x => ltb x zero | _ => false end = true ->
             invalidNumber v).
  { intros v H. destruct v as [| | b | x | s |]; cbn in *;
      try (left; discriminate). right. now exists x. }
  destruct (negb (toBoolean (text_ o))
            || negb (typeof (text_ o) =? "string")%string) eqn:C1.
  { intros [= <-]. exists "text". split; [reflexivity|]. left. split; auto. }
  apply orb_false_elim in C1. destruct C1 as [C1a C1b].
  apply negb_false_iff in C1a, C1b.
  destruct (negb (typeof (duration_ o) =? "number")%string
            || match duration_ o with VNumber x => ltb x zero | _ => false end)
    eqn:C2.
  { intros [= <-]. exists "duration". split; [reflexivity|].
    right; left. repeat split; auto. }
  apply orb_false_elim in C2. destruct C2 as [C2a C2b].
  apply negb_false_iff in C2a.
  destruct (negb (typeof (offset_ o) =? "number")%string
            || match offset_ o with VNumber x => ltb x zero | _ => false end)
    eqn:C3; [|discriminate].
  intros [= <-]. exists "offset". split; [reflexivity|].
  right; right. repeat split; auto.
Qed.

(** X7.  When validation fails, the error names the first invalid segment
    by its index, and in that segment the first failing check in the order
    text, duration, offset. *)
Theorem first_invalid_segment_is_reported
  (before after : list SegmentObject) (o : SegmentObject) (format : string) :
  Forall (fun x => ~ invalidSegment x) before ->
  invalidSegment o ->
  exists kind,
    formatTranscript toStringOther JSON_stringify (before ++ o :: after)%list format
    = Error ("Invalid " ++ kind ++ " in segment "
             ++ ofN (N.of_nat (List.length before)))
    /\ (kind = "text" /\ invalidText (text_ o)
        \/ kind = "duration" /\ ~ invalidText (text_ o)
           /\ invalidNumber (duration_ o)
        \/ kind = "offset" /\ ~ invalidText (text_ o)
           /\ ~ invalidNumber (duration_ o) /\ invalidNumber (offset_ o)).
Proof.
  intros V I.
  destruct (checkSegment_kind o (List.length before) I) as [kind [E K]].
  exists kind. split; [|exact K].
  unfold formatTranscript.
  destruct (before ++ o :: after)%list as [|x l] eqn:A.
  { now destruct before. }
  rewrite <- A, (checkFrom_skip_valid before (o :: after) V 0).
  cbn [checkFrom Nat.add]. now rewrite E.
Qed.

(** *** CSV *)

Lemma escape_cons_quote (s : string) :
  replaceAll (ascii_of_N 34) (DQUOTE ++ DQUOTE) (String (ascii_of_N 34) s)
  = String (ascii_of_N 34) (String (ascii_of_N 34)
      (replaceAll (ascii_of_N 34) (DQUOTE ++ DQUOTE) s)).
Proof.
  reflexivity.
Qed.

Lemma escape_cons_other (c : ascii) (s : string) :
  Ascii.eqb (ascii_of_N 34) c = false ->
  replaceAll (ascii_of_N 34) (DQUOTE ++ DQUOTE) (String c s)
  = String c (replaceAll (ascii_of_N 34) (DQUOTE ++ DQUOTE) s).
Proof.
  intros H. cbn [replaceAll]. now rewrite H.
Qed.

Lemma escape_empty (s : string) :
  replaceAll (ascii_of_N 34) (DQUOTE ++ DQUOTE) s = "" -> s = "".
Proof.
  destruct s as [|c s]; [reflexivity|].
  destruct (Ascii.eqb (ascii_of_N 34) c) eqn:E.
  - apply Ascii.eqb_eq in E. subst c. rewrite escape_cons_quote. discriminate.
  - rewrite (escape_cons_other _ _ E). discriminate.
Qed.

Lemma unescape_escape (s : string) :
  unescapeQuotes (replaceAll (ascii_of_N 34) (DQUOTE ++ DQUOTE) s) = Some s.
Proof.
  induction s as [|c s IH]; [reflexivity|].
  destruct (Ascii.eqb (ascii_of_N 34) c) eqn:E.
  - apply Ascii.eqb_eq in E. subst c. rewrite escape_cons_quote.
    cbn [unescapeQuotes]. rewrite Ascii.eqb_refl, IH. reflexivity.
  - rewrite (escape_cons_other _ _ E). cbn [unescapeQuotes].
    rewrite Ascii.eqb_sym, E, IH. reflexivity.
Qed.

Lemma newline_cons_other (c : ascii) (s : string) :
  Ascii.eqb (ascii_of_N 10) c = false ->
  replaceAll (ascii_of_N 10) " " (String c s)
  = String c (replaceAll (ascii_of_N 10) " " s).
Proof.
  intros H. cbn [replaceAll]. now rewrite H.
Qed.

Lemma newline_cons_lf (s : string) :
  replaceAll (ascii_of_N 10) " " (String (ascii_of_N 10) s)
  = String " "%char (replaceAll (ascii_of_N 10) " " s).
Proof.
  reflexivity.
Qed.

Lemma escape_newlines_commute (s : string) :
  replaceAll (ascii_of_N 10) " "
    (replaceAll (ascii_of_N 34) (DQUOTE ++ DQUOTE) s)
  = replaceAll (ascii_of_N 34) (DQUOTE ++ DQUOTE)
      (replaceAll (ascii_of_N 10) " " s).
Proof.
  induction s as [|c s IH]; [reflexivity|].
  destruct (Ascii.eqb (ascii_of_N 34) c) eqn:Q.
  - apply Ascii.eqb_eq in Q. subst c. rewrite escape_cons_quote.
    rewrite !(newline_cons_other (ascii_of_N 34)) by reflexivity.
    now rewrite escape_cons_quote, IH.
  - rewrite (escape_cons_other _ _ Q).
    destruct (Ascii.eqb (ascii_of_N 10) c) eqn:N.
    + apply Ascii.eqb_eq in N. subst c.
      rewrite !newline_cons_lf.
      rewrite (escape_cons_other " "%char) by reflexivity. now rewrite IH.
    + rewrite !(newline_cons_other c) by exact N.
      now rewrite (escape_cons_other _ _ Q), IH.
Qed.

Lemma quote_not_space : isWhiteSpace (ascii_of_N 34) = false.
Proof.
  reflexivity.
Qed.

Lemma escape_trimStart (s : string) :
  trimStart (replaceAll (ascii_of_N 34) (DQUOTE ++ DQUOTE) s)
  = replaceAll (ascii_of_N 34) (DQUOTE ++ DQUOTE) (trimStart s).
Proof.
  induction s as [|c s IH]; [reflexivity|].
  destruct (Ascii.eqb (ascii_of_N 34) c) eqn:Q.
  - apply Ascii.eqb_eq in Q. subst c. rewrite escape_cons_quote.
    cbn [trimStart]. rewrite quote_not_space. now rewrite escape_cons_quote.
  - rewrite (escape_cons_other _ _ Q). cbn [trimStart].
    destruct (isWhiteSpace c); [exact IH | now rewrite (escape_cons_other _ _ Q)].
Qed.

Lemma escape_trimEnd (s : string) :
  trimEnd (replaceAll (ascii_of_N 34) (DQUOTE ++ DQUOTE) s)
  = replaceAll (ascii_of_N 34) (DQUOTE ++ DQUOTE) (trimEnd s).
Proof.
  induction s as [|c s IH]; [reflexivity|].
  destruct (Ascii.eqb (ascii_of_N 34) c) eqn:Q.
  - apply Ascii.eqb_eq in Q. subst c. rewrite escape_cons_quote.
    rewrite !trimEnd_cons, IH, quote_not_space.
    destruct (trimEnd s) as [|d r] eqn:T.
    + reflexivity.
    + destruct (replaceAll (ascii_of_N 34) (DQUOTE ++ DQUOTE) (String d r)) eqn:R.
      * apply escape_empty in R. discriminate R.
      * now rewrite <- R, escape_cons_quote.
  - rewrite (escape_cons_other _ _ Q), !trimEnd_cons, IH.
    destruct (trimEnd s) as [|d r] eqn:T.
    + cbn [replaceAll]. destruct (isWhiteSpace c); [reflexivity|].
      now rewrite (escape_cons_other _ _ Q).
    + destruct (replaceAll (ascii_of_N 34) (DQUOTE ++ DQUOTE) (String d r)) eqn:R.
      * apply escape_empty in R. discriminate R.
      * now rewrite <- R, (escape_cons_other _ _ Q).
Qed.

Lemma all_trimStart (f : ascii -> bool) (s : string) : all f s -> all f (trimStart s).
Proof.
  induction s as [|c s IH]; intros F; cbn [trimStart]; [exact F|].
  destruct (isWhiteSpace c); [|exact F].
  apply all_cons in F. now apply IH.
Qed.

Lemma all_trimEnd (f : ascii -> bool) (s : string) : all f s -> all f (trimEnd s).
Proof.
  induction s as [|c s IH]; intros F; [exact F|].
  apply all_cons in F. destruct F as [Fc Fs]. specialize (IH Fs).
  rewrite trimEnd_cons. destruct (trimEnd s).
  - destruct (isWhiteSpace c); [apply all_nil | apply all_cons; now split].
  - apply all_cons. now split.
Qed.

Lemma all_escape (f : ascii -> bool) (s : string) :
  f (ascii_of_N 34) = true ->
  all f s -> all f (replaceAll (ascii_of_N 34) (DQUOTE ++ DQUOTE) s).
Proof.
  intros Q. induction s as [|c s IH]; intros F; [exact F|].
  apply all_cons in F. destruct F as [Fc Fs].
  destruct (Ascii.eqb (ascii_of_N 34) c) eqn:E.
  - apply Ascii.eqb_eq in E. subst c. rewrite escape_cons_quote.
    apply all_cons. split; [exact Q|]. apply all_cons. split; [exact Q | now apply IH].
  - rewrite (escape_cons_other _ _ E). apply all_cons. split; [exact Fc | now apply IH].
Qed.

Lemma newlines_replaced (s : string) :
  all notLineFeed (replaceAll (ascii_of_N 10) " " s).
Proof.
  induction s as [|c s IH]; [apply all_nil|].
  cbn [replaceAll]. destruct (Ascii.eqb (ascii_of_N 10) c) eqn:E.
  - cbn [append]. apply all_cons. split; [reflexivity | exact IH].
  - apply all_cons. split; [|exact IH].
    unfold notLineFeed. now rewrite Ascii.eqb_sym, E.
Qed.

(** X8.  In the CSV rendering the text of a row, between its quotes, holds
    no line feed, and reading it back with doubled quotes as single ones
    gives the caption with its line feeds turned into spaces and trimmed. *)
Theorem csv_text_reads_back (transcript : list TranscriptSegment) :
  formatAsCsv toStringOther transcript
  = "Start Time,Duration,Text" ++ LF
    ++ join LF
         (map (fun s =>
                 formatTime toStringOther (offset s) false ++ ","
                 ++ formatTime toStringOther (duration s) false ++ ","
                 ++ DQUOTE ++ csvText (text s) ++ DQUOTE)
              transcript)
  /\ (forall text,
         unescapeQuotes (csvText text)
         = Some (trim (replaceAll (ascii_of_N 10) " " text))
         /\ all notLineFeed (csvText text)).
Proof.
  split; [reflexivity|]. intros text.
  assert (E : csvText text
              = replaceAll (ascii_of_N 34) (DQUOTE ++ DQUOTE)
                  (trim (replaceAll (ascii_of_N 10) " " text))).
  { unfold csvText, trim.
    now rewrite escape_newlines_commute, escape_trimStart, escape_trimEnd. }
  split.
  - rewrite E. apply unescape_escape.
  - rewrite E. apply all_escape; [reflexivity|].
    unfold trim. apply all_trimEnd, all_trimStart, newlines_replaced.
Qed.

(** *** WebVTT *)

Lemma vttCue_solid (s : TranscriptSegment) : legible s -> solid (vttCue s).
Proof.
  intros [Ht _]. split; [discriminate|].
  unfold vttCue. constructor; [apply timing_not_empty | exact Ht].
Qed.

Lemma vttCue_lines (s : TranscriptSegment) :
  legible s ->
  lines (formatTime toStringOther (offset s) true ++ " --> "
         ++ formatTime toStringOther (add (offset s) (duration s)) true
         ++ LF ++ trim (text s))
  = vttCue s.
Proof.
  intros [_ [Ho Hd]].
  rewrite (formatTime_timestamp toStringOther _ true Ho),
    (formatTime_timestamp toStringOther _ true Hd).
  rewrite <- (append_assoc' " --> "), <- append_assoc'.
  fold (timing "." s).
  rewrite lines_app_LF, (lines_oneLine _ (timing_oneLine "." s eq_refl)).
  reflexivity.
Qed.

Lemma formatAsVtt_blocks (segments : list TranscriptSegment) :
  segments <> [] ->
  Forall legible segments ->
  lines (formatAsVtt toStringOther segments)
  = separated (["WEBVTT"] :: map vttCue segments)
  /\ blocks (formatAsVtt toStringOther segments)
     = ["WEBVTT"] :: map vttCue segments.
Proof.
  intros Hne Hl.
  assert (M : forall k,
             mapIndexFrom (fun (s : TranscriptSegment) (index : nat) => vttCue s)
               k segments
             = map vttCue segments).
  { clear. induction segments as [|s rest IH]; intros k; cbn;
      [reflexivity | now rewrite IH]. }
  assert (L : lines (formatAsVtt toStringOther segments)
              = separated (["WEBVTT"] :: map vttCue segments)).
  { unfold formatAsVtt, mapIndex. cbv zeta.
    match goal with
    | |- lines (_ ++ ?X) = _ =>
        change (lines ("WEBVTT" ++ LF ++ (LF ++ X))
                = separated (["WEBVTT"] :: map vttCue segments))
    end.
    rewrite lines_app_LF, LF_app.
    match goal with
    | |- context [lines (String (ascii_of_N 10) ?X)] =>
        change (lines (String (ascii_of_N 10) X)) with (EmptyString :: lines X)
    end.
    rewrite lines_join_LFLF by (destruct segments; [congruence | discriminate]).
    rewrite mapIndexFrom_map.
    rewrite (mapIndexFrom_ext legible _
               (fun (s : TranscriptSegment) (index : nat) => vttCue s)
               segments (fun a i H => vttCue_lines a H) Hl).
    rewrite M.
    destruct segments as [|s rest]; [congruence | reflexivity]. }
  split; [exact L|].
  unfold blocks. rewrite L.
  rewrite <- (app_nil_r (separated _)).
  apply blocks_separated; [|now left].
  constructor.
  - split; [discriminate | repeat constructor; discriminate].
  - apply Forall_map. revert Hl. apply Forall_impl. exact vttCue_solid.
Qed.

(** X9.  For a validation-passing list of legible segments (no line of a
    trimmed text is empty, and the fields of every start and end time are
    whole numbers), the VTT rendering read back by lines is the block
    [WEBVTT] and then exactly one cue per segment, in input order, with one
    empty line between consecutive blocks.  Cue [i] is the line
    [start --> end] with both times as [HH:MM:SS.mmm] (zero-padded fields
    of the offset and of the Number sum offset + duration), then the lines
    of the trimmed text; cues carry no number. *)
Theorem vtt_one_cue_per_segment (segments : list TranscriptSegment) :
  valid (map toObject segments) ->
  Forall legible segments ->
  exists document cues,
    formatTranscript toStringOther JSON_stringify (map toObject segments) "vtt"
    = Return document
    /\ blocks document = ["WEBVTT"] :: cues
    /\ lines document = separated (blocks document)
    /\ List.length cues = List.length segments
    /\ (forall i s,
          nth_error segments i = Some s ->
          exists start finish,
            timeFields (offset s) = Some start
            /\ timeFields (add (offset s) (duration s)) = Some finish
            /\ nth_error cues i
               = Some ((clock "." start ++ " --> " ++ clock "." finish)
                       :: lines (trim (text s)))).
Proof.
  intros V Hl.
  destruct (valid_formatTranscript toStringOther JSON_stringify _ "vtt" V)
    as [segments' [Hs ->]].
  rewrite asSegments_toObject in Hs. injection Hs as <-.
  assert (Hne : segments <> []).
  { intros ->. now apply V. }
  destruct (formatAsVtt_blocks segments Hne Hl) as [L B].
  assert (D : dispatch toStringOther JSON_stringify segments "vtt"
              = formatAsVtt toStringOther segments).
  { unfold dispatch. cbv zeta.
    change (toLowerCase "vtt" =? "txt")%string with false.
    change (toLowerCase "vtt" =? "json")%string with false.
    change (toLowerCase "vtt" =? "csv")%string with false.
    change (toLowerCase "vtt" =? "srt")%string with false.
    change (toLowerCase "vtt" =? "vtt")%string with true.
    reflexivity. }
  rewrite D. exists (formatAsVtt toStringOther segments), (map vttCue segments).
  split; [reflexivity|]. split; [exact B|].
  split; [now rewrite B|]. split; [apply length_map|].
  intros i s H.
  pose proof (proj1 (Forall_forall _ _) Hl s (nth_error_In _ _ H)) as [_ [Ho Hd]].
  destruct (timeFields (offset s)) as [start|] eqn:Es; [|congruence].
  destruct (timeFields (add (offset s) (duration s))) as [finish|] eqn:Ef;
    [|congruence].
  exists start, finish. split; [reflexivity|]. split; [reflexivity|].
  rewrite nth_error_map, H. cbn [option_map].
  unfold vttCue, timing, timestamp. rewrite Es, Ef. reflexivity.
Qed.

(** X27.  Up to four hours, a whole number of seconds is printed with the
    fields of integer arithmetic: hours the quotient by 3600, then the
    minutes and seconds that remain, each padded to two digits, and [000]
    after the separator, a comma or (for VTT) a dot. *)
Theorem formatTime_on_whole_seconds (n : Z) (vtt : bool) :
  0 <= n < 14400 ->
  formatTime toStringOther (ofZ n) vtt
  = zeroPad 2 (ofN (Z.to_N (n / 3600))) ++ ":"
    ++ zeroPad 2 (ofN (Z.to_N ((n mod 3600) / 60))) ++ ":"
    ++ zeroPad 2 (ofN (Z.to_N (n mod 60)))
    ++ (if vtt then "." else ",") ++ "000".
Proof.
  intros R. pose proof (timeFields_whole_seconds n R) as F.
  rewrite formatTime_timestamp by congruence.
  unfold timestamp. rewrite F. reflexivity.
Qed.

End Renderer2.

(** ** More of the resolver *)

Ltac resolve_step env E :=
  first
    [ rewrite smartRateLimit_run in E
    | match type of E with
      | context [match fetchTranscript env (String ?c ?s) with _ => _ end] =>
          destruct (fetchTranscript env (String c s)) as [[[|? ?]|]|[?|?]] eqn:?
      | context [match permanentFailure ?e with _ => _ end] =>
          destruct (permanentFailure e) as [?|] eqn:?
      | context [match parseYoutubeI env ?a with _ => _ end] =>
          destruct (parseYoutubeI env a) as [[|? ?]|?] eqn:?
      | context [match fetchTranscript env ("https://www.youtube.com/watch?v=" ++ ?a)
                 with _ => _ end] =>
          destruct (fetchTranscript env ("https://www.youtube.com/watch?v=" ++ a))
            as [[[|? ?]|]|?] eqn:?
      | context [match fetchTranscript env ?a with _ => _ end] =>
          destruct (fetchTranscript env a) as [[[|? ?]|]|?] eqn:?
      end ];
  cbv beta iota zeta in E.

Ltac resolve_all env E :=
  cbv [getYouTubeTranscript bind tryCatch ret throw now tryStrategyA
       callFetchTranscript decrementFailures getFailures setFailures
       fetchTranscriptWithYoutubeI tryUrlFormats urlFormats JSString.truthy negb] in E;
  repeat resolve_step env E;
  injection E as <- <- <-.

Ltac use_answers env :=
  repeat match goal with
         | H : fetchTranscript env ?a = _ |- context [fetchTranscript env ?a] =>
             rewrite H
         | H : parseYoutubeI env ?a = _ |- context [parseYoutubeI env ?a] =>
             rewrite H
         | H : permanentFailure ?e = _ |- context [permanentFailure ?e] =>
             rewrite H
         end.

Lemma resolution_result (env : Environment) (videoId : string) (w : World) :
  fst (fst (getYouTubeTranscript env videoId w)) = fallbackChain env videoId.
Proof.
  destruct (getYouTubeTranscript env videoId w) as [[r w'] events] eqn:E.
  cbn [fst]. destruct videoId as [|c s].
  - rewrite invalid_videoId in E. now injection E as <- _ _.
  - resolve_all env E; unfold fallbackChain; cbv zeta; use_answers env;
      reflexivity.
Qed.

(** X10.  The completion of a resolution is the pure fallback chain over
    the answers of the two services: it depends neither on the limiter's
    state nor on what the clock reads. *)
Theorem resolution_is_the_fallback_chain
  (clock1 clock2 : nat -> Z)
  (A : string -> completion (option (list TranscriptResponse)))
  (B : string -> completion (option TranscriptObject))
  (videoId : string) (w1 w2 : World) :
  let env1 := {| Date_now := clock1; fetchTranscript := A; getTranscript := B |} in
  let env2 := {| Date_now := clock2; fetchTranscript := A; getTranscript := B |} in
  fst (fst (getYouTubeTranscript env1 videoId w1)) = fallbackChain env1 videoId
  /\ fst (fst (getYouTubeTranscript env1 videoId w1))
     = fst (fst (getYouTubeTranscript env2 videoId w2)).
Proof.
  intros env1 env2. split; [apply resolution_result|].
  now rewrite !resolution_result.
Qed.

Ltac trace_goal env :=
  repeat first
    [ rewrite attempts_app
    | rewrite attempts_pause
    | rewrite attempts_cons_A
    | rewrite attempts_cons_B
    | rewrite attempts_nil ];
  cbn [app].

(** X11.  The attempts of a resolution are an initial part of the fixed
    sequence (strategy A on the id, strategy B, strategy A on the two URL
    forms); no attempt but the last was answered with segments; and the
    resolution returns exactly when one attempt was. *)
Theorem attempts_stop_at_first_success
  (env : Environment) (videoId : string) (w : World) r w' events :
  getYouTubeTranscript env videoId w = (r, w', events) ->
  (exists n, attempts events = firstn n (attemptSequence env videoId))
  /\ forallb (fun e => negb (successful e)) (removelast (attempts events)) = true
  /\ existsb successful (attempts events) = negb (throwsb r).
Proof.
  intros E. destruct videoId as [|c s].
  - rewrite invalid_videoId in E. injection E as <- <- <-.
    split; [now exists 0%nat | now split].
  - resolve_all env E; trace_goal env; (split; [|split; reflexivity]);
      unfold attemptSequence; use_answers env;
      first [ now exists 1%nat | now exists 2%nat | now exists 3%nat
            | now exists 4%nat ].
Qed.

Lemma permanentFailure_values (message : option string) (mapped : string) :
  permanentFailure message = Some mapped ->
  mapped = "Transcripts are disabled for this video"
  \/ mapped = "Video is unavailable or has been removed"
  \/ mapped = "Video is private or restricted".
Proof.
  unfold permanentFailure. destruct message as [m|]; [|discriminate].
  destruct (includes m "Transcript is disabled"); [intros [= <-]; auto|].
  destruct (includes m "Video unavailable"); [intros [= <-]; auto|].
  destruct (includes m "private"); [intros [= <-]; auto | discriminate].
Qed.

Lemma errorMessage_not_mapped (videoId mapped : string) (message : option string) :
  permanentFailure message = Some mapped ->
  Some mapped <> Some (errorMessage videoId).
Proof.
  intros P. destruct (permanentFailure_values _ _ P) as [-> | [-> | ->]];
    unfold errorMessage; cbn [append]; discriminate.
Qed.

(** How one resolution changes the failure counter, by its outcome. *)
Lemma counter_change (env : Environment) (videoId : string) (w : World) r w' events :
  getYouTubeTranscript env videoId w = (r, w', events) ->
  (throwsb r = false ->
   consecutiveFailures w' = Z.max 0 (consecutiveFailures w - 1))
  /\ (r = Error (errorMessage videoId) ->
      consecutiveFailures w' = consecutiveFailures w + 1)
  /\ (throwsb r = true -> r <> Error (errorMessage videoId) ->
      consecutiveFailures w' = consecutiveFailures w).
Proof.
  intros E. destruct videoId as [|c s].
  - rewrite invalid_videoId in E. injection E as <- <- <-.
    split; [|split]; intros; try discriminate; reflexivity.
  - resolve_all env E; cbn [throwsb consecutiveFailures paced];
      (split; [|split]); intros; try discriminate; try reflexivity;
      try congruence;
      exfalso;
      match goal with
      | H : _ <> _ |- _ => now apply H
      | P : permanentFailure _ = Some _, H : Throw _ = Error _ |- _ =>
          unfold Error in H; injection H as H;
          exact (errorMessage_not_mapped _ _ _ P (f_equal Some H))
      end.
Qed.

(** X12.  A resolution changes the failure counter by its outcome alone:
    down by one (not below zero) when it returns, up by one when it fails
    with the exhaustion message, and not at all when it fails otherwise
    (empty id, permanent failure of the first attempt). *)
Theorem counter_follows_outcome
  (env : Environment) (videoId : string) (w : World) r w' events :
  getYouTubeTranscript env videoId w = (r, w', events) ->
  (throwsb r = false ->
   consecutiveFailures w' = Z.max 0 (consecutiveFailures w - 1))
  /\ (r = Error (errorMessage videoId) ->
      consecutiveFailures w' = consecutiveFailures w + 1)
  /\ (throwsb r = true -> r <> Error (errorMessage videoId) ->
      consecutiveFailures w' = consecutiveFailures w).
Proof.
  apply counter_change.
Qed.

(** X13.  After [n] resolutions in a row that all return, a counter that
    was not negative is its old value less [n], not below zero; after [n]
    in a row that all end in exhaustion, it is its old value plus [n]. *)
Theorem counter_after_a_run_of_outcomes
  (requests : list (Environment * string)) (w : World) :
  0 <= consecutiveFailures w ->
  (Forall (fun request =>
             throwsb (fallbackChain (fst request) (snd request)) = false)
          requests ->
   consecutiveFailures (resolveAll requests w)
   = Z.max 0 (consecutiveFailures w - Z.of_nat (List.length requests)))
  /\ (Forall (fun request =>
                fallbackChain (fst request) (snd request)
                = Error (errorMessage (snd request)))
             requests ->
      consecutiveFailures (resolveAll requests w)
      = consecutiveFailures w + Z.of_nat (List.length requests)).
Proof.
  revert w. induction requests as [|[env videoId] rest IH]; intros w N.
  - cbn. split; intros _; lia.
  - cbn [resolveAll List.length].
    destruct (getYouTubeTranscript env videoId w) as [[r w'] events] eqn:E.
    pose proof (resolution_result env videoId w) as R.
    rewrite E in R. cbn [fst] in R.
    destruct (counter_change _ _ _ _ _ _ E) as [C1 [C2 _]].
    split; intros F; pose proof (Forall_inv F) as H;
      apply Forall_inv_tail in F; cbn [fst snd] in H; rewrite <- R in H.
    + specialize (C1 H).
      destruct (IH w') as [I _]; [lia|]. rewrite (I F). lia.
    + specialize (C2 H).
      destruct (IH w') as [_ I]; [lia|]. rewrite (I F). lia.
Qed.

(** ** Pacing *)

Lemma waited_app (a b : list Event) : (waited (a ++ b) == waited a + waited b)%Q.
Proof.
  induction a as [|[ms|arg o|id o] a IH]; cbn [app waited].
  - lra.
  - rewrite IH. lra.
  - exact IH.
  - exact IH.
Qed.

Lemma dynamicDelay_bounds (n : Z) :
  0 <= n -> (500 <= dynamicDelay n)%Q /\ (dynamicDelay n <= 5000)%Q.
Proof.
  intros N. unfold dynamicDelay, baseDelay, maxDelay, backoffMultiplier. split.
  - apply Q.min_glb; [|discriminate].
    assert (P : ((3 # 2) ^ 0 <= (3 # 2) ^ n)%Q).
    { apply Qpower_le_compat_l; [exact N | discriminate]. }
    apply Qle_trans with (500 * (3 # 2) ^ 0)%Q.
    + vm_compute. discriminate.
    + apply Qmult_le_l; [reflexivity | exact P].
  - apply Q.le_min_r.
Qed.

Lemma dynamicDelay_monotone (n m : Z) :
  n <= m -> (dynamicDelay n <= dynamicDelay m)%Q.
Proof.
  intros L. unfold dynamicDelay, baseDelay, maxDelay, backoffMultiplier.
  apply Q.min_le_compat_r.
  apply Qmult_le_l; [reflexivity|].
  apply Qpower_le_compat_l; [exact L | discriminate].
Qed.

Lemma dynamicDelay_not_negative (n : Z) : (0 <= dynamicDelay n)%Q.
Proof.
  unfold dynamicDelay, baseDelay, maxDelay, backoffMultiplier.
  apply Q.min_glb; [|discriminate].
  apply Qmult_le_0_compat; [discriminate|].
  apply Qpower_0_le. discriminate.
Qed.

Lemma waited_pause (env : Environment) (w : World) :
  lastRequestTime w <= Date_now env (clockReads w) ->
  (0 <= waited (pause env w))%Q
  /\ (waited (pause env w) <= dynamicDelay (consecutiveFailures w))%Q.
Proof.
  intros L. unfold pause.
  assert (E : (0 <= inject_Z (Date_now env (clockReads w) - lastRequestTime w))%Q).
  { change 0%Q with (inject_Z 0). rewrite <- Zle_Qle. lia. }
  destruct (Qlt_le_dec _ _) as [Lt | Ge]; cbn [waited].
  - split; lra.
  - split; [lra | apply dynamicDelay_not_negative].
Qed.

Lemma waited_paced (env : Environment) (w : World) :
  monotone env ->
  (0 <= waited (pause env (paced env w)))%Q
  /\ (waited (pause env (paced env w)) <= dynamicDelay (consecutiveFailures w))%Q.
Proof.
  intros M. apply (waited_pause env (paced env w)).
  cbn [paced lastRequestTime clockReads]. apply M. lia.
Qed.

Ltac bound_waits env M L :=
  repeat match goal with
         | |- context [waited (pause env (paced env ?X))] =>
             let H := fresh "W" in
             pose proof (waited_paced env X M) as H;
             cbn [paced consecutiveFailures] in H;
             let x := fresh "x" in
             set (x := waited (pause env (paced env X))) in *; clearbody x
         | |- context [waited (pause env ?X)] =>
             let H := fresh "W" in
             pose proof (waited_pause env X L) as H;
             cbn [consecutiveFailures] in H;
             let x := fresh "x" in
             set (x := waited (pause env X)) in *; clearbody x
         end.

Ltac waited_goal :=
  repeat first
    [ rewrite waited_app
    | progress cbn [waited app] ].

(** X14.  With at least zero failures counted, the delay between attempts
    lies between 500 and 5000 ms and grows with the counter.  Under a clock
    that does not run backwards and a last-attempt time that is not ahead
    of it, one resolution asks for at most four such delays in all. *)
Theorem resolution_waits_are_bounded
  (env : Environment) (videoId : string) (w : World) r w' events :
  0 <= consecutiveFailures w ->
  monotone env ->
  lastRequestTime w <= Date_now env (S (clockReads w)) ->
  getYouTubeTranscript env videoId w = (r, w', events) ->
  (500 <= dynamicDelay (consecutiveFailures w) <= 5000)%Q
  /\ (forall more, consecutiveFailures w <= more ->
        (dynamicDelay (consecutiveFailures w) <= dynamicDelay more)%Q)
  /\ (0 <= waited events <= 4 * dynamicDelay (consecutiveFailures w))%Q
  /\ (waited events <= 20000)%Q.
Proof.
  intros N M L E.
  pose proof (dynamicDelay_bounds _ N) as [B1 B2].
  split; [split; assumption|].
  split; [intros more; apply dynamicDelay_monotone|].
  enough (G : (0 <= waited events <= 4 * dynamicDelay (consecutiveFailures w))%Q).
  { split; [exact G | lra]. }
  destruct videoId as [|c s].
  - rewrite invalid_videoId in E. injection E as <- <- <-. cbn [waited]. lra.
  - resolve_all env E; waited_goal; bound_waits env M L; lra.
Qed.

(** ** What a resolution can return and throw *)

Lemma collectSegments_texts (items : list Item) :
  Forall (fun segment => trimmed (text segment) /\ text segment <> "")
         (collectSegments items).
Proof.
  induction items as [|item rest IH]; cbn [collectSegments]; [constructor|].
  destruct (segmentOfItem item) as [segment|] eqn:E; [|exact IH].
  constructor; [exact (strategyB_text _ _ E) | exact IH].
Qed.

Lemma parseYoutubeI_texts (env : Environment) (videoId : string)
  (segments : list TranscriptSegment) :
  parseYoutubeI env videoId = Return segments ->
  Forall (fun segment => trimmed (text segment) /\ text segment <> "") segments.
Proof.
  unfold parseYoutubeI.
  destruct (getTranscript env videoId) as [[obj|]|e]; try discriminate.
  destruct (transcriptContent obj) as [|item rest]; [discriminate|].
  intros [= <-]. apply (collectSegments_texts (item :: rest)).
Qed.

Lemma formatSegment_texts (raw : list TranscriptResponse) :
  Forall (fun segment => trimmed (text segment)) (map formatSegment raw).
Proof.
  apply Forall_map, Forall_forall. intros segment _.
  apply strategyA_normalised.
Qed.

Ltac chain_cases :=
  repeat match goal with
         | |- context [match ?x with _ => _ end] => destruct x eqn:?
         end.

Lemma fallbackChain_returns (env : Environment) (videoId : string)
  (segments : list TranscriptSegment) :
  fallbackChain env videoId = Return segments ->
  segments <> [] /\ Forall (fun segment => trimmed (text segment)) segments.
Proof.
  unfold fallbackChain. destruct videoId as [|c s]; [discriminate|].
  cbv zeta. chain_cases; intros [= <-]; (split; [discriminate|]);
    first [ apply (formatSegment_texts (_ :: _))
          | match goal with
            | H : parseYoutubeI _ _ = Return _ |- _ =>
                apply parseYoutubeI_texts in H;
                exact (Forall_impl _ (fun a P => proj1 P) H)
            end ].
Qed.

Lemma fallbackChain_throws (env : Environment) (videoId : string)
  (error : thrown) :
  fallbackChain env videoId = Throw error ->
  exists message, error = Value message /\ In message (resolverErrors videoId).
Proof.
  unfold fallbackChain, resolverErrors. destruct videoId as [|c s].
  - intros [= <-]. eexists. split; [reflexivity | now left].
  - cbv zeta. chain_cases; intros [= <-];
      (eexists; split; [reflexivity|]);
      try (right; right; right; left; reflexivity);
      try (match goal with
           | H : permanentFailure _ = Some _ |- _ =>
               destruct (permanentFailure_values _ _ H) as [-> | [-> | ->]];
               cbn; auto
           end);
      try (match goal with n : bool |- _ => destruct n end);
      cbn [In]; auto 10.
Qed.

(** X15.  A resolution that returns gives at least one segment, every
    text trimmed; one that throws gives the empty-id error for the empty id
    and otherwise an error with one of six messages: the three permanent
    failures of the first attempt, the exhaustion message, or the
    [TypeError] of reading [message] of a first rejection with [null] or
    with [undefined].  No [null] or [undefined] is thrown on. *)
Theorem resolution_outcomes
  (env : Environment) (videoId : string) (w : World) r w' events :
  getYouTubeTranscript env videoId w = (r, w', events) ->
  match r with
  | Return segments =>
      videoId <> "" /\ segments <> []
      /\ Forall (fun segment => trimmed (text segment)) segments
  | Throw error =>
      exists message, error = Value message /\ In message (resolverErrors videoId)
  end.
Proof.
  intros E. pose proof (resolution_result env videoId w) as R.
  rewrite E in R. cbn [fst] in R. subst r.
  destruct (fallbackChain env videoId) as [segments|error] eqn:F.
  - split; [now destruct videoId|]. exact (fallbackChain_returns _ _ _ F).
  - exact (fallbackChain_throws _ _ _ F).
Qed.

(** ** How the routes classify what the resolver and the renderer throw *)

Lemma toLowerCase_app (a b : string) :
  toLowerCase (a ++ b) = toLowerCase a ++ toLowerCase b.
Proof.
  induction a as [|c a IH]; [reflexivity|].
  cbn [append toLowerCase]. now rewrite IH.
Qed.

Lemma includes_app_r (a b p : string) :
  includes b p = true -> includes (a ++ b) p = true.
Proof.
  intros H. induction a as [|c a IH]; [exact H|].
  cbn [append]. rewrite includes_cons, IH. apply orb_true_r.
Qed.

Lemma exhaustion_lowered (videoId : string) :
  includes (toLowerCase (errorMessage videoId)) "video is private" = true.
Proof.
  unfold errorMessage.
  rewrite (toLowerCase_app "No transcript available for video ").
  rewrite (toLowerCase_app videoId).
  apply includes_app_r, includes_app_r. vm_compute. reflexivity.
Qed.

Lemma transcriptCatch_exhaustion (videoId : string) :
  transcriptCatch (Some (errorMessage videoId))
  = Json 404 "Video unavailable" (Some (errorMessage videoId)) None.
Proof.
  unfold transcriptCatch, lowered. cbv zeta.
  rewrite exhaustion_lowered, orb_true_r. reflexivity.
Qed.

Lemma downloadCatch_exhaustion (videoId : string) :
  downloadCatch (Some (errorMessage videoId))
  = Json 404 "Video unavailable" (Some (errorMessage videoId)) None.
Proof.
  unfold downloadCatch, lowered. cbv zeta.
  rewrite exhaustion_lowered, orb_true_r. reflexivity.
Qed.

(** The routes' answer to each message of the resolver. *)
Lemma catch_resolver (c : ascii) (s : string) (message : option string) :
  In message (resolverErrors (String c s)) ->
  (In message [Some "Transcripts are disabled for this video";
               Some (cannotRead true "message");
               Some (cannotRead false "message")]
   /\ transcriptCatch message
      = Json 500 "Server error"
          (Some "An unexpected error occurred while fetching the transcript")
          message
   /\ downloadCatch message = Json 500 "Failed to download transcript" message None)
  \/ (In message [Some "Video is unavailable or has been removed";
                  Some "Video is private or restricted";
                  Some (errorMessage (String c s))]
      /\ transcriptCatch message = Json 404 "Video unavailable" message None
      /\ downloadCatch message = Json 404 "Video unavailable" message None).
Proof.
  intros [<- | [<- | [<- | [<- | [<- | [<- | []]]]]]].
  - left. split; [cbn; auto | split; vm_compute; reflexivity].
  - right. split; [cbn; auto | split; vm_compute; reflexivity].
  - right. split; [cbn; auto | split; vm_compute; reflexivity].
  - right. split; [cbn; auto|].
    split; [apply transcriptCatch_exhaustion | apply downloadCatch_exhaustion].
  - left. split; [cbn; auto | split; vm_compute; reflexivity].
  - left. split; [cbn; auto | split; vm_compute; reflexivity].
Qed.

(** Decimal numerals are made of digits, which [toLowerCase] leaves alone
    and none of which occurs in what the routes look for. *)
Lemma string_of_uint_digits (d : Decimal.uint) :
  all isDigit (NilEmpty.string_of_uint d).
Proof.
  induction d; cbn [NilEmpty.string_of_uint];
    [apply all_nil | apply all_cons; split; [reflexivity | assumption] ..].
Qed.

Lemma ofN_digits (n : N) : all isDigit (ofN n).
Proof.
  unfold ofN, NilZero.string_of_uint.
  destruct (N.to_uint n) eqn:E;
    [apply all_cons; split; [reflexivity | apply all_nil]
    | rewrite <- E; apply string_of_uint_digits ..].
Qed.

Lemma lowerChar_digit (c : ascii) : isDigit c = true -> lowerChar c = c.
Proof.
  destruct c as [[] [] [] [] [] [] [] []]; try discriminate; reflexivity.
Qed.

Lemma toLowerCase_digits (s : string) : all isDigit s -> toLowerCase s = s.
Proof.
  induction s as [|c s IH]; intros F; [reflexivity|].
  apply all_cons in F. destruct F as [Fc Fs].
  cbn [toLowerCase]. now rewrite (lowerChar_digit c Fc), IH.
Qed.

Lemma prefix_tail (f : ascii -> bool) (needle : string) :
  forallb (fun c => negb (f c)) (list_ascii_of_string needle) = true ->
  forall a t, all f t -> prefix needle (a ++ t) = prefix needle a.
Proof.
  induction needle as [|n needle IH]; intros N a t F.
  - now destruct a, t.
  - cbn [list_ascii_of_string forallb] in N.
    apply andb_prop in N. destruct N as [Nn N].
    destruct a as [|c a]; cbn [append prefix].
    + destruct t as [|d t]; [reflexivity|].
      apply all_cons in F. destruct F as [Fd _]. cbn [prefix].
      destruct (ascii_dec n d) as [->|]; [|reflexivity].
      rewrite Fd in Nn. discriminate Nn.
    + destruct (ascii_dec n c); [|reflexivity]. now apply IH.
Qed.

Lemma includes_tail (f : ascii -> bool) (needle : string) :
  needle <> "" ->
  forallb (fun c => negb (f c)) (list_ascii_of_string needle) = true ->
  forall a t, all f t -> includes (a ++ t) needle = includes a needle.
Proof.
  intros NE N a t F. induction a as [|c a IH].
  - cbn [append]. destruct needle as [|n needle]; [now elim NE|].
    cbn [includes prefix]. clear NE.
    cbn [list_ascii_of_string forallb] in N.
    apply andb_prop in N. destruct N as [Nn _].
    induction t as [|d t IHt]; [reflexivity|].
    apply all_cons in F. destruct F as [Fd Ft].
    cbn [includes prefix].
    destruct (ascii_dec n d) as [->|]; [rewrite Fd in Nn; discriminate Nn|].
    cbn [orb]. destruct t; [reflexivity|]. now apply IHt.
  - cbn [append]. rewrite !includes_cons, IH.
    change (String c (a ++ t)) with (String c a ++ t).
    now rewrite (prefix_tail f needle N (String c a) t F).
Qed.

Lemma checkFrom_message (transcript : list SegmentObject) :
  forall index message,
    checkFrom index transcript = Some message ->
    exists kind n,
      In kind ["text"; "duration"; "offset"]
      /\ message = "Invalid " ++ kind ++ " in segment " ++ ofN n.
Proof.
  induction transcript as [|o rest IH]; intros index message H; [discriminate|].
  cbn [checkFrom] in H.
  destruct (checkSegment o index) as [m|] eqn:E; [|exact (IH _ _ H)].
  injection H as <-. unfold checkSegment in E.
  repeat match type of E with
         | (if ?b then _ else _) = _ => destruct b
         end; try discriminate E; injection E as <-.
  - exists "text", (N.of_nat index). split; [cbn; auto | reflexivity].
  - exists "duration", (N.of_nat index). split; [cbn; auto | reflexivity].
  - exists "offset", (N.of_nat index). split; [cbn; auto | reflexivity].
Qed.

Ltac drop_digits n :=
  rewrite toLowerCase_app, (toLowerCase_digits _ (ofN_digits n));
  repeat (rewrite (includes_tail isDigit)
            by first [discriminate | reflexivity | apply ofN_digits]);
  vm_compute; reflexivity.

Lemma downloadCatch_formatter (kind : string) (n : N) :
  In kind ["text"; "duration"; "offset"] ->
  downloadCatch (Some ("Invalid " ++ kind ++ " in segment " ++ ofN n))
  = Json 500 "Failed to download transcript"
      (Some ("Invalid " ++ kind ++ " in segment " ++ ofN n)) None.
Proof.
  intros [<- | [<- | [<- | []]]]; unfold downloadCatch, lowered; cbv zeta.
  - change ("Invalid " ++ "text" ++ " in segment " ++ ofN n)
      with ("Invalid text in segment " ++ ofN n).
    drop_digits n.
  - change ("Invalid " ++ "duration" ++ " in segment " ++ ofN n)
      with ("Invalid duration in segment " ++ ofN n).
    drop_digits n.
  - change ("Invalid " ++ "offset" ++ " in segment " ++ ofN n)
      with ("Invalid offset in segment " ++ ofN n).
    drop_digits n.
Qed.

Section Routes2.

Variable env : Environment.
Variable toStringOther : number -> string.
Variable JSON_stringify : list TranscriptSegment -> string.

Lemma transcriptRoute_run (videoId : string) (w : World) :
  isId videoId ->
  exists response w' events,
    transcriptRoute env (Some videoId) w = (Return response, w', events)
    /\ match fallbackChain env videoId with
       | Return segments => response = TranscriptJson videoId segments
       | Throw (Value message) => response = transcriptCatch message
       | Throw (Nullish _) => False
       end.
Proof.
  intros I. pose proof (proj2 (idFormat_test videoId) I) as T.
  unfold transcriptRoute, bind, tryCatch, now, ret.
  destruct videoId as [|c s]; [now destruct I|]. rewrite T. cbn [negb].
  match goal with
  | |- context [getYouTubeTranscript env ?i ?v] =>
      pose proof (resolution_result env i v) as R;
      destruct (getYouTubeTranscript env i v) as [[r v'] ev] eqn:E
  end.
  cbn [fst] in R. subst r.
  destruct (fallbackChain env (String c s)) as [segments|error] eqn:F.
  - destruct (fallbackChain_returns _ _ _ F) as [N _].
    destruct segments as [|x l]; [now elim N|].
    do 3 eexists. split; reflexivity.
  - destruct (fallbackChain_throws _ _ _ F) as [message [-> _]].
    do 3 eexists. split; reflexivity.
Qed.

Lemma formatTranscript_typed (segments : list TranscriptSegment) (format : string) :
  segments <> [] ->
  formatTranscript toStringOther JSON_stringify (map toObject segments) format
  = match checkFrom 0 (map toObject segments) with
    | Some message => Error message
    | None => Return (dispatch toStringOther JSON_stringify segments format)
    end.
Proof.
  intros N. unfold formatTranscript.
  destruct segments as [|x l]; [now elim N|].
  rewrite asSegments_toObject. reflexivity.
Qed.

Lemma validFormats_known (format : string) :
  In format knownFormats -> includesString validFormats format = true.
Proof.
  intros [<- | [<- | [<- | [<- | [<- | []]]]]]; reflexivity.
Qed.

Lemma downloadRoute_run (videoId : string) (formatParam titleParam : option string)
  (w : World) :
  let format := orString formatParam "txt" in
  let title := orString titleParam "transcript" in
  isId videoId ->
  In (toLowerCase format) knownFormats ->
  exists response w' events,
    downloadRoute env toStringOther JSON_stringify (Some videoId) formatParam
      titleParam w
    = (Return response, w', events)
    /\ match fallbackChain env videoId with
       | Throw (Nullish _) => False
       | Throw (Value message) => response = downloadCatch message
       | Return segments =>
           response
           = match checkFrom 0 (map toObject segments) with
             | Some message => downloadCatch (Some message)
             | None =>
                 let body := dispatch toStringOther JSON_stringify segments format in
                 if negb (JSString.truthy body)
                    || (String.length (trim body) =? 0)%nat
                 then Json 500 "Failed to format transcript" None None
                 else Attachment (getContentType format)
                        ("attachment; filename=" ++ DQUOTE
                         ++ (sanitize title ++ "." ++ format) ++ DQUOTE)
                        (ofN (N.of_nat (String.length body))) body
             end
       end.
Proof.
  intros format title I K.
  pose proof (proj2 (idFormat_test videoId) I) as T.
  unfold downloadRoute, bind, tryCatch, ret.
  destruct videoId as [|c s]; [now destruct I|]. rewrite T. cbn [negb].
  fold format. fold title. rewrite (validFormats_known _ K). cbn [negb].
  pose proof (resolution_result env (String c s) w) as R.
  destruct (getYouTubeTranscript env (String c s) w) as [[r v'] ev] eqn:E.
  cbn [fst] in R. subst r.
  destruct (fallbackChain env (String c s)) as [segments|error] eqn:F.
  2: { destruct (fallbackChain_throws _ _ _ F) as [message [-> _]].
       do 3 eexists. split; reflexivity. }
  destruct (fallbackChain_returns _ _ _ F) as [N _].
  rewrite (formatTranscript_typed segments format N).
  destruct segments as [|x l]; [now elim N|].
  destruct (checkFrom 0 (map toObject (x :: l))) as [m|];
    [do 3 eexists; split; reflexivity|].
  cbv zeta.
  destruct (negb (JSString.truthy _) || _); do 3 eexists; split; reflexivity.
Qed.

(** X16.  For a well-formed id the transcript route never throws, and
    its answer is decided by the fallback chain: the segments (never an
    empty list) when it returns; status 500 when transcripts are disabled,
    and when the first attempt was rejected with [null] or [undefined] (the
    resolver then throws the [TypeError] of reading [message]); status
    404 with the label "Video unavailable" for the other three messages of
    the resolver, the exhaustion message included. *)
Theorem transcriptRoute_answers (videoId : string) (w : World) :
  isId videoId ->
  exists response w' events,
    transcriptRoute env (Some videoId) w = (Return response, w', events)
    /\ match fallbackChain env videoId with
       | Return segments =>
           response = TranscriptJson videoId segments /\ segments <> []
       | Throw error =>
           exists message,
             error = Value message
             /\ (In message [Some "Transcripts are disabled for this video";
                             Some (cannotRead true "message");
                             Some (cannotRead false "message")]
                 /\ response
                    = Json 500 "Server error"
                        (Some "An unexpected error occurred while fetching the transcript")
                        message
                 \/ In message [Some "Video is unavailable or has been removed";
                                Some "Video is private or restricted";
                                Some (errorMessage videoId)]
                    /\ response = Json 404 "Video unavailable" message None)
       end.
Proof.
  intros I.
  destruct (transcriptRoute_run videoId w I) as [response [w' [events [E R]]]].
  exists response, w', events. split; [exact E|].
  destruct (fallbackChain env videoId) as [segments|error] eqn:F.
  - split; [exact R | exact (proj1 (fallbackChain_returns _ _ _ F))].
  - destruct (fallbackChain_throws _ _ _ F) as [message [-> M]].
    exists message. split; [reflexivity|]. subst response.
    destruct videoId as [|c s]; [now destruct I|].
    destruct (catch_resolver c s message M) as [[L [T _]] | [L [T _]]]; auto.
Qed.

Lemma includesString_unknown (format : string) :
  ~ In format knownFormats -> includesString validFormats format = false.
Proof.
  intros N. unfold includesString, validFormats.
  destruct (existsb (String.eqb format) ["txt"; "json"; "csv"; "srt"; "vtt"]) eqn:E;
    [|reflexivity].
  apply existsb_exists in E. destruct E as [x [Ix Ex]].
  apply String.eqb_eq in Ex. subst x. now elim N.
Qed.

Lemma idFormat_rejects (videoId : string) :
  ~ isId videoId -> test idFormatPattern videoId = false.
Proof.
  intros N. destruct (test idFormatPattern videoId) eqn:T; [|reflexivity].
  elim N. now apply idFormat_test.
Qed.

(** X17.  A request whose id is missing, empty or not well-formed is
    answered with status 400 by both [GET] routes, and a download request
    for a format outside the five as well; no attempt is made, no wait is
    requested, and the limiter's state is left as it was. *)
Theorem routes_reject_before_resolving
  (videoIdParam formatParam titleParam : option string) (w : World) :
  (forall videoId, videoIdParam = Some videoId -> ~ isId videoId)
  \/ ~ In (toLowerCase (orString formatParam "txt")) knownFormats ->
  (exists error w',
      downloadRoute env toStringOther JSON_stringify videoIdParam formatParam
        titleParam w
      = (Return (Json 400 error None None), w', [])
      /\ w' = w)
  /\ ((forall videoId, videoIdParam = Some videoId -> ~ isId videoId) ->
      exists error message w',
        transcriptRoute env videoIdParam w
        = (Return (Json 400 error message None), w', [])
        /\ lastRequestTime w' = lastRequestTime w
        /\ consecutiveFailures w' = consecutiveFailures w).
Proof.
  intros H. split.
  - unfold downloadRoute, tryCatch, ret.
    destruct videoIdParam as [[|c s]|]; try (eexists _, _; split; reflexivity).
    destruct (test idFormatPattern (String c s)) eqn:T; cbn [negb];
      [|eexists _, _; split; reflexivity].
    destruct H as [H | H].
    + elim (H _ eq_refl). now apply idFormat_test.
    + rewrite (includesString_unknown _ H). cbn [negb].
      eexists _, _. split; reflexivity.
  - clear H. intros H. unfold transcriptRoute, bind, tryCatch, now, ret.
    destruct videoIdParam as [[|c s]|];
      try (eexists _, _, _; split; [reflexivity | split; reflexivity]).
    rewrite (idFormat_rejects _ (H _ eq_refl)). cbn [negb].
    eexists _, _, _. split; [reflexivity | split; reflexivity].
Qed.

(** X18.  For a well-formed id and one of the five formats the download
    route never throws.  When the chain throws, it answers as the
    transcript route does, with 500 for disabled transcripts and for a
    first attempt rejected with [null] or [undefined], and 404 for the
    rest.  When the chain returns, it answers 500 if validation rejects
    a segment, and otherwise with the rendering as an attachment (or with
    500 if the rendering is blank). *)
Theorem downloadRoute_answers
  (videoId : string) (formatParam titleParam : option string) (w : World) :
  let format := orString formatParam "txt" in
  let title := orString titleParam "transcript" in
  isId videoId ->
  In (toLowerCase format) knownFormats ->
  exists response w' events,
    downloadRoute env toStringOther JSON_stringify (Some videoId) formatParam
      titleParam w
    = (Return response, w', events)
    /\ match fallbackChain env videoId with
       | Throw error =>
           exists message,
             error = Value message
             /\ (In message [Some "Transcripts are disabled for this video";
                             Some (cannotRead true "message");
                             Some (cannotRead false "message")]
                 /\ response = Json 500 "Failed to download transcript" message None
                 \/ In message [Some "Video is unavailable or has been removed";
                                Some "Video is private or restricted";
                                Some (errorMessage videoId)]
                    /\ response = Json 404 "Video unavailable" message None)
       | Return segments =>
           match formatTranscript toStringOther JSON_stringify
                   (map toObject segments) format with
           | Throw error =>
               Exists invalidSegment (map toObject segments)
               /\ exists message,
                    error = Value (Some message)
                    /\ response
                       = Json 500 "Failed to download transcript" (Some message) None
           | Return body =>
               valid (map toObject segments)
               /\ (response
                   = Attachment (getContentType format)
                       ("attachment; filename=" ++ DQUOTE
                        ++ (sanitize title ++ "." ++ format) ++ DQUOTE)
                       (ofN (N.of_nat (String.length body))) body
                   \/ trim body = ""
                      /\ response = Json 500 "Failed to format transcript" None None)
           end
       end.
Proof.
  intros format title I K.
  destruct (downloadRoute_run videoId formatParam titleParam w I K)
    as [response [w' [events [E R]]]].
  exists response, w', events. split; [exact E|]. clear E.
  fold format in R. fold title in R.
  destruct (fallbackChain env videoId) as [segments|error] eqn:F.
  - destruct (fallbackChain_returns _ _ _ F) as [N _]. subst response.
    rewrite (formatTranscript_typed segments format N).
    destruct (checkFrom 0 (map toObject segments)) as [m|] eqn:C.
    + split; [exact (checkFrom_rejects _ _ _ C)|].
      destruct (checkFrom_message _ _ _ C) as [kind [n [Kn ->]]].
      eexists. split; [reflexivity|].
      now apply downloadCatch_formatter.
    + split.
      * split; [now destruct segments | exact (proj1 (checkFrom_accepts _ _ C))].
      * cbv zeta.
        destruct (dispatch toStringOther JSON_stringify segments format)
          as [|c r] eqn:D; [right; now split|].
        cbn [JSString.truthy negb orb].
        destruct (trim (String c r)) as [|c' r'] eqn:Tr; [right; now split|].
        left. reflexivity.
  - destruct (fallbackChain_throws _ _ _ F) as [message [-> M]].
    exists message. split; [reflexivity|]. subst response.
    destruct videoId as [|c s]; [now destruct I|].
    destruct (catch_resolver c s message M) as [[L [_ D]] | [L [_ D]]]; auto.
Qed.

Lemma startsVisibly_app (a b : string) : startsVisibly a -> startsVisibly (a ++ b).
Proof.
  now destruct a.
Qed.

Lemma startsVisibly_join (sep a : string) (more : list string) :
  startsVisibly a -> startsVisibly (join sep (a :: more)).
Proof.
  intros H. unfold join. cbn [concat].
  destruct more; [exact H | now apply startsVisibly_app].
Qed.

Lemma startsVisibly_trim (s : string) : startsVisibly s -> trim s <> "".
Proof.
  destruct s as [|c r]; [intros []|]. cbn [startsVisibly]. intros W.
  unfold trim. cbn [trimStart]. rewrite W, trimEnd_cons.
  destruct (trimEnd r); [rewrite W|]; discriminate.
Qed.

Lemma trimmed_startsVisibly (s : string) :
  trimmed s -> s <> "" -> startsVisibly (trim s).
Proof.
  intros T N. rewrite T. unfold trimmed, trim in T.
  pose proof (trimStart_head s) as H.
  destruct s as [|c r]; [now elim N|]. cbn [startsVisibly].
  destruct (isWhiteSpace c) eqn:W; [|reflexivity].
  exfalso. cbn [trimStart] in T. rewrite W in T.
  assert (L : forall x, (String.length (trimEnd x) <= String.length x)%nat).
  { induction x as [|d x IH]; [reflexivity|]. rewrite trimEnd_cons.
    destruct (trimEnd x); [destruct (isWhiteSpace d)|]; cbn [String.length] in *; lia. }
  assert (L' : forall x, (String.length (trimStart x) <= String.length x)%nat).
  { induction x as [|d x IH]; [reflexivity|]. cbn [trimStart].
    destruct (isWhiteSpace d); cbn [String.length] in *; lia. }
  pose proof (L (trimStart r)) as L1. pose proof (L' r) as L2.
  rewrite T in L1. cbn [String.length] in L1. lia.
Qed.

(** The rendering of segments as the resolver returns them, in a format
    other than JSON, begins with a visible character. *)
Lemma dispatch_startsVisibly (x : TranscriptSegment) (l : list TranscriptSegment)
  (format : string) :
  In (toLowerCase format) textFormats ->
  trimmed (text x) -> text x <> "" ->
  startsVisibly (dispatch toStringOther JSON_stringify (x :: l) format).
Proof.
  intros K T N. unfold dispatch. cbv zeta.
  destruct K as [<- | [<- | [<- | [<- | []]]]]; cbn [String.eqb Ascii.eqb Bool.eqb].
  - unfold formatAsTxt. cbn [map].
    apply startsVisibly_join. now apply trimmed_startsVisibly.
  - unfold formatAsCsv. cbv zeta. now cbn [append startsVisibly].
  - unfold formatAsSrt, mapIndex. cbn [mapIndexFrom].
    apply startsVisibly_join. reflexivity.
  - unfold formatAsVtt. cbv zeta. now cbn [append startsVisibly].
Qed.

Lemma textFormats_known (format : string) :
  In format textFormats -> In format knownFormats.
Proof.
  intros [<- | [<- | [<- | [<- | []]]]]; cbn [knownFormats In];
    repeat first [left; reflexivity | right].
Qed.

Lemma accepted_text (x : TranscriptSegment) :
  ~ invalidSegment (toObject x) -> text x <> "".
Proof.
  intros V E. apply V. left. right. cbn. now rewrite E.
Qed.

(** X19.  For a well-formed id and one of the formats txt, csv, srt and
    vtt, the download route answers with an attachment exactly when the
    fallback chain returns segments that the renderer accepts, and the
    attachment then carries the rendering.  Its check for a blank rendering
    never fires: what the resolver returns has trimmed texts, so an accepted
    rendering begins with a visible character. *)
Theorem download_attachment_iff_rendered
  (videoId : string) (formatParam titleParam : option string) (w : World) :
  let format := orString formatParam "txt" in
  isId videoId ->
  In (toLowerCase format) textFormats ->
  exists response w' events,
    downloadRoute env toStringOther JSON_stringify (Some videoId) formatParam
      titleParam w
    = (Return response, w', events)
    /\ response <> Json 500 "Failed to format transcript" None None
    /\ (forall body,
          (exists contentType disposition contentLength,
              response = Attachment contentType disposition contentLength body)
          <-> (exists segments,
                  fallbackChain env videoId = Return segments
                  /\ formatTranscript toStringOther JSON_stringify
                       (map toObject segments) format
                     = Return body)).
Proof.
  intros format I K.
  destruct (downloadRoute_run videoId formatParam titleParam w I
              (textFormats_known _ K)) as [response [w' [events [E R]]]].
  exists response, w', events. split; [exact E|]. clear E. fold format in R.
  destruct (fallbackChain env videoId) as [segments|error] eqn:F.
  - subst response. destruct (fallbackChain_returns _ _ _ F) as [N T].
    destruct (checkFrom 0 (map toObject segments)) as [m|] eqn:C.
    + destruct (checkFrom_message _ _ _ C) as [kind [n [Kn ->]]].
      rewrite (downloadCatch_formatter kind n Kn).
      split; [discriminate|]. intros body. split.
      * intros [ct [cd [cl R]]]. discriminate R.
      * intros [segments' [[= <-] R]].
        rewrite (formatTranscript_typed segments format N), C in R. discriminate R.
    + destruct segments as [|x l]; [now elim N|].
      pose proof (proj1 (checkFrom_accepts _ _ C)) as A.
      cbn [map] in A. apply Forall_inv in A. apply accepted_text in A.
      pose proof (dispatch_startsVisibly x l format K (Forall_inv T) A) as V.
      pose proof (startsVisibly_trim _ V) as B.
      cbv zeta.
      destruct (dispatch toStringOther JSON_stringify (x :: l) format)
        as [|c r] eqn:D; [now elim V|].
      destruct (trim (String c r)) as [|c' r'] eqn:Tr; [now elim B|].
      cbn [JSString.truthy negb orb String.length Nat.eqb].
      split; [discriminate|]. intros body. split.
      * intros [ct [cd [cl [= _ _ _ <-]]]]. exists (x :: l). split; [reflexivity|].
        rewrite (formatTranscript_typed (x :: l) format N), C.
        unfold format in *. now rewrite D.
      * intros [segments' [[= <-] R]].
        rewrite (formatTranscript_typed (x :: l) format N), C in R.
        injection R as <-. unfold format in *. rewrite D. eauto.
  - destruct (fallbackChain_throws _ _ _ F) as [message [-> M]].
    subst response.
    destruct videoId as [|c s]; [now destruct I|].
    split; [|intros body; split].
    + destruct (catch_resolver c s message M) as [[L [_ D]] | [L [_ D]]];
        rewrite D; discriminate.
    + intros [ct [cd [cl R]]].
      destruct (catch_resolver c s message M) as [[L [_ D]] | [L [_ D]]];
        rewrite D in R; discriminate R.
    + intros [segments [R _]]. discriminate R.
Qed.

(** ** Strategy A into the renderer *)

Lemma formatSegment_wellTyped (c : TranscriptResponse) :
  wellTyped (formatSegment c) <-> ~ blankCaption c.
Proof.
  destruct (strategyA_normalised c) as [_ [O D]].
  unfold wellTyped, blankCaption. rewrite O, D.
  unfold formatSegment. cbn [text].
  destruct (response_text c) as [t|]; [|tauto].
  destruct (trim t) as [|a r]; cbn [JSString.truthy].
  - tauto.
  - split; [intros _; discriminate | intros _; repeat split; discriminate].
Qed.

Lemma formatSegment_blank (c : TranscriptResponse) (index : nat) :
  blankCaption c ->
  checkSegment (toObject (formatSegment c)) index
  = Some ("Invalid text in segment " ++ ofN (N.of_nat index)).
Proof.
  unfold blankCaption, formatSegment, checkSegment, toObject. cbn [text_ text].
  destruct (response_text c) as [t|]; [intros ->|]; reflexivity.
Qed.

(** X20.  What strategy A returns passes the renderer's validation
    exactly when no caption is blank (without text, or of white space
    only): offsets and durations were clamped, so only a text can be
    rejected, and the error names the first blank caption. *)
Theorem strategyA_result_is_rendered_iff_no_blank
  (raw : list TranscriptResponse) (format : string) :
  raw <> [] ->
  let result := map toObject (map formatSegment raw) in
  (Forall (fun c => ~ blankCaption c) raw ->
   formatTranscript toStringOther JSON_stringify result format
   = Return (dispatch toStringOther JSON_stringify (map formatSegment raw) format))
  /\ (forall before c after,
        raw = (before ++ c :: after)%list ->
        Forall (fun c => ~ blankCaption c) before ->
        blankCaption c ->
        formatTranscript toStringOther JSON_stringify result format
        = Error ("Invalid text in segment " ++ ofN (N.of_nat (List.length before)))).
Proof.
  intros N result. split.
  - intros F. unfold result.
    assert (V : valid (map toObject (map formatSegment raw))).
    { apply wellTyped_valid; [now destruct raw|].
      apply Forall_map. eapply Forall_impl; [|exact F].
      intros c. apply formatSegment_wellTyped. }
    destruct (valid_formatTranscript toStringOther JSON_stringify _ format V)
      as [segments [A ->]].
    rewrite asSegments_toObject in A. now injection A as <-.
  - intros before c after -> F B. unfold result.
    rewrite (formatTranscript_typed _ format);
      [|now destruct before].
    rewrite !map_app. cbn [map].
    rewrite checkFrom_skip_valid.
    + cbn [checkFrom]. rewrite !length_map, Nat.add_0_l.
      now rewrite (formatSegment_blank c _ B).
    + apply Forall_map, Forall_map. eapply Forall_impl; [|exact F].
      intros x Hx. apply wellTyped_accepted. now apply formatSegment_wellTyped.
Qed.

(** ** Strategy B into the renderer *)

Lemma checkSegment_typed (s : TranscriptSegment) (index : nat) :
  text s <> "" ->
  checkSegment (toObject s) index
  = if ltb (duration s) zero
    then Some ("Invalid duration in segment " ++ ofN (N.of_nat index))
    else if ltb (offset s) zero
         then Some ("Invalid offset in segment " ++ ofN (N.of_nat index))
         else None.
Proof.
  intros N. unfold checkSegment, toObject. cbn [text_ duration_ offset_].
  destruct (text s) as [|c r]; [now elim N|]. reflexivity.
Qed.

Lemma checkFrom_typed (segments : list TranscriptSegment) :
  Forall (fun s => text s <> "") segments ->
  forall index message,
    checkFrom index (map toObject segments) = Some message ->
    exists before s after,
      segments = (before ++ s :: after)%list
      /\ Forall (fun x => ltb (duration x) zero = false
                          /\ ltb (offset x) zero = false) before
      /\ (ltb (duration s) zero = true
          /\ message = "Invalid duration in segment "
                       ++ ofN (N.of_nat (index + List.length before))
          \/ ltb (duration s) zero = false /\ ltb (offset s) zero = true
             /\ message = "Invalid offset in segment "
                          ++ ofN (N.of_nat (index + List.length before))).
Proof.
  induction 1 as [|s rest Hs _ IH]; intros index message C; [discriminate|].
  cbn [map checkFrom] in C. rewrite (checkSegment_typed s index Hs) in C.
  destruct (ltb (duration s) zero) eqn:D.
  { injection C as <-. exists [], s, rest. cbn [app List.length].
    rewrite Nat.add_0_r. split; [reflexivity|]. split; [constructor|].
    left. now split. }
  destruct (ltb (offset s) zero) eqn:O.
  { injection C as <-. exists [], s, rest. cbn [app List.length].
    rewrite Nat.add_0_r. split; [reflexivity|]. split; [constructor|].
    right. now repeat split. }
  destruct (IH _ _ C) as [before [x [after [-> [F K]]]]].
  exists (s :: before), x, after. cbn [app List.length].
  split; [reflexivity|]. split; [constructor; auto|].
  now rewrite Nat.add_succ_r.
Qed.

(** X21.  What strategy B returns can be rejected by the renderer on its
    timing only.  Its texts are non-empty and trimmed, so the error is never
    about a text: it names the first segment whose duration or offset is
    negative, the duration being looked at first. *)
Theorem strategyB_result_is_rejected_on_timing_only
  (videoId : string) (segments : list TranscriptSegment) (format message : string) :
  parseYoutubeI env videoId = Return segments ->
  formatTranscript toStringOther JSON_stringify (map toObject segments) format
  = Error message ->
  segments = [] /\ message = "Empty transcript provided"
  \/ exists before s after,
       segments = (before ++ s :: after)%list
       /\ Forall (fun x => ltb (duration x) zero = false
                           /\ ltb (offset x) zero = false) before
       /\ (ltb (duration s) zero = true
           /\ message = "Invalid duration in segment "
                        ++ ofN (N.of_nat (List.length before))
           \/ ltb (duration s) zero = false /\ ltb (offset s) zero = true
              /\ message = "Invalid offset in segment "
                           ++ ofN (N.of_nat (List.length before))).
Proof.
  intros P R. apply parseYoutubeI_texts in P.
  destruct segments as [|x l]; [left; split; [reflexivity | now injection R as <-]|].
  right. rewrite (formatTranscript_typed (x :: l) format) in R by discriminate.
  destruct (checkFrom 0 (map toObject (x :: l))) as [m|] eqn:C; [|discriminate R].
  injection R as <-.
  apply (checkFrom_typed (x :: l)) in C; [exact C|].
  eapply Forall_impl; [|exact P]. now intros a [_ T].
Qed.

End Routes2.

(** ** The file name of a download *)

Lemma sanitize_idChar (title : string) : all idChar (sanitize title).
Proof.
  induction title as [|c r IH]; [apply all_nil|].
  cbn [sanitize]. apply all_cons. split; [|exact IH].
  destruct (idChar c) eqn:E; [exact E | reflexivity].
Qed.

Lemma sanitize_fixes (title : string) : all idChar title -> sanitize title = title.
Proof.
  induction title as [|c r IH]; intros F; [reflexivity|].
  apply all_cons in F. destruct F as [Fc Fr].
  cbn [sanitize]. now rewrite Fc, IH.
Qed.

(** X22.  The sanitised title has the length of the title and holds only
    characters from [a-zA-Z0-9_-]; a title made of such characters is left
    as it is, so sanitising twice is sanitising once. *)
Theorem sanitize_is_a_projection (title : string) :
  String.length (sanitize title) = String.length title
  /\ all idChar (sanitize title)
  /\ (sanitize title = title <-> all idChar title)
  /\ sanitize (sanitize title) = sanitize title.
Proof.
  split; [|split; [apply sanitize_idChar | split]].
  - induction title as [|c r IH]; [reflexivity|].
    cbn [sanitize String.length]. now rewrite IH.
  - split; [intros <-; apply sanitize_idChar | apply sanitize_fixes].
  - apply sanitize_fixes, sanitize_idChar.
Qed.

(** ** The matcher finds only matches *)

Lemma run_sound (p : pattern) :
  forall (A : Type) (k : state -> option A) (st : state) (a : A),
    run p st k = Some a ->
    exists st', matches p st st' /\ k st' = Some a.
Proof.
  induction p as [|c|f|p IHp q IHq|p IHp q IHq|f|i p IHp| |];
    intros A k st a R; cbn [run] in R.
  - exists st. split; [constructor | exact R].
  - destruct (rest st) as [|d r] eqn:E; [discriminate|].
    destruct (Ascii.eqb c d) eqn:C; [|discriminate].
    apply Ascii.eqb_eq in C. subst d.
    eexists. split; [exact (matches_Char c r st E) | exact R].
  - destruct (rest st) as [|d r] eqn:E; [discriminate|].
    destruct (f d) eqn:C; [|discriminate].
    eexists. split; [exact (matches_Class f d r st E C) | exact R].
  - destruct (IHp _ _ _ _ R) as [st1 [M1 R1]].
    destruct (IHq _ _ _ _ R1) as [st2 [M2 R2]].
    exists st2. split; [exact (matches_Seq _ _ _ _ _ M1 M2) | exact R2].
  - destruct (run p st k) as [b|] eqn:L.
    + injection R as ->. destruct (IHp _ _ _ _ L) as [st' [M K]].
      exists st'. split; [now apply matches_Alt_l | exact K].
    + destruct (IHq _ _ _ _ R) as [st' [M K]].
      exists st'. split; [now apply matches_Alt_r | exact K].
  - destruct (star_inv _ _ _ _ _ _ _ R) as [t [r [E [F K]]]].
    eexists. split; [exact (matches_Star f t r st E F) | exact K].
  - destruct (IHp _ _ _ _ R) as [st' [M K]].
    eexists. split; [exact (matches_Group i p st st' M) | exact K].
  - destruct (position st =? 0)%nat eqn:E; [|discriminate].
    apply Nat.eqb_eq in E.
    exists st. split; [now constructor | exact R].
  - destruct (rest st) as [|d r] eqn:E; [|discriminate].
    exists st. split; [now constructor | exact R].
Qed.

Lemma exec_sound (p : pattern) (s : string) (st : state) :
  exec p s = Some st ->
  exists before after,
    s = before ++ after
    /\ matches p {| position := String.length before; rest := after;
                    captures := [] |} st.
Proof.
  intros E. destruct (execFrom_inv _ _ _ _ E) as [before [after [-> R]]].
  destruct (run_sound _ _ _ _ _ R) as [st' [M [= ->]]].
  exists before, after. split; [reflexivity | exact M].
Qed.

Ltac invert_match :=
  match goal with
  | H : matches (Seq _ _) _ _ |- _ => inversion H; clear H; subst
  | H : matches (Alt _ _) _ _ |- _ => inversion H; clear H; subst
  | H : matches (Group _ _) _ _ |- _ => inversion H; clear H; subst
  | H : matches (Char _) _ _ |- _ => inversion H; clear H; subst
  | H : matches Empty _ _ |- _ => inversion H; clear H; subst
  | H : matches Start _ _ |- _ => inversion H; clear H; subst
  end;
  cbn [rest position captures] in *; subst.

Ltac pick_prefix l :=
  match l with
  | ?p :: ?more =>
      first [ solve [exists p; eexists; split;
                     [cbn; repeat first [left; reflexivity | right] | reflexivity]]
            | pick_prefix more ]
  end.

Lemma hostPattern_inv (url : string) :
  test hostPattern url = true ->
  exists p r, In p hostPrefixes /\ url = p ++ r.
Proof.
  unfold test. destruct (exec hostPattern url) as [st|] eqn:E; [intros _|discriminate].
  destruct (exec_sound _ _ _ E) as [before [after [-> M]]]. clear E.
  unfold hostPattern, Opt in M. cbn [Lit] in M.
  repeat invert_match.
  all: match goal with
       | H : String.length ?b = 0%nat |- _ => destruct b; [clear H | discriminate H]
       end.
  all: cbn [append].
  all: let l := eval cbv in hostPrefixes in pick_prefix l.
Qed.

Lemma hostPattern_accepts (p r : string) :
  In p hostPrefixes -> test hostPattern (p ++ r) = true.
Proof.
  intros H. cbv [hostPrefixes flat_map map app append] in H. cbn [In] in H.
  repeat (destruct H as [<- | H]; [vm_compute; reflexivity|]).
  elim H.
Qed.

Lemma bareId_test (url : string) : test bareIdPattern url = true <-> isId url.
Proof.
  unfold test. split.
  - destruct (exec bareIdPattern url) as [st|] eqn:E; [intros _|discriminate].
    exact (proj1 (exec_bareId_inv _ _ E)).
  - intros I. now rewrite (exec_bareId url I).
Qed.

(** X23.  [isValidYouTubeUrl] accepts exactly the bare well-formed ids and
    the strings that begin with [http://] or [https://], an optional
    [www.], and one of the three hosts; what follows the host is not looked
    at. *)
Theorem isValidYouTubeUrl_accepts_exactly (url : string) :
  isValidYouTubeUrl url = true
  <-> isId url \/ exists p r, In p hostPrefixes /\ url = p ++ r.
Proof.
  unfold isValidYouTubeUrl. split.
  - destruct (JSString.truthy url); [|discriminate]. cbn [negb].
    intros H. apply orb_prop in H. destruct H as [H | H].
    + right. now apply hostPattern_inv.
    + left. now apply bareId_test.
  - intros [I | [p [r [P ->]]]].
    + rewrite (isId_truthy _ I). cbn [negb].
      rewrite (proj2 (bareId_test url) I). apply orb_true_r.
    + rewrite (hostPattern_accepts p r P), orb_true_l.
      cbv [hostPrefixes flat_map map app append] in P. cbn [In] in P.
      repeat (destruct P as [<- | P]; [reflexivity|]). elim P.
Qed.

(** ** The client's check of a URL against the server's *)

Ltac invert_match_more :=
  match goal with
  | H : matches (Seq _ _) _ _ |- _ => inversion H; clear H; subst
  | H : matches (Alt _ _) _ _ |- _ => inversion H; clear H; subst
  | H : matches (Group _ _) _ _ |- _ => inversion H; clear H; subst
  | H : matches (Char _) _ _ |- _ => inversion H; clear H; subst
  | H : matches (Class _) _ _ |- _ => inversion H; clear H; subst
  | H : matches (Star _) _ _ |- _ => inversion H; clear H; subst
  | H : matches Empty _ _ |- _ => inversion H; clear H; subst
  | H : matches Start _ _ |- _ => inversion H; clear H; subst
  end;
  cbn [rest position captures] in *; subst.

Lemma client_pattern_inv (p : pattern) (url : string) :
  In p Client.patterns ->
  test p url = true ->
  exists q r, In q hostPrefixes /\ url = q ++ r.
Proof.
  intros P. unfold test.
  destruct (exec p url) as [st|] eqn:E; [intros _|discriminate].
  destruct (exec_sound _ _ _ E) as [before [after [-> M]]]. clear E.
  cbv [Client.patterns] in P. cbn [In] in P.
  repeat (destruct P as [<- | P]; [|]); [..|elim P];
    unfold Client.scheme, Client.www, Opt, Plus in M; cbn [Lit] in M;
    repeat invert_match_more;
    match goal with
    | H : String.length ?b = 0%nat |- _ => destruct b; [clear H | discriminate H]
    end;
    cbn [append];
    let l := eval cbv in hostPrefixes in pick_prefix l.
Qed.

Lemma all_forallb (f : ascii -> bool) (s : string) :
  all f s -> forallb f (list_ascii_of_string s) = true.
Proof.
  intros F. apply forallb_forall. intros c Hc.
  exact (proj1 (Forall_forall _ _) F c Hc).
Qed.

Lemma hostPrefix_no_id (q r : string) : In q hostPrefixes -> ~ isId (q ++ r).
Proof.
  intros Q [_ F]. apply all_app in F. destruct F as [F _].
  apply all_forallb in F.
  cbv [hostPrefixes flat_map map app append] in Q. cbn [In] in Q.
  repeat (destruct Q as [<- | Q]; [discriminate F|]). elim Q.
Qed.

Lemma hostPrefix_truthy (q r : string) :
  In q hostPrefixes -> JSString.truthy (q ++ r) = true.
Proof.
  intros Q. cbv [hostPrefixes flat_map map app append] in Q. cbn [In] in Q.
  repeat (destruct Q as [<- | Q]; [reflexivity|]). elim Q.
Qed.

(** X24.  What the component's [isValidYouTubeUrl] accepts, the server's
    accepts as well, and it is never a bare id: the component asks for a
    scheme, a host and a path, the server for a scheme and a host, or for
    an id alone. *)
Theorem client_check_is_the_stricter (url : string) :
  Client.isValidYouTubeUrl url = true ->
  Urls.isValidYouTubeUrl url = true /\ ~ isId url.
Proof.
  unfold Client.isValidYouTubeUrl. intros H.
  apply existsb_exists in H. destruct H as [p [P T]].
  destruct (client_pattern_inv p url P T) as [q [r [Q ->]]].
  split; [|now apply hostPrefix_no_id].
  unfold Urls.isValidYouTubeUrl.
  rewrite (hostPrefix_truthy q r Q), (hostPattern_accepts q r Q). reflexivity.
Qed.

(** ** The component's file names *)

Lemma removeAll_clean (f : ascii -> bool) (s : string) :
  all (fun c => negb (f c)) (Client.removeAll f s).
Proof.
  induction s as [|c s IH]; [apply all_nil|]. cbn [Client.removeAll].
  destruct (f c) eqn:E; [exact IH|].
  apply all_cons. split; [now rewrite E | exact IH].
Qed.

Lemma collapseFrom_keeps (f : ascii -> bool) (s : string) :
  f " "%char = true ->
  all f s -> forall b, all f (Client.collapseFrom b s).
Proof.
  intros Sp. induction s as [|c s IH]; intros F b; [apply all_nil|].
  apply all_cons in F. destruct F as [Fc Fs]. cbn [Client.collapseFrom].
  destruct (isWhiteSpace c).
  - destruct b; [now apply IH | apply all_cons; split; [exact Sp | now apply IH]].
  - apply all_cons. split; [exact Fc | now apply IH].
Qed.

Lemma collapseFrom_spaced (s : string) :
  forall b, spacedFrom b (Client.collapseFrom b s) = true.
Proof.
  induction s as [|c s IH]; intros b; [reflexivity|].
  cbn [Client.collapseFrom]. destruct (isWhiteSpace c) eqn:W.
  - destruct b; [apply IH|]. cbn [spacedFrom].
    change (isWhiteSpace " ") with true. cbn. apply IH.
  - cbn [spacedFrom]. rewrite W. apply IH.
Qed.

Lemma spacedFrom_weaken (s : string) :
  spacedFrom true s = true -> spacedFrom false s = true.
Proof.
  destruct s as [|c s]; [reflexivity|]. cbn [spacedFrom].
  destruct (isWhiteSpace c); [|trivial].
  rewrite andb_false_r. discriminate.
Qed.

Lemma spacedFrom_prefix (a r : string) :
  forall b, spacedFrom b (a ++ r) = true -> spacedFrom b a = true.
Proof.
  induction a as [|c a IH]; intros b H; [reflexivity|].
  cbn [append spacedFrom] in *. destruct (isWhiteSpace c).
  - apply andb_prop in H. destruct H as [H1 H2]. rewrite H1. now apply IH.
  - now apply IH.
Qed.

Lemma spacedFrom_trimStart (s : string) :
  forall b, spacedFrom b s = true -> spacedFrom false (trimStart s) = true.
Proof.
  induction s as [|c s IH]; intros b H; [reflexivity|].
  cbn [trimStart]. cbn [spacedFrom] in H. destruct (isWhiteSpace c) eqn:W.
  - apply andb_prop in H. destruct H as [_ H]. exact (IH _ H).
  - cbn [spacedFrom]. now rewrite W.
Qed.

Lemma trimEnd_prefix (s : string) : exists r, s = trimEnd s ++ r.
Proof.
  induction s as [|c s [r IH]]; [now exists ""|].
  rewrite trimEnd_cons. destruct (trimEnd s) as [|d t] eqn:E.
  - destruct (isWhiteSpace c); [now exists (String c s) | now exists s].
  - exists r. cbn [append]. now rewrite IH at 1.
Qed.

Lemma substring_is_prefix (n : nat) (s : string) :
  exists r, s = substring 0 n s ++ r.
Proof.
  revert s. induction n as [|n IH]; intros s.
  - exists s. now destruct s.
  - destruct s as [|c s]; [now exists ""|].
    destruct (IH s) as [r E]. exists r. cbn [substring append]. now rewrite E at 1.
Qed.

Lemma substring_length_le (n : nat) (s : string) :
  (String.length (substring 0 n s) <= n)%nat.
Proof.
  revert s. induction n as [|n IH]; intros s.
  - now destruct s.
  - destruct s as [|c s]; [cbn; lia|]. cbn [substring String.length].
    specialize (IH s). lia.
Qed.

Lemma substring_short (n : nat) (s : string) :
  (String.length s <= n)%nat -> substring 0 n s = s.
Proof.
  revert s. induction n as [|n IH]; intros s L.
  - destruct s; [reflexivity | cbn in L; lia].
  - destruct s as [|c s]; [reflexivity|]. cbn [substring].
    rewrite IH; [reflexivity | cbn in L; lia].
Qed.

Lemma all_prefix (f : ascii -> bool) (a r s : string) :
  s = a ++ r -> all f s -> all f a.
Proof.
  intros -> F. now apply all_app in F.
Qed.

(** X25.  A file name as the component sanitises it has at most 100
    characters, none of them one of the characters it removes; its white
    space is single spaces, and it does not begin with one.  It is trimmed
    when the cut at 100 characters did not shorten it; the cut can leave a
    space at the end. *)
Theorem sanitizeFilename_shape (filename : string) :
  let name := Client.sanitizeFilename filename in
  (String.length name <= 100)%nat
  /\ all (fun c => negb (Client.invalidCharacter c)) name
  /\ singleSpaced name
  /\ (name = "" \/ startsVisibly name)
  /\ ((String.length
         (trim (Client.collapse (Client.removeAll Client.invalidCharacter filename)))
       <= 100)%nat ->
      trimmed name).
Proof.
  intros name. unfold name, Client.sanitizeFilename.
  set (clean := Client.removeAll Client.invalidCharacter filename).
  set (t := trim (Client.collapse clean)).
  destruct (substring_is_prefix 100 t) as [r E].
  assert (C : all (fun c => negb (Client.invalidCharacter c)) t).
  { unfold t, trim. apply all_trimEnd, all_trimStart.
    apply collapseFrom_keeps; [reflexivity | apply removeAll_clean]. }
  assert (S : spacedFrom false t = true).
  { unfold t, trim. destruct (trimEnd_prefix (trimStart (Client.collapse clean)))
      as [r' E'].
    apply (spacedFrom_prefix _ r'). rewrite <- E'.
    apply (spacedFrom_trimStart _ false). apply collapseFrom_spaced. }
  split; [apply substring_length_le|].
  split; [exact (all_prefix _ _ _ _ E C)|].
  split; [unfold singleSpaced; apply (spacedFrom_prefix _ r); now rewrite <- E|].
  split.
  - pose proof (trim_trimmed (Client.collapse clean)) as T. fold t in T.
    destruct t as [|c t'] eqn:Et; [left; reflexivity|]. right.
    assert (V : startsVisibly (String c t')).
    { rewrite <- T. apply trimmed_startsVisibly; [exact T | discriminate]. }
    exact V.
  - intros L. rewrite (substring_short 100 t L). apply trim_trimmed.
Qed.

(** ** The component's requests *)

Lemma round_returns (answer : completion Client.HttpResponse)
  (response : Client.HttpResponse) :
  Client.round answer = Return response ->
  answer = Return response
  /\ (Client.ok response = true
      \/ (400 <= Client.status response < 500)%N).
Proof.
  unfold Client.round. destruct answer as [a|e]; [|discriminate].
  destruct (Client.ok a) eqn:O.
  - intros [= <-]. auto.
  - destruct ((400 <=? Client.status a) && (Client.status a <? 500))%N eqn:C;
      [|discriminate].
    intros [= <-]. split; [reflexivity|]. right.
    apply andb_prop in C. destruct C as [C1 C2].
    apply N.leb_le in C1. apply N.ltb_lt in C2. lia.
Qed.

Lemma retryFrom_S (fetch : nat -> completion Client.HttpResponse)
  (retries i remaining : nat) :
  Client.retryFrom fetch retries i (S remaining)
  = match Client.round (fetch i) with
    | Return response => (Return response, [Client.Fetch i])
    | Throw error =>
        if (i =? retries - 1)%nat then (Throw error, [Client.Fetch i])
        else
          let '(r, actions) := Client.retryFrom fetch retries (S i) remaining in
          (r, Client.Fetch i
              :: Client.Sleep (Client.RETRY_DELAY * (Z.of_nat i + 1)) :: actions)
    end.
Proof.
  reflexivity.
Qed.

Lemma retryFrom_spec (fetch : nat -> completion Client.HttpResponse) (retries : nat) :
  forall remaining i r actions,
    (i + remaining = retries)%nat ->
    (1 <= remaining)%nat ->
    Client.retryFrom fetch retries i remaining = (r, actions) ->
    exists k,
      (1 <= k <= remaining)%nat
      /\ fetches actions = seq i k
      /\ (forall j, (i <= j < i + k - 1)%nat -> failing (fetch j) = true)
      /\ r = Client.round (fetch (i + k - 1)%nat)
      /\ (throwsb r = true -> k = remaining)
      /\ 2 * slept actions
         = Client.RETRY_DELAY * (Z.of_nat k - 1) * (2 * Z.of_nat i + Z.of_nat k).
Proof.
  induction remaining as [|remaining IH]; intros i r actions S L E; [lia|].
  rewrite retryFrom_S in E.
  destruct (Client.round (fetch i)) as [response|error] eqn:R.
  - injection E as <- <-. exists 1%nat.
    replace (i + 1 - 1)%nat with i by lia.
    repeat split; try lia; try (now symmetry); try discriminate;
      try (intros j J; lia); try (cbn; unfold Client.RETRY_DELAY; lia).
  - destruct (i =? retries - 1)%nat eqn:Last.
    + apply Nat.eqb_eq in Last. injection E as <- <-. exists 1%nat.
      replace (i + 1 - 1)%nat with i by lia.
      repeat split; try lia; try (now symmetry);
        try (intros j J; lia); try (cbn; unfold Client.RETRY_DELAY; lia).
    + apply Nat.eqb_neq in Last.
      destruct (Client.retryFrom fetch retries (Datatypes.S i) remaining)
        as [r' actions'] eqn:E'.
      pose proof (f_equal fst E) as Er. pose proof (f_equal snd E) as Ea.
      cbn [fst snd] in Er, Ea. clear E. subst r actions.
      destruct (IH (Datatypes.S i) r' actions' ltac:(lia) ltac:(lia) E')
        as [k [K [F [A [Rr [T Sl]]]]]].
      exists (Datatypes.S k).
      split; [lia|].
      split; [change (fetches (Client.Fetch i :: Client.Sleep
                                 (Client.RETRY_DELAY * (Z.of_nat i + 1)) :: actions'))
                with (i :: fetches actions');
              now rewrite F|].
      split.
      { intros j J. destruct (Nat.eq_dec j i) as [->|N].
        - unfold failing. now rewrite R.
        - apply A. lia. }
      split; [replace (i + Datatypes.S k - 1)%nat with (Datatypes.S i + k - 1)%nat by lia;
              exact Rr|].
      split; [intros Th; specialize (T Th); lia|].
      cbn [slept]. unfold Client.RETRY_DELAY in *. nia.
Qed.

(** X26.  [fetchWithRetry] with at least one retry sends its requests one
    after the other, at most [retries] of them, and stops at the first
    answer that is ok or a client error (status 400 to 499): what it
    returns is such an answer, never another status.  It throws only after
    [retries] failing rounds, and then the error of the last round, so
    "Max retries exceeded" is never reached.  After [k] requests it has
    slept 1000, 2000, ... milliseconds between them, [500 k (k-1)] in all,
    at most 3000 for the three retries the component uses. *)
Theorem fetchWithRetry_rounds
  (fetch : nat -> completion Client.HttpResponse) (retries : nat) r actions :
  (1 <= retries)%nat ->
  Client.fetchWithRetry fetch retries = (r, actions) ->
  exists k,
    (1 <= k <= retries)%nat
    /\ fetches actions = seq 0 k
    /\ (forall j, (j < k - 1)%nat -> failing (fetch j) = true)
    /\ r = Client.round (fetch (k - 1)%nat)
    /\ (throwsb r = true -> k = retries)
    /\ (forall response,
           r = Return response ->
           fetch (k - 1)%nat = Return response
           /\ (Client.ok response = true
               \/ (400 <= Client.status response < 500)%N))
    /\ slept actions = 500 * Z.of_nat k * (Z.of_nat k - 1)
    /\ (retries = Client.MAX_RETRIES -> slept actions <= 3000).
Proof.
  intros L E. unfold Client.fetchWithRetry in E.
  destruct (retryFrom_spec fetch retries retries 0 r actions eq_refl L E)
    as [k [K [F [A [R [T S]]]]]].
  cbn [Nat.add] in *. unfold Client.RETRY_DELAY in S.
  exists k. split; [exact K|]. split; [exact F|].
  split; [intros j J; apply A; lia|].
  split; [exact R|]. split; [exact T|].
  split; [intros response Rr; apply round_returns; now rewrite <- R|].
  split; [nia|].
  unfold Client.MAX_RETRIES. intros ->. nia.
Qed.

(** ** The properties at work *)

Lemma sampleId_isId : isId Examples2.sampleId.
Proof.
  split; [reflexivity|]. repeat constructor.
Qed.

Lemma bare_id_is_recognised_witness :
  isId Examples2.sampleId
  /\ extractVideoId Examples2.sampleId = Some Examples2.sampleId
  /\ isValidYouTubeUrl Examples2.sampleId = true
  /\ getYouTubeUrlType Examples2.sampleId = "video".
Proof.
  split; [exact sampleId_isId|].
  exact (bare_id_is_recognised Examples2.sampleId sampleId_isId).
Defined.

Lemma urlFormats_round_trip_witness :
  isId Examples2.sampleId
  /\ Forall (fun url =>
               extractVideoId url = Some Examples2.sampleId
               /\ isValidYouTubeUrl url = true
               /\ getYouTubeUrlType url = "video")
            (urlFormats Examples2.sampleId).
Proof.
  split; [exact sampleId_isId|].
  exact (urlFormats_round_trip Examples2.sampleId sampleId_isId).
Defined.

Lemma extractVideoId_shape_witness :
  extractVideoId "https://youtu.be/dQw4w9WgXcQ?t=1" = Some Examples2.sampleId
  /\ String.length Examples2.sampleId = 11%nat
  /\ all notSeparator Examples2.sampleId
  /\ includes "https://youtu.be/dQw4w9WgXcQ?t=1" Examples2.sampleId = true.
Proof.
  assert (E : extractVideoId "https://youtu.be/dQw4w9WgXcQ?t=1"
              = Some Examples2.sampleId) by (vm_compute; reflexivity).
  split; [exact E|].
  exact (extractVideoId_shape _ _ E).
Defined.

Lemma extractPlaylistId_shape_witness :
  extractPlaylistId "https://www.youtube.com/playlist?list=PL_1-a&index=2"
  = Some "PL_1-a"
  /\ getYouTubeUrlType "https://www.youtube.com/playlist?list=PL_1-a&index=2"
     = "playlist".
Proof.
  assert (E : extractPlaylistId "https://www.youtube.com/playlist?list=PL_1-a&index=2"
              = Some "PL_1-a") by (vm_compute; reflexivity).
  split; [exact E|].
  destruct (extractPlaylistId_shape _ _ E) as [_ [_ [_ H]]]. exact H.
Defined.

Lemma hello_accepted : Forall (fun x => ~ invalidSegment x) [toObject Examples.hello].
Proof.
  constructor; [|constructor]. apply wellTyped_accepted, hello_wellTyped.
Qed.

Lemma silent_invalid : invalidSegment (toObject Examples2.silent).
Proof.
  left. right. reflexivity.
Qed.

Lemma first_invalid_segment_is_reported_witness :
  Forall (fun x => ~ invalidSegment x) [toObject Examples.hello]
  /\ invalidSegment (toObject Examples2.silent)
  /\ exists kind,
       formatTranscript Examples.plainToString Examples.plainJson
         ([toObject Examples.hello] ++ toObject Examples2.silent
            :: [toObject Examples.world])%list "srt"
       = Error ("Invalid " ++ kind ++ " in segment " ++ ofN 1).
Proof.
  split; [exact hello_accepted|]. split; [exact silent_invalid|].
  destruct (first_invalid_segment_is_reported Examples.plainToString
              Examples.plainJson [toObject Examples.hello]
              [toObject Examples.world] (toObject Examples2.silent) "srt"
              hello_accepted silent_invalid) as [kind [H _]].
  exists kind. exact H.
Defined.

Lemma vtt_one_cue_per_segment_witness :
  valid (map toObject [Examples.hello; Examples.world])
  /\ Forall legible [Examples.hello; Examples.world]
  /\ exists document,
       formatTranscript Examples.plainToString Examples.plainJson
         (map toObject [Examples.hello; Examples.world]) "vtt"
       = Return document
       /\ blocks document
          = [["WEBVTT"];
             ["00:00:01.000 --> 00:00:03.000"; "hello"];
             ["00:00:03.000 --> 00:00:07.000"; "world"]].
Proof.
  split; [exact hello_world_valid|].
  split; [exact hello_world_legible|].
  destruct (vtt_one_cue_per_segment Examples.plainToString Examples.plainJson
              [Examples.hello; Examples.world]
              hello_world_valid hello_world_legible)
    as [document [cues [H1 _]]].
  exists document. split; [exact H1|].
  vm_compute in H1. injection H1 as <-. vm_compute. reflexivity.
Defined.

Lemma formatTime_on_whole_seconds_witness :
  0 <= 3725 < 14400
  /\ formatTime Examples.plainToString (ofZ 3725) false = "01:02:05,000".
Proof.
  split; [lia|].
  apply (formatTime_on_whole_seconds Examples.plainToString 3725 false). lia.
Defined.

Lemma forward_run :
  getYouTubeTranscript Examples.forward "abc" Examples.idle
  = (Return [{| text := "good day"; offset := ofZ 1; duration := ofZ 2 |}],
     {| lastRequestTime := 1004; consecutiveFailures := 0; clockReads := 5 |},
     [AttemptA "abc" (Throw (Some "fetch failed"));
      Wait 499;
      AttemptB "abc"
        (Return [{| text := "good day"; offset := ofZ 1; duration := ofZ 2 |}])]).
Proof.
  vm_compute. reflexivity.
Qed.

Lemma attempts_stop_at_first_success_witness :
  let r := Return [{| text := "good day"; offset := ofZ 1; duration := ofZ 2 |}] in
  let w' := {| lastRequestTime := 1004; consecutiveFailures := 0; clockReads := 5 |} in
  let events :=
    [AttemptA "abc" (Throw (Some "fetch failed"));
     Wait 499;
     AttemptB "abc"
       (Return [{| text := "good day"; offset := ofZ 1; duration := ofZ 2 |}])] in
  getYouTubeTranscript Examples.forward "abc" Examples.idle = (r, w', events)
  /\ (exists n, attempts events = firstn n (attemptSequence Examples.forward "abc"))
  /\ existsb successful (attempts events) = negb (throwsb r).
Proof.
  intros r w' events. split; [exact forward_run|].
  destruct (attempts_stop_at_first_success Examples.forward "abc" Examples.idle
              r w' events forward_run) as [H1 [_ H3]].
  split; [exact H1 | exact H3].
Defined.

Lemma counter_follows_outcome_witness :
  let r := Return [{| text := "good day"; offset := ofZ 1; duration := ofZ 2 |}] in
  let w' := {| lastRequestTime := 1004; consecutiveFailures := 0; clockReads := 5 |} in
  let events :=
    [AttemptA "abc" (Throw (Some "fetch failed"));
     Wait 499;
     AttemptB "abc"
       (Return [{| text := "good day"; offset := ofZ 1; duration := ofZ 2 |}])] in
  getYouTubeTranscript Examples.forward "abc" Examples.idle = (r, w', events)
  /\ consecutiveFailures w' = Z.max 0 (consecutiveFailures Examples.idle - 1).
Proof.
  intros r w' events. split; [exact forward_run|].
  destruct (counter_follows_outcome Examples.forward "abc" Examples.idle
              r w' events forward_run) as [H _].
  exact (H eq_refl).
Defined.

Lemma idle_not_negative : 0 <= consecutiveFailures Examples.idle.
Proof.
  cbn. lia.
Qed.

Lemma counter_after_a_run_of_outcomes_witness :
  0 <= consecutiveFailures Examples.idle
  /\ consecutiveFailures
       (resolveAll [(Examples.offline, "abc"); (Examples.offline, "xyz")]
          Examples.idle)
     = consecutiveFailures Examples.idle + 2.
Proof.
  split; [exact idle_not_negative|].
  destruct (counter_after_a_run_of_outcomes
              [(Examples.offline, "abc"); (Examples.offline, "xyz")]
              Examples.idle idle_not_negative) as [_ H].
  apply H. repeat constructor.
Defined.

Lemma offline_monotone : monotone Examples.offline.
Proof.
  intros i j L. change (1000 + Z.of_nat i <= 1000 + Z.of_nat j). lia.
Qed.

Lemma offline_run :
  getYouTubeTranscript Examples.offline "abc" Examples.idle
  = (Error (errorMessage "abc"),
     {| lastRequestTime := 1008; consecutiveFailures := 1; clockReads := 10 |},
     [AttemptA "abc" (Throw (Some "fetch failed"));
      Wait 499; AttemptB "abc" (Throw (Some "fetch failed"));
      Wait 499;
      AttemptA "https://www.youtube.com/watch?v=abc" (Throw (Some "fetch failed"));
      Wait 499;
      AttemptA "https://youtu.be/abc" (Throw (Some "fetch failed"))]).
Proof.
  vm_compute. reflexivity.
Qed.

Lemma resolution_waits_are_bounded_witness :
  0 <= consecutiveFailures Examples.idle
  /\ monotone Examples.offline
  /\ lastRequestTime Examples.idle
     <= Date_now Examples.offline (S (clockReads Examples.idle))
  /\ (waited
        [AttemptA "abc" (Throw (Some "fetch failed"));
         Wait 499; AttemptB "abc" (Throw (Some "fetch failed"));
         Wait 499;
         AttemptA "https://www.youtube.com/watch?v=abc" (Throw (Some "fetch failed"));
         Wait 499;
         AttemptA "https://youtu.be/abc" (Throw (Some "fetch failed"))]
      <= 20000)%Q.
Proof.
  assert (L : lastRequestTime Examples.idle
              <= Date_now Examples.offline (S (clockReads Examples.idle)))
    by (vm_compute; discriminate).
  split; [exact idle_not_negative|]. split; [exact offline_monotone|].
  split; [exact L|].
  destruct (resolution_waits_are_bounded Examples.offline "abc" Examples.idle
              _ _ _ idle_not_negative offline_monotone L offline_run)
    as [_ [_ [_ H]]].
  exact H.
Defined.

Lemma resolution_outcomes_witness :
  let segments := [{| text := "good day"; offset := ofZ 1; duration := ofZ 2 |}] in
  fst (fst (getYouTubeTranscript Examples.forward "abc" Examples.idle))
  = Return segments
  /\ segments <> []
  /\ Forall (fun segment => trimmed (text segment)) segments.
Proof.
  intros segments. split; [now rewrite forward_run|].
  destruct (resolution_outcomes Examples.forward "abc" Examples.idle _ _ _
              forward_run) as [_ H].
  exact H.
Defined.

Lemma transcriptRoute_answers_witness :
  isId Examples2.sampleId
  /\ exists response w' events,
       transcriptRoute Examples2.voided (Some Examples2.sampleId) Examples.idle
       = (Return response, w', events)
       /\ response
          = Json 500 "Server error"
              (Some "An unexpected error occurred while fetching the transcript")
              (Some "Cannot read properties of undefined (reading 'message')").
Proof.
  split; [exact sampleId_isId|].
  destruct (transcriptRoute_answers Examples2.voided Examples2.sampleId
              Examples.idle sampleId_isId) as [response [w' [events [E H]]]].
  exists response, w', events. split; [exact E|].
  change (fallbackChain Examples2.voided Examples2.sampleId)
    with (@Error (list TranscriptSegment)
            "Cannot read properties of undefined (reading 'message')")
    in H.
  destruct H as [message [M [[_ H] | [L _]]]].
  - injection M as <-. exact H.
  - injection M as <-. exfalso.
    destruct L as [L | [L | [L | []]]]; discriminate L.
Defined.

Lemma missing_id_is_no_id :
  forall videoId, @None string = Some videoId -> ~ isId videoId.
Proof.
  intros videoId H. discriminate H.
Qed.

Lemma routes_reject_before_resolving_witness :
  (forall videoId, @None string = Some videoId -> ~ isId videoId)
  /\ exists error w',
       downloadRoute Examples.captioned Examples.plainToString Examples.plainJson
         None (Some "srt") None Examples.idle
       = (Return (Json 400 error None None), w', [])
       /\ w' = Examples.idle.
Proof.
  split; [exact missing_id_is_no_id|].
  destruct (routes_reject_before_resolving Examples.captioned
              Examples.plainToString Examples.plainJson None (Some "srt") None
              Examples.idle (or_introl missing_id_is_no_id)) as [H _].
  exact H.
Defined.

Lemma srt_known : In (toLowerCase (orString (Some "SRT") "txt")) knownFormats.
Proof.
  cbn. tauto.
Qed.

Lemma srt_text : In (toLowerCase (orString (Some "SRT") "txt")) textFormats.
Proof.
  cbn. tauto.
Qed.

Lemma downloadRoute_answers_witness :
  isId Examples2.sampleId
  /\ In (toLowerCase (orString (Some "SRT") "txt")) knownFormats
  /\ exists response w' events,
       downloadRoute Examples.captioned Examples.plainToString Examples.plainJson
         (Some Examples2.sampleId) (Some "SRT") (Some "my talk") Examples.idle
       = (Return response, w', events).
Proof.
  split; [exact sampleId_isId|]. split; [exact srt_known|].
  destruct (downloadRoute_answers Examples.captioned Examples.plainToString
              Examples.plainJson Examples2.sampleId (Some "SRT") (Some "my talk")
              Examples.idle sampleId_isId srt_known)
    as [response [w' [events [E _]]]].
  exists response, w', events. exact E.
Defined.

Lemma download_attachment_iff_rendered_witness :
  isId Examples2.sampleId
  /\ In (toLowerCase (orString (Some "SRT") "txt")) textFormats
  /\ exists response w' events,
       downloadRoute Examples.captioned Examples.plainToString Examples.plainJson
         (Some Examples2.sampleId) (Some "SRT") (Some "my talk") Examples.idle
       = (Return response, w', events)
       /\ response <> Json 500 "Failed to format transcript" None None.
Proof.
  split; [exact sampleId_isId|]. split; [exact srt_text|].
  destruct (download_attachment_iff_rendered Examples.captioned
              Examples.plainToString Examples.plainJson Examples2.sampleId
              (Some "SRT") (Some "my talk") Examples.idle sampleId_isId srt_text)
    as [response [w' [events [E [N _]]]]].
  exists response, w', events. split; [exact E | exact N].
Defined.

Lemma spoken_hushed_not_empty : [Examples2.spoken; Examples2.hushed] <> [].
Proof.
  discriminate.
Qed.

Lemma strategyA_result_is_rendered_iff_no_blank_witness :
  [Examples2.spoken; Examples2.hushed] <> []
  /\ formatTranscript Examples.plainToString Examples.plainJson
       (map toObject (map formatSegment [Examples2.spoken; Examples2.hushed])) "txt"
     = Error ("Invalid text in segment " ++ ofN 1).
Proof.
  split; [exact spoken_hushed_not_empty|].
  destruct (strategyA_result_is_rendered_iff_no_blank Examples.plainToString
              Examples.plainJson [Examples2.spoken; Examples2.hushed] "txt"
              spoken_hushed_not_empty) as [_ H].
  apply (H [Examples2.spoken] Examples2.hushed [] eq_refl).
  - constructor; [|constructor]. cbn. discriminate.
  - reflexivity.
Defined.

Lemma reversed_parse :
  parseYoutubeI Examples.reversed "abc"
  = Return [{| text := "hi"; offset := ofZ 3; duration := ofZ (-2) |}].
Proof.
  vm_compute. reflexivity.
Qed.

Lemma reversed_rejected :
  formatTranscript Examples.plainToString Examples.plainJson
    (map toObject [{| text := "hi"; offset := ofZ 3; duration := ofZ (-2) |}]) "txt"
  = Error "Invalid duration in segment 0".
Proof.
  vm_compute. reflexivity.
Qed.

Lemma strategyB_result_is_rejected_on_timing_only_witness :
  parseYoutubeI Examples.reversed "abc"
  = Return [{| text := "hi"; offset := ofZ 3; duration := ofZ (-2) |}]
  /\ formatTranscript Examples.plainToString Examples.plainJson
       (map toObject [{| text := "hi"; offset := ofZ 3; duration := ofZ (-2) |}]) "txt"
     = Error "Invalid duration in segment 0"
  /\ ([{| text := "hi"; offset := ofZ 3; duration := ofZ (-2) |}] = []
      /\ "Invalid duration in segment 0" = "Empty transcript provided"
      \/ exists before s after,
           [{| text := "hi"; offset := ofZ 3; duration := ofZ (-2) |}]
           = (before ++ s :: after)%list
           /\ Forall (fun x => ltb (duration x) zero = false
                               /\ ltb (offset x) zero = false) before
           /\ (ltb (duration s) zero = true
               /\ "Invalid duration in segment 0"
                  = "Invalid duration in segment "
                    ++ ofN (N.of_nat (List.length before))
               \/ ltb (duration s) zero = false /\ ltb (offset s) zero = true
                  /\ "Invalid duration in segment 0"
                     = "Invalid offset in segment "
                       ++ ofN (N.of_nat (List.length before)))).
Proof.
  split; [exact reversed_parse|]. split; [exact reversed_rejected|].
  exact (strategyB_result_is_rejected_on_timing_only Examples.reversed
           Examples.plainToString Examples.plainJson "abc" _ "txt" _
           reversed_parse reversed_rejected).
Defined.

Lemma watch_url_client_valid :
  Client.isValidYouTubeUrl "https://www.youtube.com/watch?v=dQw4w9WgXcQ" = true.
Proof.
  vm_compute. reflexivity.
Qed.

Lemma client_check_is_the_stricter_witness :
  Client.isValidYouTubeUrl "https://www.youtube.com/watch?v=dQw4w9WgXcQ" = true
  /\ Urls.isValidYouTubeUrl "https://www.youtube.com/watch?v=dQw4w9WgXcQ" = true
  /\ ~ isId "https://www.youtube.com/watch?v=dQw4w9WgXcQ".
Proof.
  split; [exact watch_url_client_valid|].
  exact (client_check_is_the_stricter _ watch_url_client_valid).
Defined.

Lemma flaky_run :
  Client.fetchWithRetry Examples2.flaky Client.MAX_RETRIES
  = (Return {| Client.status := 200; Client.statusText := "OK" |},
     [Client.Fetch 0; Client.Sleep 1000; Client.Fetch 1]).
Proof.
  vm_compute. reflexivity.
Qed.

Lemma three_retries : (1 <= Client.MAX_RETRIES)%nat.
Proof.
  unfold Client.MAX_RETRIES. lia.
Qed.

Lemma fetchWithRetry_rounds_witness :
  (1 <= Client.MAX_RETRIES)%nat
  /\ Client.fetchWithRetry Examples2.flaky Client.MAX_RETRIES
     = (Return {| Client.status := 200; Client.statusText := "OK" |},
        [Client.Fetch 0; Client.Sleep 1000; Client.Fetch 1])
  /\ exists k,
       (1 <= k <= Client.MAX_RETRIES)%nat
       /\ fetches [Client.Fetch 0; Client.Sleep 1000; Client.Fetch 1] = seq 0 k
       /\ slept [Client.Fetch 0; Client.Sleep 1000; Client.Fetch 1]
          = 500 * Z.of_nat k * (Z.of_nat k - 1).
Proof.
  split; [exact three_retries|]. split; [exact flaky_run|].
  destruct (fetchWithRetry_rounds Examples2.flaky Client.MAX_RETRIES _ _
              three_retries flaky_run) as [k [K [F [_ [_ [_ [_ [S _]]]]]]]].
  exists k. split; [exact K|]. split; [exact F | exact S].
Defined.
